(* ===== verification/_CoqProject ===== *)
-Q . S2P
Prelude.v
Records.v
Index.v
Handle.v
Concurrency.v
Abstract.v
Independence.v
PlayerLeases.v
Contract.v
Cli.v
