(* ===== verification/Prelude.v ===== *)
(** * Verification of the flo lobby state store (crates/lobby/src/state.rs)

  ** The program

  [src/crates/lobby/src/state.rs] is the in-memory authoritative state of
  the flo lobby service.  One reader/writer lock guards the "coarse index"
  [StorageState], which holds three tables:
  - [players : HashMap<i32, Arc<Mutex<PlayerState>>>],
  - [games : HashMap<i32, Arc<Mutex<GameState>>>],
  - [game_num_players : HashMap<i32, usize>], a cache of member counts.
  Each entity record sits behind its own Tokio mutex.  Callers hold a
  cloneable [StorageHandle] and obtain exclusive guards
  ([LockedPlayerState], [LockedGameState]) in two phases.  First they look
  the cell up under the coarse lock and release it; then they await the
  cell's mutex.  A game lease then checks [closed]: a closed game is
  purged from [games] and reported absent.  The game guard writes its
  member list through the mutex it holds.  It writes the count cache
  through the coarse lock, which it takes again while still holding the
  mutex.  [Storage::init] seeds the index from the active games of the
  database.

  [binaries/flo-cli/src/main.rs] is the command-line entry point: it
  loads [.env], installs the logger, parses the command line into the
  enum [Opt] (derived by structopt on clap 2) and runs the selected
  subcommand of one of the modules [client], [server], [lan], [observer],
  [kinesis] and [replay], whose code is not under src/.
  [crates/w3gs/src/lib.rs] only declares the modules of the game's wire
  protocol and includes generated code; it is not modelled.

  ** Layout of the development (files in dependency order)

  - [Prelude] (this file) holds the machine integers of the source:
    [usize] arithmetic with wrap-around ([usize_add], [usize_sub]) and the
    [as i32] cast ([as_i32]).  It also holds the [Vec] operations the
    store uses ([vec_contains], [vec_push], [vec_retain_ne]), [result]
    for [Result], the lemmas they share, the hint databases [flo] and
    [flo_rw], and the tactic [flo_bool].
  - [Records] has one Module per Rust record: [GameState], [PlayerState],
    and the collaborators' [NotificationSender], [GameStateFromDb] and
    [GameEntry].  Each Module holds a Record [t], the constructors of the
    source ([GameState.new], [PlayerState.default]) and the field writes
    of the guards.  The file ends with decidable-equality instances.
  - [Index] models the shared memory.  [Heap] is an arena of the
    [Arc<Mutex<_>>] cells: [Arc::new] allocates a fresh location, and a
    clone of an [Arc] is a copy of the location.  A guard and the index
    can therefore alias one cell or, once the index has moved on, point
    to different ones.  The file also holds the coarse index
    [StorageState], the loader [StorageState.new] (its two [for] loops as
    structural fixpoints) and [Storage.init].  It states the store
    invariant [wf] and proves the lemmas by which every write preserves
    it, and the loader's theorems.
  - [Handle] models every method of [StorageHandle] and of the two guards
    as a state transformer on the store.  Each transformer runs its
    critical sections to completion: this is a caller that is not
    interleaved with others.  The file defines the sequential executions
    [step] of callers that keep the contract of the specification, and
    proves the functional, error, bounds and invariant theorems and the
    divergences from the specification.
  - [Concurrency] models the interleavings.  A task runs one request.
    Its program counter [Pc] follows the phases of the source: index
    lookup, await of the entity mutex, closed check, purge or guard
    operations, count-cache write, guard drop.  Each critical section of
    the coarse index is one atomic step, since none of them awaits.  The
    [owner] map records who holds each Tokio mutex.  [cstep] lets any
    task step, a new caller arrive, or a suspended acquisition be
    abandoned.  [run_task] is executable, and [run_schedule] replays a
    schedule by evaluation.
  - [Abstract] states what the store promises its callers, without cells,
    locations or caches.  [Lobby] maps each game id to its member list and
    [closed] flag, and each player id to the game it has joined;
    [Lobby.exec] runs one call of the specification and returns what the
    caller reads back.  [abs] reads a store as a [Lobby].  [lstep] is a
    call of the store labelled with the call and its result.  Section
    [Refinement] shows that each method of [Handle] acts on [abs] as the
    matching [Lobby] call, returned values included.
  - [Independence] describes the step of a task that holds a mutex as
    one write [Fx] to the store ([held_step], equal to [run_task] on
    those program counters), and shows that writes on different cells
    commute.
  - [PlayerLeases] shows that the player index only grows and that
    player leases serialize, by an invariant of the interleavings:
    every task leasing a player is on the cell the index names.
  - [Contract] restricts the interleavings to callers that keep the
    contract at the step that performs each operation ([ccstep]; without
    closures, [ncstep]).  [flush_counts] completes the count writes still
    pending; the invariant [ninv] says the flushed store is well formed.
  - [Cli] models [main.rs]: the grammar [from_args_list] of [Opt], with
    [i32_from_str] and [i32_to_string] (models of the standard library's
    [FromStr] and [Display] for [i32], which the derive applies to
    [player_id] and the statements write it with); the
    effect monad [IO] with its three outcomes (a value, an [Err] through
    [?], a process exit); [main].  The subcommand modules are the
    classes [CommandSet] (their [Command] types and parsers) and
    [CommandRun] (their [run]); the process is the class [Runtime]
    ([dotenv], the logger, the argument list).  The theorems are proved
    against these classes; [Demo] is one instance of them, for the
    examples.

  ** What the theorems show

  - Invariant.  [init_wf_attached]: the start-up load builds a
    well-formed store in which every player is attached to a game that
    lists it.  [count_cache_consistent]: every state reached by callers
    that keep the contract has each cached count equal to the length of
    the game's member list.  The proof is [reachable_wf], by induction on
    [step], with one preservation lemma per operation.
  - Functional and error behaviour of each operation on each branch.
    [lock_game_state_active], [lock_game_state_none] and
    [close_then_lock_none] cover leasing a game and the lazy purge.
    [add_player_spec], [add_player_idempotent] and [remove_player_member]
    cover the members.  [register_game_spec] covers registration
    overwrite.  [lock_player_state_spec] and [join_leave_game] cover
    player leases.  [fetch_num_players_spec] covers listing.
  - Bounds.  [remove_from_empty_wraps]: the [usize] count wraps to
    2^64 - 1 and is listed as -1.
  - Concurrency.  [deadlock_free] holds over every interleaving.
    [all_tasks_complete]: any schedule of task steps is finite and ends
    with every task finished; the measure is [work].
    [lease_game_refines] and [lease_player_refines]: a lease that runs
    without interference refines the atomic semantics of [Handle].
    [holders_commute]: the next steps of two tasks that hold different
    entities commute (independence).  [player_index_grows] and
    [player_leases_serialize]: two leases of one player id never both
    hold it.  [counts_consistent_without_close]: for callers that keep the
    contract and never close a game, every reachable store is well formed
    once its pending count writes are done, so the count cache is exact
    whenever no write is pending.
  - Refinement.  [handle_refines_lobby]: every sequential run of the
    store's calls under the contract is, through [abs], the run of the
    same calls in [Lobby]: same final lobby, same result of every call.
  - Command line.  [main_runs_command]: [main] runs exactly the module's
    [run] on the command written on the line, with the written player id.
    [main_status]: the process status.
    [main_rejects_negative_player]: a negative player id cannot be given.
  - Findings.  [purge_race_loses_registration]: an interleaving in which
    the lazy purge removes a game registered after the close.
    [register_orphans_guard]: an orphaned guard still writes the count of
    the new game.  [remove_player_absent_drifts]: removing a non-member
    still decrements the count.  [close_then_lock_none]: the purge leaves
    the count in the cache.  [fetch_not_snapshot]: one listing can
    report a game with two different counts.  [stale_purge_breaks_count]:
    with closures the count cache goes wrong under interleaving even for
    callers that keep the contract.
    [main_rejects_negative_player]: clap reads [-5] as a flag.

  ** Modelling choices, bounds and fuel

  - [i32] identifiers are [Z].  Every arithmetic operation on a [usize]
    count reduces modulo 2^64.  This is the release profile, where
    overflow checks are off; a debug build panics instead.
  - A [Vec<i32>] is a [list Z].  Its buffer holds at most [isize::MAX]
    bytes, so its length is at most [vec_max_len] = (2^63 - 1) / 4, and a
    [push] past that panics.  The invariant carries this bound; it is the
    only reason [len + 1] and [len - 1] do not wrap.
  - Cells are never freed: dropping the last [Arc] is not observable by
    the store.  [tracing::warn!] is modelled as a boolean output of
    [register_game].
  - The only fuel is that of [show_digits], the decimal printer the
    command-line statements write player ids with: [digits_fuel n] is
    [log2 n + 1], and [digits_fuel_enough] shows that n < 10^fuel, so
    every digit is printed.  The loader and the list operations are
    structural.  The interleaving semantics is a relation whose
    termination [all_tasks_complete] proves, by well-founded induction
    on [total_work].
  - Callers are modelled by their requests: the guard operations a lease
    performs before its guard is dropped ([PlayerOp], [GameOp]).  What a
    caller computes between operations is not modelled.
  - The command line follows the grammar the derive declares and clap
    2's treatment of help, version and unknown flags.  Not modelled: the
    [--] separator (read as an unknown flag here), a nested subcommand
    name written in place of [player_id], and the text of clap's
    messages.
  - Not modelled: the notification channel (only stored), the database
    query (its result is the argument of [Storage.init]), the RPC, LAN
    and replay layers and the subcommand modules (their code is not
    under src/; [main] sees them through [CommandSet] and [CommandRun]),
    [crates/w3gs/src/lib.rs] (module declarations and a generated
    include, no behaviour), [Storage::handle] (a clone of the [Arc]:
    every task of [Concurrency] shares the one store), and the Tokio
    mutex itself: its exclusion and its fairness are the runtime's
    guarantees, taken as the semantics of [acquire] and [release].

  ** Not yet covered

  - A [Class] interface that the count cache promises to the listing,
    proved against [Lobby] and discharged by [Handle].
  - The concurrent runs of [Concurrency] without closures refined into
    runs of [Lobby] (a reduction argument built on [holders_commute] and
    the invariant [ninv]).
  - The contract of callers as a combined player-then-game transaction
    (§9 of the specification) and its cross-record invariant.
*)

From stdpp Require Export gmap list.
From Stdlib Require Export ZArith Lia.

Declare Scope flo_scope.
Delimit Scope flo_scope with flo.

Create HintDb flo discriminated.
Create Rewrite HintDb flo_rw.

Local Open Scope Z_scope.

(** ** Machine integers *)

(** [usize] on the 64-bit targets the service runs on. *)
Definition usize_bits : Z := 64.
Definition usize_modulus : Z := 2 ^ usize_bits.

(** Wrap-around of an unbounded result into [usize]. *)
Definition usize_wrap (z : Z) : Z := z mod usize_modulus.

(** [a + b] and [a - b] on [usize] with overflow checks off. *)
Definition usize_add (a b : Z) : Z := usize_wrap (a + b).
Definition usize_sub (a b : Z) : Z := usize_wrap (a - b).

Definition in_usize (z : Z) : Prop := 0 <= z < usize_modulus.

(** [x as i32] for an unsigned [x]: keep the low 32 bits and read them in
    two's complement. *)
Definition as_i32 (z : Z) : Z :=
  let m := z mod 2 ^ 32 in
  if m <? 2 ^ 31 then m else m - 2 ^ 32.

Definition in_i32 (z : Z) : Prop := - 2 ^ 31 <= z < 2 ^ 31.

Notation "a +ᵤ b" := (usize_add a b) (at level 50, left associativity) : flo_scope.
Notation "a -ᵤ b" := (usize_sub a b) (at level 50, left associativity) : flo_scope.

(** ** Fallible results *)

(** [Result<A, E>]: the store's only fallible operation is its start-up
    load, whose error it passes on with [?]. *)
Inductive result (A E : Type) : Type :=
| Ok (a : A)
| Err (e : E).
Arguments Ok {A E} a.
Arguments Err {A E} e.

(** ** [Vec<i32>] operations *)

(** [v.len()] as a [usize]. *)
Definition vec_len {A} (v : list A) : Z := Z.of_nat (length v).

(** The largest length of a [Vec<i32>]: its buffer holds at most
    [isize::MAX] bytes, and a [push] past it panics. *)
Definition vec_max_len : Z := (2 ^ 63 - 1) / 4.

(** [v.contains(&x)]. *)
Definition vec_contains (v : list Z) (x : Z) : bool := existsb (fun y => y =? x) v.

(** [v.push(x)]. *)
Definition vec_push (v : list Z) (x : Z) : list Z := v ++ [x].

(** [v.retain(|id| *id != x)]. *)
Definition vec_retain_ne (v : list Z) (x : Z) : list Z :=
  filter (fun y => y <> x) v.

(** ** Lemmas on machine integers *)

Lemma usize_wrap_small z : in_usize z -> usize_wrap z = z.
Proof. unfold in_usize, usize_wrap. intros. by apply Z.mod_small. Qed.

Lemma usize_wrap_range z : in_usize (usize_wrap z).
Proof. unfold in_usize, usize_wrap, usize_modulus, usize_bits. apply Z.mod_pos_bound. lia. Qed.

Lemma usize_add_small a b : in_usize (a + b) -> usize_add a b = a + b.
Proof. apply usize_wrap_small. Qed.

Lemma usize_sub_small a b : in_usize (a - b) -> usize_sub a b = a - b.
Proof. apply usize_wrap_small. Qed.

(** [0 - 1] wraps to the largest [usize]. *)
Lemma usize_sub_0_1 : usize_sub 0 1 = usize_modulus - 1.
Proof. reflexivity. Qed.

(** Decrementing what was incremented gives the value back. *)
Lemma usize_sub_add_1 a : in_usize a -> usize_sub (usize_add a 1) 1 = a.
Proof.
  intros Ha. unfold usize_sub, usize_add, usize_wrap.
  rewrite Zminus_mod_idemp_l. replace (a + 1 - 1) with a by lia.
  by apply Z.mod_small.
Qed.

(** A wrapping decrement never gives its argument back. *)
Lemma usize_sub_1_ne a : in_usize a -> usize_sub a 1 <> a.
Proof.
  intros Ha. destruct (Z.eq_dec a 0) as [->|Hne]; [discriminate|].
  rewrite usize_sub_small; [lia | unfold in_usize in *; lia].
Qed.

(** Wrapping increments and decrements commute: both orders give [a]
    modulo 2^64. *)
Lemma usize_add_sub_comm a b c :
  usize_sub (usize_add a b) c = usize_add (usize_sub a c) b.
Proof.
  unfold usize_add, usize_sub, usize_wrap.
  rewrite Zminus_mod_idemp_l, Zplus_mod_idemp_l. f_equal. lia.
Qed.

Lemma as_i32_small z : 0 <= z < 2 ^ 31 -> as_i32 z = z.
Proof.
  intros Hz. unfold as_i32. rewrite Z.mod_small by lia.
  destruct (Z.ltb_spec z (2 ^ 31)); lia.
Qed.

Lemma as_i32_range z : in_i32 (as_i32 z).
Proof.
  unfold in_i32, as_i32.
  pose proof (Z.mod_pos_bound z (2 ^ 32) ltac:(lia)).
  destruct (Z.ltb_spec (z mod 2 ^ 32) (2 ^ 31)); lia.
Qed.

Lemma vec_max_len_bound : 0 < vec_max_len < usize_modulus - 1.
Proof. split; vm_compute; reflexivity. Qed.

Lemma vec_len_succ_usize {A} (v : list A) :
  vec_len v < vec_max_len -> usize_add (vec_len v) 1 = vec_len v + 1.
Proof.
  intros. apply usize_add_small. pose proof vec_max_len_bound.
  unfold in_usize, vec_len in *. lia.
Qed.

Lemma vec_len_pred_usize {A} (v : list A) :
  (0 < length v)%nat -> vec_len v <= vec_max_len -> usize_sub (vec_len v) 1 = vec_len v - 1.
Proof.
  intros. apply usize_sub_small. pose proof vec_max_len_bound.
  unfold in_usize, vec_len in *. lia.
Qed.

(** ** Lemmas on the [Vec] operations *)

Lemma vec_contains_true v x : vec_contains v x = true <-> x ∈ v.
Proof.
  unfold vec_contains. rewrite existsb_exists, list_elem_of_In. split.
  - intros (y & Hy & Heq). apply Z.eqb_eq in Heq. by subst.
  - intros Hx. exists x. split; [done | apply Z.eqb_refl].
Qed.

Lemma vec_contains_false v x : vec_contains v x = false <-> x ∉ v.
Proof. rewrite <- vec_contains_true. destruct (vec_contains v x); intuition congruence. Qed.

Lemma elem_of_vec_push v x y : y ∈ vec_push v x <-> y ∈ v \/ y = x.
Proof. unfold vec_push. rewrite elem_of_app, list_elem_of_singleton. tauto. Qed.

Lemma length_vec_push v x : length (vec_push v x) = S (length v).
Proof. unfold vec_push. rewrite length_app. simpl. lia. Qed.

Lemma NoDup_vec_push v x : x ∉ v -> NoDup v -> NoDup (vec_push v x).
Proof.
  intros Hx Hv. unfold vec_push. apply NoDup_app. split_and!; [done | | by apply NoDup_singleton].
  intros y Hy ->%list_elem_of_singleton. done.
Qed.

Lemma elem_of_vec_retain_ne v x y : y ∈ vec_retain_ne v x <-> y ∈ v /\ y <> x.
Proof. unfold vec_retain_ne. rewrite list_elem_of_filter. tauto. Qed.

Lemma vec_retain_ne_absent v x : x ∉ v -> vec_retain_ne v x = v.
Proof.
  intros Hx. unfold vec_retain_ne. induction v as [|y v IH]; [done|].
  apply not_elem_of_cons in Hx as [Hne Hx]. rewrite filter_cons.
  rewrite decide_True by congruence. by rewrite IH.
Qed.

Lemma NoDup_vec_retain_ne v x : NoDup v -> NoDup (vec_retain_ne v x).
Proof. intros Hv. unfold vec_retain_ne. by apply NoDup_filter. Qed.

(** In a list without duplicates, [retain] of a present element removes
    exactly one entry. *)
Lemma length_vec_retain_ne_present v x :
  NoDup v -> x ∈ v -> S (length (vec_retain_ne v x)) = length v.
Proof.
  unfold vec_retain_ne. induction v as [|y v IH]; intros Hnd Hx;
    [by apply not_elem_of_nil in Hx|].
  apply NoDup_cons in Hnd as [Hy Hnd]. rewrite filter_cons.
  destruct (decide (y = x)) as [->|Hne].
  - rewrite decide_False by congruence. simpl. f_equal.
    change (length (vec_retain_ne v x) = length v). by rewrite vec_retain_ne_absent.
  - rewrite decide_True by done. apply elem_of_cons in Hx as [->|Hx]; [congruence|].
    simpl. by rewrite IH.
Qed.

#[export] Hint Resolve usize_wrap_range as_i32_range NoDup_vec_push NoDup_vec_retain_ne : flo.
#[export] Hint Rewrite vec_contains_true vec_contains_false elem_of_vec_push
  elem_of_vec_retain_ne : flo_rw.

(** ** Tactics *)

(** Turn the boolean tests of the source into propositions. *)
Ltac flo_bool :=
  repeat match goal with
  | H : (_ =? _) = true |- _ => apply Z.eqb_eq in H
  | H : (_ =? _) = false |- _ => apply Z.eqb_neq in H
  | H : vec_contains _ _ = true |- _ => apply vec_contains_true in H
  | H : vec_contains _ _ = false |- _ => apply vec_contains_false in H
  end.
