(* ===== verification/Records.v ===== *)
(** Entity records of the store ([GameState], [PlayerState] in
    crates/lobby/src/state.rs) and the records the store takes from its
    collaborators ([NotificationSender] from crate::connect,
    [GameStateFromDb] from crate::game::db, [GameEntry] from crate::game),
    with the field updates a guard performs on the record it holds.  Each
    Rust type is a Module holding a Record [t], so that [GameState.new]
    and [PlayerState.default] read as the source's paths. *)

From S2P Require Import Prelude.

Local Open Scope Z_scope.

(** ** Records of the collaborators (their code is not under src/) *)

(** [crate::connect::NotificationSender]: an opaque handle on the outbound
    channel of a connection.  The store only keeps it. *)
Module NotificationSender.
Record t := mk { channel : positive }.
End NotificationSender.

(** [crate::game::db::GameStateFromDb]: an active game as loaded from the
    database at start-up. *)
Module GameStateFromDb.
Record t := mk { id : Z; players : list Z }.
End GameStateFromDb.

(** [crate::game::GameEntry]: a game summary of a listing; the store reads
    its [id] and writes its [num_players]. *)
Module GameEntry.
Record t := mk { id : Z; num_players : Z }.
End GameEntry.

(** ** Entity records *)

(** [pub struct GameState { pub players: Vec<i32>, closed: bool }]. *)
Module GameState.
Record t := mk { players : list Z; closed : bool }.

(** [GameState::new(players)]: a copy of the slice, not closed. *)
Definition new (ps : list Z) : t := mk ps false.

(** [self.guard.players = ...] (the effect of [push] and [retain]). *)
Definition set_players (ps : list Z) (g : t) : t := mk ps (closed g).

(** [self.guard.closed = true]. *)
Definition set_closed (g : t) : t := mk (players g) true.
End GameState.

(** [#[derive(Default)] pub struct PlayerState { pub game_id: Option<i32>,
    pub sender: Option<NotificationSender> }]. *)
Module PlayerState.
Record t := mk { game_id : option Z; sender : option NotificationSender.t }.

(** [PlayerState::default()]: unattached, no connection. *)
Definition default : t := mk None None.

(** [self.guard.game_id = g]. *)
Definition set_game_id (g : option Z) (p : t) : t := mk g (sender p).
End PlayerState.

(** ** Decidable equality of the records *)

#[export] Instance NotificationSender_eq_dec : EqDecision NotificationSender.t.
Proof. solve_decision. Defined.
#[export] Instance GameStateFromDb_eq_dec : EqDecision GameStateFromDb.t.
Proof. solve_decision. Defined.
#[export] Instance GameEntry_eq_dec : EqDecision GameEntry.t.
Proof. solve_decision. Defined.
#[export] Instance GameState_eq_dec : EqDecision GameState.t.
Proof. solve_decision. Defined.
#[export] Instance PlayerState_eq_dec : EqDecision PlayerState.t.
Proof. solve_decision. Defined.
