(* ===== verification/Index.v ===== *)
(** The coarse index of the store and the heap of entity cells.

    [Heap] is the arena of the [Arc<Mutex<PlayerState>>] and
    [Arc<Mutex<GameState>>] cells: an [Arc::new] allocates the next
    location and every clone of the [Arc] is a copy of it, so that a guard
    and the index can point to the same cell or, once the index has moved
    on, to different ones.  [StorageState] is the struct behind the
    [RwLock] (crates/lobby/src/state.rs, lines 54-95), [Store] the whole
    shared memory, and [Storage.init] the start-up load.  The section
    closes with the well-formedness invariant [wf] of a store and the
    lemmas that the bulk loader and the handle share to preserve it. *)

From S2P Require Import Prelude Records.

Local Open Scope Z_scope.

Abbreviation loc := positive.

Module Heap.
Record t := mk {
  pcells : gmap loc PlayerState.t;
  gcells : gmap loc GameState.t;
  next : loc
}.

Definition empty : t := mk ∅ ∅ 1.

(** [Arc::new(Mutex::new(p))] for a player record. *)
Definition alloc_player (p : PlayerState.t) (h : t) : loc * t :=
  (next h, mk (<[next h := p]> (pcells h)) (gcells h) (Pos.succ (next h))).

(** [Arc::new(Mutex::new(g))] for a game record. *)
Definition alloc_game (g : GameState.t) (h : t) : loc * t :=
  (next h, mk (pcells h) (<[next h := g]> (gcells h)) (Pos.succ (next h))).

(** A write through a guard on the player cell [l]. *)
Definition modify_player (f : PlayerState.t -> PlayerState.t) (l : loc) (h : t) : t :=
  mk (alter f l (pcells h)) (gcells h) (next h).

(** A write through a guard on the game cell [l]. *)
Definition modify_game (f : GameState.t -> GameState.t) (l : loc) (h : t) : t :=
  mk (pcells h) (alter f l (gcells h)) (next h).
End Heap.

Module StorageState.
Record t := mk {
  players : gmap Z loc;
  games : gmap Z loc;
  game_num_players : gmap Z Z
}.

(** The inner loop of [StorageState::new]: every listed player gets a
    fresh record attached to the game [gid]. *)
Fixpoint insert_players (gid : Z) (pids : list Z) (ps : gmap Z loc) (h : Heap.t)
    : gmap Z loc * Heap.t :=
  match pids with
  | [] => (ps, h)
  | pid :: rest =>
      let '(l, h1) := Heap.alloc_player (PlayerState.mk (Some gid) None) h in
      insert_players gid rest (<[pid := l]> ps) h1
  end.

(** The outer loop of [StorageState::new], over the loaded games. *)
Fixpoint new_loop (data : list GameStateFromDb.t) (s : t) (h : Heap.t) : t * Heap.t :=
  match data with
  | [] => (s, h)
  | item :: rest =>
      let '(ps, h1) := insert_players (GameStateFromDb.id item)
                         (GameStateFromDb.players item) (players s) h in
      let gnp := <[GameStateFromDb.id item := vec_len (GameStateFromDb.players item)]>
                   (game_num_players s) in
      let '(l, h2) := Heap.alloc_game
                        (GameState.mk (GameStateFromDb.players item) false) h1 in
      new_loop rest (mk ps (<[GameStateFromDb.id item := l]> (games s)) gnp) h2
  end.

(** [StorageState::new(data)], starting from three empty maps. *)
Definition new (data : list GameStateFromDb.t) (h : Heap.t) : t * Heap.t :=
  new_loop data (mk ∅ ∅ ∅) h.
End StorageState.

(** The shared memory: the coarse index and the heap of cells. *)
Module Store.
Record t := mk { index : StorageState.t; heap : Heap.t }.
End Store.

Module Storage.
(** [Storage::init(db)]: the load of the active games, whose error is
    returned by [?] through the conversion [from] ([From::from] into the
    crate's error type), then [StorageState::new] on a fresh heap. *)
Definition init {E E'} (from : E -> E') (loaded : result (list GameStateFromDb.t) E) : result Store.t E' :=
  match loaded with
  | Ok data => let '(s, h) := StorageState.new data Heap.empty in Ok (Store.mk s h)
  | Err e => Err (from e)
  end.
End Storage.

(** ** Well-formedness *)

(** Every allocated cell lies below the allocation pointer, so the next
    [Arc::new] is fresh. *)
Definition heap_ok (h : Heap.t) : Prop :=
  forall l, is_Some (Heap.pcells h !! l) \/ is_Some (Heap.gcells h !! l) -> (l < Heap.next h)%positive.

(** The invariant of the store: the index points to allocated cells, two
    player ids or two game ids never share a cell, every indexed game has no duplicate
    member, a member list no longer than a [Vec<i32>] can be, and a cached
    count equal to the length of its member list. *)
Record wf (s : StorageState.t) (h : Heap.t) : Prop := {
  wf_heap : heap_ok h;
  wf_players : forall pid l, StorageState.players s !! pid = Some l -> is_Some (Heap.pcells h !! l);
  wf_players_inj : forall pid pid' l, StorageState.players s !! pid = Some l ->
    StorageState.players s !! pid' = Some l -> pid = pid';
  wf_games : forall gid l, StorageState.games s !! gid = Some l -> is_Some (Heap.gcells h !! l);
  wf_games_inj : forall gid gid' l, StorageState.games s !! gid = Some l ->
    StorageState.games s !! gid' = Some l -> gid = gid';
  wf_count : forall gid l gs, StorageState.games s !! gid = Some l -> Heap.gcells h !! l = Some gs ->
    StorageState.game_num_players s !! gid = Some (vec_len (GameState.players gs));
  wf_nodup : forall gid l gs, StorageState.games s !! gid = Some l -> Heap.gcells h !! l = Some gs ->
    NoDup (GameState.players gs);
  wf_len : forall gid l gs, StorageState.games s !! gid = Some l -> Heap.gcells h !! l = Some gs ->
    vec_len (GameState.players gs) <= vec_max_len
}.

Definition store_wf (w : Store.t) : Prop := wf (Store.index w) (Store.heap w).

(** ** Allocation *)

Lemma heap_ok_empty : heap_ok Heap.empty.
Proof. intros l [[? H]|[? H]]; simpl in H; by rewrite lookup_empty in H. Qed.

Lemma heap_ok_next_pcell h : heap_ok h -> Heap.pcells h !! Heap.next h = None.
Proof. intros Hh. apply eq_None_not_Some. intros Hs. specialize (Hh _ (or_introl Hs)). lia. Qed.

Lemma heap_ok_next_gcell h : heap_ok h -> Heap.gcells h !! Heap.next h = None.
Proof. intros Hh. apply eq_None_not_Some. intros Hs. specialize (Hh _ (or_intror Hs)). lia. Qed.

(** A cell that is allocated is not the next location. *)
Lemma heap_ok_gcell_ne h l : heap_ok h -> is_Some (Heap.gcells h !! l) -> l <> Heap.next h.
Proof. intros Hh Hs ->. specialize (Hh _ (or_intror Hs)). lia. Qed.

Lemma heap_ok_pcell_ne h l : heap_ok h -> is_Some (Heap.pcells h !! l) -> l <> Heap.next h.
Proof. intros Hh Hs ->. specialize (Hh _ (or_introl Hs)). lia. Qed.

Lemma heap_ok_alloc_player p h : heap_ok h -> heap_ok (Heap.alloc_player p h).2.
Proof.
  intros Hh l. simpl. rewrite !lookup_insert_is_Some'.
  intros [[->|Hl]|Hl]; [lia | |]; assert (l < Heap.next h)%positive by (apply Hh; tauto); lia.
Qed.

Lemma heap_ok_alloc_game g h : heap_ok h -> heap_ok (Heap.alloc_game g h).2.
Proof.
  intros Hh l. simpl. rewrite !lookup_insert_is_Some'.
  intros [Hl|[->|Hl]]; [| lia |]; assert (l < Heap.next h)%positive by (apply Hh; tauto); lia.
Qed.

Lemma heap_ok_modify_player f l h : heap_ok h -> heap_ok (Heap.modify_player f l h).
Proof. intros Hh l'. simpl. rewrite lookup_alter_is_Some. apply Hh. Qed.

Lemma heap_ok_modify_game f l h : heap_ok h -> heap_ok (Heap.modify_game f l h).
Proof. intros Hh l'. simpl. rewrite lookup_alter_is_Some. apply Hh. Qed.

#[export] Hint Resolve heap_ok_empty heap_ok_alloc_player heap_ok_alloc_game
  heap_ok_modify_player heap_ok_modify_game : flo.

(** ** Preservation of [wf] by the steps the loader and the handle share *)

(** Indexing a fresh player record ([players.insert(id, Arc::new(..))]). *)
Lemma wf_insert_player s h pid p :
  wf s h ->
  wf (StorageState.mk (<[pid := Heap.next h]> (StorageState.players s))
        (StorageState.games s) (StorageState.game_num_players s))
     (Heap.alloc_player p h).2.
Proof.
  intros [Hh Hp Hpi Hg Hi Hc Hn Hb]. split; [auto with flo|simpl..]; auto.
  - intros pid' l. rewrite lookup_insert_Some.
    intros [[_ <-]|[_ Hl]]; [by rewrite lookup_insert_eq|].
    rewrite lookup_insert_ne; [eauto | by apply not_eq_sym, heap_ok_pcell_ne; eauto].
  - intros a b l. rewrite !lookup_insert_Some.
    intros [[<- <-]|[Hna Ha]] [[<- Hl]|[Hnb Hb']]; eauto.
    + exfalso. apply (heap_ok_pcell_ne h (Heap.next h)); eauto.
    + exfalso. subst l. apply (heap_ok_pcell_ne h (Heap.next h)); eauto.
Qed.

(** Indexing a fresh game record with its count, as [register_game] and
    the loader do. *)
Lemma wf_insert_game s h gid ps :
  NoDup ps -> vec_len ps <= vec_max_len -> wf s h ->
  wf (StorageState.mk (StorageState.players s)
        (<[gid := Heap.next h]> (StorageState.games s))
        (<[gid := vec_len ps]> (StorageState.game_num_players s)))
     (Heap.alloc_game (GameState.mk ps false) h).2.
Proof.
  intros Hps Hlen [Hh Hp Hpi Hg Hi Hc Hn Hlb].
  assert (Hold : forall gid' l, StorageState.games s !! gid' = Some l ->
            (<[Heap.next h := GameState.mk ps false]> (Heap.gcells h)) !! l = Heap.gcells h !! l).
  { intros gid' l Hl. apply lookup_insert_ne, not_eq_sym, (heap_ok_gcell_ne h); eauto. }
  split; [auto with flo|simpl..]; auto.
  - intros gid' l. rewrite lookup_insert_Some.
    intros [[_ <-]|[_ Hl]]; [by rewrite lookup_insert_eq | rewrite (Hold gid' l Hl); eauto].
  - intros a b l. rewrite !lookup_insert_Some.
    intros [[<- <-]|[Hna Ha]] [[<- Hl]|[Hnb Hb]]; eauto.
    + exfalso. apply (heap_ok_gcell_ne h (Heap.next h)); eauto.
    + exfalso. subst l. apply (heap_ok_gcell_ne h (Heap.next h)); eauto.
  - intros gid' l gs. rewrite lookup_insert_Some.
    intros [[<- <-]|[Hne Hl]] Hgs.
    + rewrite lookup_insert_eq in Hgs. simplify_eq. by rewrite lookup_insert_eq.
    + rewrite (Hold gid' l Hl) in Hgs. rewrite lookup_insert_ne by done. eauto.
  - intros gid' l gs. rewrite lookup_insert_Some.
    intros [[<- <-]|[Hne Hl]] Hgs.
    + rewrite lookup_insert_eq in Hgs. by simplify_eq.
    + rewrite (Hold gid' l Hl) in Hgs. eauto.
  - intros gid' l gs. rewrite lookup_insert_Some.
    intros [[<- <-]|[Hne Hl]] Hgs.
    + rewrite lookup_insert_eq in Hgs. by simplify_eq.
    + rewrite (Hold gid' l Hl) in Hgs. eauto.
Qed.

Lemma wf_empty h : heap_ok h -> wf (StorageState.mk ∅ ∅ ∅) h.
Proof. intros Hh. split; simpl; [done | intros ??; by rewrite lookup_empty ..]. Qed.

(** ** The bulk loader *)

Lemma insert_players_wf gid pids s h :
  wf s h ->
  wf (StorageState.mk (StorageState.insert_players gid pids (StorageState.players s) h).1
        (StorageState.games s) (StorageState.game_num_players s))
     (StorageState.insert_players gid pids (StorageState.players s) h).2.
Proof.
  revert s h. induction pids as [|pid rest IH]; intros s h Hw; [by destruct s|].
  apply (IH (StorageState.mk _ _ _)). by apply wf_insert_player.
Qed.

(** [StorageState::new] yields a well-formed store when no loaded game
    lists a player twice. *)
Lemma new_loop_wf data s h :
  Forall (fun it => NoDup (GameStateFromDb.players it) /\
                    vec_len (GameStateFromDb.players it) <= vec_max_len) data -> wf s h ->
  wf (StorageState.new_loop data s h).1 (StorageState.new_loop data s h).2.
Proof.
  revert s h. induction data as [|item rest IH]; intros s h Hnd Hw; [done|].
  apply Forall_cons in Hnd as [[Hi Hb] Hnd]. simpl.
  pose proof (insert_players_wf (GameStateFromDb.id item) (GameStateFromDb.players item) s h Hw) as Hw1.
  destruct (StorageState.insert_players _ _ _ _) as [ps h1]. simpl in Hw1.
  apply IH; [done|]. by apply (wf_insert_game (StorageState.mk _ _ _)).
Qed.

(** The inner loop allocates player cells only. *)
Lemma insert_players_gcells gid pids ps h :
  Heap.gcells (StorageState.insert_players gid pids ps h).2 = Heap.gcells h.
Proof. revert ps h. induction pids as [|pid rest IH]; intros ps h; [done|]. simpl. by rewrite IH. Qed.

Lemma insert_players_heap_ok gid pids ps h :
  heap_ok h -> heap_ok (StorageState.insert_players gid pids ps h).2.
Proof.
  revert ps h. induction pids as [|pid rest IH]; intros ps h Hh; [done|].
  apply IH, (heap_ok_alloc_player (PlayerState.mk (Some gid) None) h Hh).
Qed.

(** What the inner loop leaves behind: a listed player points to a fresh
    record attached to [gid]; any other player keeps its cell. *)
Lemma insert_players_lookup gid pids ps h pid l p :
  heap_ok h ->
  (forall pid' l', ps !! pid' = Some l' -> is_Some (Heap.pcells h !! l')) ->
  (StorageState.insert_players gid pids ps h).1 !! pid = Some l ->
  Heap.pcells (StorageState.insert_players gid pids ps h).2 !! l = Some p ->
  ((pid ∈ pids) /\ p = PlayerState.mk (Some gid) None) \/
  ((pid ∉ pids) /\ ps !! pid = Some l /\ Heap.pcells h !! l = Some p).
Proof.
  revert ps h. induction pids as [|x rest IH]; intros ps h Hh Hps Hl Hp; simpl in *.
  { right. split_and!; [apply not_elem_of_nil | done..]. }
  set (h1 := Heap.mk _ _ _) in Hl, Hp.
  assert (Hps1 : forall pid' l', <[x := Heap.next h]> ps !! pid' = Some l' ->
                                 is_Some (Heap.pcells h1 !! l')).
  { intros pid' l'. rewrite lookup_insert_Some. simpl.
    intros [[_ <-]|[_ Hl']]; [by rewrite lookup_insert_eq | rewrite lookup_insert_is_Some'; eauto]. }
  destruct (IH _ h1 (heap_ok_alloc_player (PlayerState.mk (Some gid) None) h Hh) Hps1 Hl Hp)
    as [[Hin ->]|(Hnin & Hl1 & Hp1)].
  { left. split; [by apply elem_of_cons; right | done]. }
  simpl in Hp1. apply lookup_insert_Some in Hl1 as [[<- <-]|[Hne Hl1]].
  - rewrite lookup_insert_eq in Hp1. left. split; [apply elem_of_cons; by left | by simplify_eq].
  - right. rewrite lookup_insert_ne in Hp1 by (apply not_eq_sym, (heap_ok_pcell_ne h); eauto).
    split; [|done]. intros [->|?]%elem_of_cons; contradiction.
Qed.

(** The cross-record invariant of the specification: a player's
    [game_id] names an indexed game that lists it as a member. *)
Definition attached (s : StorageState.t) (h : Heap.t) : Prop :=
  forall pid l p gid,
    StorageState.players s !! pid = Some l -> Heap.pcells h !! l = Some p ->
    PlayerState.game_id p = Some gid ->
    exists lg gs, StorageState.games s !! gid = Some lg /\ Heap.gcells h !! lg = Some gs /\
                  pid ∈ GameState.players gs.

(** One game of the loader keeps every player attached, provided its id
    is not indexed yet. *)
Lemma new_loop_attached data s h :
  Forall (fun it => NoDup (GameStateFromDb.players it) /\
                    vec_len (GameStateFromDb.players it) <= vec_max_len) data ->
  NoDup (GameStateFromDb.id <$> data) ->
  (forall it, it ∈ data -> StorageState.games s !! GameStateFromDb.id it = None) ->
  wf s h -> attached s h ->
  attached (StorageState.new_loop data s h).1 (StorageState.new_loop data s h).2.
Proof.
  revert s h. induction data as [|item rest IH]; intros s h Hnd Hids Hfree Hw Ha; [done|].
  apply Forall_cons in Hnd as [[Hi Hb] Hnd].
  rewrite fmap_cons in Hids. apply NoDup_cons in Hids as [Hnotin Hids].
  pose proof (insert_players_wf (GameStateFromDb.id item) (GameStateFromDb.players item) s h Hw) as Hw1.
  pose proof (insert_players_lookup (GameStateFromDb.id item) (GameStateFromDb.players item)
                (StorageState.players s) h) as Hlk.
  pose proof (insert_players_gcells (GameStateFromDb.id item) (GameStateFromDb.players item)
                (StorageState.players s) h) as Hg.
  simpl. destruct (StorageState.insert_players _ _ _ _) as [ps h1]. simpl in *.
  apply IH; [done | done | | by apply (wf_insert_game (StorageState.mk _ _ _)) |].
  - intros it Hit. simpl. rewrite lookup_insert_ne; [apply Hfree; set_solver|].
    intros Heq. apply Hnotin. rewrite Heq. by apply list_elem_of_fmap_2.
  - intros pid l p gid Hl Hp Hgid. simpl in *.
    destruct (Hlk pid l p (wf_heap _ _ Hw) (wf_players _ _ Hw) Hl Hp)
      as [[Hin ->]|(Hnin & Hl0 & Hp0)].
    + simpl in Hgid. simplify_eq. exists (Heap.next h1), (GameState.mk (GameStateFromDb.players item) false).
      by rewrite !lookup_insert_eq.
    + destruct (Ha pid l p gid Hl0 Hp0 Hgid) as (lg & gs & Hlg & Hgs & Hm).
      assert (Hne : GameStateFromDb.id item <> gid).
      { intros <-. rewrite Hfree in Hlg by set_solver. discriminate. }
      exists lg, gs. rewrite lookup_insert_ne by done. split; [done|].
      rewrite lookup_insert_ne; [by rewrite Hg|].
      apply not_eq_sym, (heap_ok_gcell_ne h1); [apply Hw1 | rewrite Hg; eauto].
Qed.

(** ** Preservation of [wf] by the writes of the handle and the guards *)

(** Dropping an index entry ([games.remove(&id)]). *)
Lemma wf_delete_game s h gid :
  wf s h ->
  wf (StorageState.mk (StorageState.players s) (delete gid (StorageState.games s))
        (StorageState.game_num_players s)) h.
Proof.
  intros [Hh Hp Hpi Hg Hi Hc Hn Hlb].
  split; simpl; auto; try (intros gid' l gs [_ Hl]%lookup_delete_Some; by eauto).
  - intros gid' l [_ Hl]%lookup_delete_Some. eauto.
  - intros a b l [_ Ha]%lookup_delete_Some [_ Hb]%lookup_delete_Some. eauto.
Qed.

(** A write through a player guard touches no game. *)
Lemma wf_modify_player s h f l :
  wf s h -> wf s (Heap.modify_player f l h).
Proof.
  intros [Hh Hp Hpi Hg Hi Hc Hn Hlb]. split; simpl; auto with flo.
  intros pid l' Hl'. rewrite lookup_alter_is_Some. eauto.
Qed.

(** A write through the guard of the indexed game [gid], together with the
    matching update [c] of its cached count. *)
Lemma wf_modify_game s h f c gid l gs :
  wf s h ->
  StorageState.games s !! gid = Some l -> Heap.gcells h !! l = Some gs ->
  NoDup (GameState.players (f gs)) -> vec_len (GameState.players (f gs)) <= vec_max_len ->
  c (vec_len (GameState.players gs)) = vec_len (GameState.players (f gs)) ->
  wf (StorageState.mk (StorageState.players s) (StorageState.games s)
        (alter c gid (StorageState.game_num_players s)))
     (Heap.modify_game f l h).
Proof.
  intros [Hh Hp Hpi Hg Hi Hc Hn Hlb] Hl Hgs Hnd Hlen Hcount. split; simpl; auto with flo.
  - intros gid' l' Hl'. rewrite lookup_alter_is_Some. eauto.
  - intros gid' l' gs' Hl' Hgs'. rewrite lookup_alter_Some in Hgs'.
    destruct Hgs' as [(<- & gs0 & Hgs0 & ->)|(Hne & Hgs')].
    + rewrite (Hi gid' gid l Hl' Hl), lookup_alter_eq, (Hc gid l gs0 Hl Hgs0).
      simplify_eq. simpl. by rewrite Hcount.
    + rewrite lookup_alter_ne; [eauto|]. intros <-. apply Hne. congruence.
  - intros gid' l' gs' Hl' Hgs'. rewrite lookup_alter_Some in Hgs'.
    destruct Hgs' as [(<- & gs0 & Hgs0 & ->)|(Hne & Hgs')]; [congruence | eauto].
  - intros gid' l' gs' Hl' Hgs'. rewrite lookup_alter_Some in Hgs'.
    destruct Hgs' as [(<- & gs0 & Hgs0 & ->)|(Hne & Hgs')]; [congruence | eauto].
Qed.

Lemma attached_empty h : attached (StorageState.mk ∅ ∅ ∅) h.
Proof. intros pid l p gid Hl. simpl in Hl. by rewrite lookup_empty in Hl. Qed.

(** ** Start-up *)

(** C15: [Storage::init] on a successful load of the active games (no game
    listed twice, no player listed twice in a game) returns a store that
    is well formed and in which every player's [game_id] names an indexed
    game that lists the player. *)
Theorem init_wf_attached {E E'} (from : E -> E') (data : list GameStateFromDb.t) :
  Forall (fun it => NoDup (GameStateFromDb.players it) /\
                    vec_len (GameStateFromDb.players it) <= vec_max_len) data ->
  NoDup (GameStateFromDb.id <$> data) ->
  match Storage.init from (Ok data) with
  | Ok w => store_wf w /\ attached (Store.index w) (Store.heap w)
  | Err _ => False
  end.
Proof.
  intros Hnd Hids. unfold Storage.init, StorageState.new.
  pose proof (new_loop_wf data _ _ Hnd (wf_empty _ heap_ok_empty)) as Hw.
  pose proof (new_loop_attached data (StorageState.mk ∅ ∅ ∅) Heap.empty Hnd Hids
                ltac:(intros; simpl; by rewrite lookup_empty) (wf_empty _ heap_ok_empty)
                (attached_empty _)) as Ha.
  destruct (StorageState.new_loop _ _ _). by split.
Qed.

(** ** The start-up load of the specification's example *)

(** The start-up load of the specification's example: game 7 with
    players 1 and 2 (players at locations 1 and 2, the game at 3). *)
Definition seed_data : list GameStateFromDb.t := [GameStateFromDb.mk 7 [1; 2]].

Definition seed_store : Store.t :=
  match Storage.init (fun e : unit => e) (Ok seed_data) with
  | Ok w => w
  | Err _ => Store.mk (StorageState.mk ∅ ∅ ∅) Heap.empty
  end.

(** The start-up hypotheses on a concrete load: no duplicate member, a
    member list within the capacity of a [Vec<i32>]. *)
Ltac seed_data_ok :=
  apply (bool_decide_unpack _); vm_compute; reflexivity.

Lemma init_wf_attached_witness :
  Forall (fun it => NoDup (GameStateFromDb.players it) /\
                    vec_len (GameStateFromDb.players it) <= vec_max_len) seed_data /\
  NoDup (GameStateFromDb.id <$> seed_data) /\
  store_wf seed_store /\ attached (Store.index seed_store) (Store.heap seed_store).
Proof.
  assert (Hd : Forall (fun it => NoDup (GameStateFromDb.players it) /\
                    vec_len (GameStateFromDb.players it) <= vec_max_len) seed_data) by seed_data_ok.
  assert (Hi : NoDup (GameStateFromDb.id <$> seed_data)) by seed_data_ok.
  split_and!; [exact Hd | exact Hi | exact (proj1 (init_wf_attached (fun e : unit => e) seed_data Hd Hi))
              | exact (proj2 (init_wf_attached (fun e : unit => e) seed_data Hd Hi))].
Defined.
