(* ===== verification/Handle.v ===== *)
(** The operations of [StorageHandle] and of the two guards
    ([LockedPlayerState], [LockedGameState]) of
    crates/lobby/src/state.rs, lines 97-230, as state transformers on the
    shared [Store.t].  Each operation runs its critical sections to
    completion: this is the behaviour of a caller that is not interleaved
    with others (the interleavings are in [Concurrency]).  Awaiting an
    entity mutex has no effect on the data and is left out here.

    A guard records the id it was leased for and the location of the cell
    it holds; its [storage_state] back-reference is the shared store the
    operations take.  The section ends with the sequential executions
    [step] of the store by callers that keep the contract of the
    specification, and the theorems on each operation. *)

From S2P Require Import Prelude Records Index.

Local Open Scope Z_scope.

Module LockedPlayerState.
(** [pub struct LockedPlayerState { id: i32, guard: OwnedMutexGuard<PlayerState> }]
    and its accessor [fn id(&self)]. *)
Record t := mk { id : Z; guard : loc }.

(** [fn joined_game_id(&self) -> Option<i32>]. *)
Definition joined_game_id (g : t) (w : Store.t) : option Z :=
  Heap.pcells (Store.heap w) !! guard g ≫= PlayerState.game_id.

(** [fn join_game(&mut self, game_id: i32)]. *)
Definition join_game (g : t) (game_id : Z) (w : Store.t) : Store.t :=
  Store.mk (Store.index w)
    (Heap.modify_player (PlayerState.set_game_id (Some game_id)) (guard g) (Store.heap w)).

(** [fn leave_game(&mut self)]. *)
Definition leave_game (g : t) (w : Store.t) : Store.t :=
  Store.mk (Store.index w)
    (Heap.modify_player (PlayerState.set_game_id None) (guard g) (Store.heap w)).
End LockedPlayerState.

Module LockedGameState.
(** [pub struct LockedGameState { id: i32, guard: OwnedMutexGuard<GameState>,
    storage_state: Arc<RwLock<StorageState>> }] and [fn id(&self)]. *)
Record t := mk { id : Z; guard : loc }.

(** [fn players(&self) -> &[i32]]. *)
Definition players (g : t) (w : Store.t) : list Z :=
  from_option GameState.players [] (Heap.gcells (Store.heap w) !! guard g).

(** [fn has_player(&self, player_id: i32) -> bool]. *)
Definition has_player (g : t) (player_id : Z) (w : Store.t) : bool :=
  vec_contains (players g w) player_id.

(** [fn add_player(&mut self, player_id: i32)]: push when absent, then
    [game_num_players.entry(self.id).and_modify(|v| *v = *v + 1)]. *)
Definition add_player (g : t) (player_id : Z) (w : Store.t) : Store.t :=
  if negb (vec_contains (players g w) player_id) then
    let h := Heap.modify_game
               (fun gs => GameState.set_players (vec_push (GameState.players gs) player_id) gs)
               (guard g) (Store.heap w) in
    let s := Store.index w in
    Store.mk (StorageState.mk (StorageState.players s) (StorageState.games s)
                (alter (fun v => (v +ᵤ 1)%flo) (id g) (StorageState.game_num_players s))) h
  else w.

(** [fn remove_player(&mut self, player_id: i32)]: [retain], then
    [and_modify(|v| *v = *v - 1)] whether or not anything was removed. *)
Definition remove_player (g : t) (player_id : Z) (w : Store.t) : Store.t :=
  let h := Heap.modify_game
             (fun gs => GameState.set_players (vec_retain_ne (GameState.players gs) player_id) gs)
             (guard g) (Store.heap w) in
  let s := Store.index w in
  Store.mk (StorageState.mk (StorageState.players s) (StorageState.games s)
              (alter (fun v => (v -ᵤ 1)%flo) (id g) (StorageState.game_num_players s))) h.

(** [fn close(&mut self)]. *)
Definition close (g : t) (w : Store.t) : Store.t :=
  Store.mk (Store.index w) (Heap.modify_game GameState.set_closed (guard g) (Store.heap w)).
End LockedGameState.

Module StorageHandle.
(** [async fn register_game(&self, id: i32, players: &[i32])]; the
    boolean is the [tracing::warn!] of an overwritten id. *)
Definition register_game (id : Z) (ps : list Z) (w : Store.t) : Store.t * bool :=
  let s := Store.index w in
  let warned := bool_decide (is_Some (StorageState.games s !! id)) in
  let gnp := <[id := vec_len ps]> (StorageState.game_num_players s) in
  let '(l, h) := Heap.alloc_game (GameState.new ps) (Store.heap w) in
  (Store.mk (StorageState.mk (StorageState.players s) (<[id := l]> (StorageState.games s)) gnp) h,
   warned).

(** [async fn lock_player_state(&self, id: i32) -> LockedPlayerState]:
    [entry(id).or_insert_with(|| Arc::new(Mutex::new(PlayerState::default())))]. *)
Definition lock_player_state (id : Z) (w : Store.t) : Store.t * LockedPlayerState.t :=
  let s := Store.index w in
  match StorageState.players s !! id with
  | Some l => (w, LockedPlayerState.mk id l)
  | None =>
      let '(l, h) := Heap.alloc_player PlayerState.default (Store.heap w) in
      (Store.mk (StorageState.mk (<[id := l]> (StorageState.players s))
                   (StorageState.games s) (StorageState.game_num_players s)) h,
       LockedPlayerState.mk id l)
  end.

(** [async fn lock_game_state(&self, id: i32) -> Option<LockedGameState>]:
    a closed game is purged from [games] and reported as absent.  A
    location with no cell cannot come out of the index (every [Arc] in
    it is alive); the model answers [None] there. *)
Definition lock_game_state (id : Z) (w : Store.t) : Store.t * option LockedGameState.t :=
  let s := Store.index w in
  match StorageState.games s !! id with
  | None => (w, None)
  | Some l =>
      match Heap.gcells (Store.heap w) !! l with
      | None => (w, None)
      | Some gs =>
          if GameState.closed gs then
            (Store.mk (StorageState.mk (StorageState.players s) (delete id (StorageState.games s))
                         (StorageState.game_num_players s)) (Store.heap w), None)
          else (w, Some (LockedGameState.mk id l))
      end
  end.

(** One iteration of [fetch_num_players]: a cached count overwrites the
    entry's [num_players] through [as i32]. *)
Definition fetch_one (w : Store.t) (game : GameEntry.t) : GameEntry.t :=
  match StorageState.game_num_players (Store.index w) !! GameEntry.id game with
  | Some num => GameEntry.mk (GameEntry.id game) (as_i32 num)
  | None => game
  end.

(** [fn fetch_num_players(&self, games: &mut [GameEntry])]. *)
Definition fetch_num_players (games : list GameEntry.t) (w : Store.t) : list GameEntry.t :=
  map (fetch_one w) games.
End StorageHandle.

(** ** Guards that still own their index entry *)

(** A game guard is current when the index still maps its id to the cell
    it holds: [register_game] on the same id orphans it. *)
Definition game_current (g : LockedGameState.t) (w : Store.t) : Prop :=
  StorageState.games (Store.index w) !! LockedGameState.id g = Some (LockedGameState.guard g).

Definition player_current (g : LockedPlayerState.t) (w : Store.t) : Prop :=
  StorageState.players (Store.index w) !! LockedPlayerState.id g = Some (LockedPlayerState.guard g).

Lemma game_current_cell g w :
  store_wf w -> game_current g w ->
  exists gs, Heap.gcells (Store.heap w) !! LockedGameState.guard g = Some gs /\
             LockedGameState.players g w = GameState.players gs.
Proof.
  intros Hw Hc. destruct (wf_games _ _ Hw _ _ Hc) as [gs Hgs].
  exists gs. unfold LockedGameState.players. by rewrite Hgs.
Qed.

(** ** Preservation of the invariant, operation by operation *)

Lemma register_game_wf id ps w :
  NoDup ps -> vec_len ps <= vec_max_len -> store_wf w ->
  store_wf (StorageHandle.register_game id ps w).1.
Proof. intros. by apply wf_insert_game. Qed.

Lemma lock_player_state_wf id w :
  store_wf w -> store_wf (StorageHandle.lock_player_state id w).1.
Proof.
  intros Hw. unfold StorageHandle.lock_player_state.
  destruct (StorageState.players _ !! id); [done|]. by apply wf_insert_player.
Qed.

Lemma lock_game_state_wf id w :
  store_wf w -> store_wf (StorageHandle.lock_game_state id w).1.
Proof.
  intros Hw. unfold StorageHandle.lock_game_state.
  destruct (StorageState.games _ !! id); [|done].
  destruct (Heap.gcells _ !! _) as [[ps []]|]; [by apply wf_delete_game | done..].
Qed.

Lemma join_game_wf g gid w : store_wf w -> store_wf (LockedPlayerState.join_game g gid w).
Proof. apply wf_modify_player. Qed.

Lemma leave_game_wf g w : store_wf w -> store_wf (LockedPlayerState.leave_game g w).
Proof. apply wf_modify_player. Qed.

Lemma add_player_wf g p w :
  store_wf w -> game_current g w ->
  vec_len (LockedGameState.players g w) < vec_max_len ->
  store_wf (LockedGameState.add_player g p w).
Proof.
  intros Hw Hc Hlen. destruct (game_current_cell g w Hw Hc) as (gs & Hgs & Hps).
  unfold LockedGameState.add_player. rewrite Hps in Hlen |- *.
  destruct (vec_contains _ p) eqn:Hin; [done|]. flo_bool.
  eapply wf_modify_game; [exact Hw | exact Hc | exact Hgs | ..];
    cbn -[usize_add usize_sub vec_len vec_push vec_retain_ne].
  - apply NoDup_vec_push; [done | exact (wf_nodup _ _ Hw _ _ _ Hc Hgs)].
  - unfold vec_len in *. rewrite length_vec_push. lia.
  - rewrite vec_len_succ_usize by done. unfold vec_len. rewrite length_vec_push. lia.
Qed.

Lemma remove_player_wf g p w :
  store_wf w -> game_current g w -> LockedGameState.has_player g p w = true ->
  store_wf (LockedGameState.remove_player g p w).
Proof.
  intros Hw Hc Hin. destruct (game_current_cell g w Hw Hc) as (gs & Hgs & Hps).
  unfold LockedGameState.has_player in Hin. rewrite Hps in Hin. flo_bool.
  pose proof (wf_nodup _ _ Hw _ _ _ Hc Hgs) as Hnd.
  pose proof (wf_len _ _ Hw _ _ _ Hc Hgs) as Hlen.
  pose proof (length_vec_retain_ne_present _ _ Hnd Hin) as Hl.
  eapply wf_modify_game; [exact Hw | exact Hc | exact Hgs | ..];
    cbn -[usize_add usize_sub vec_len vec_push vec_retain_ne].
  - by apply NoDup_vec_retain_ne.
  - unfold vec_len in *. lia.
  - rewrite vec_len_pred_usize; [unfold vec_len; lia | lia | done].
Qed.

Lemma close_wf g w :
  store_wf w -> game_current g w -> store_wf (LockedGameState.close g w).
Proof.
  intros Hw Hc. destruct (game_current_cell g w Hw Hc) as (gs & Hgs & _).
  pose proof (wf_modify_game _ _ GameState.set_closed (fun v => v) _ _ _ Hw Hc Hgs
                (wf_nodup _ _ Hw _ _ _ Hc Hgs) (wf_len _ _ Hw _ _ _ Hc Hgs) eq_refl) as H.
  rewrite alter_id in H by (intros; done). destruct w as [[] h]. exact H.
Qed.

(** ** Sequential executions under the callers' contract *)

(** One operation of a caller that keeps the contract of the
    specification: registered member lists have no duplicate, a member is
    removed only after [has_player] said it is one, a [push] stays within
    the capacity of a [Vec<i32>], and the guards used are current. *)
Inductive step : Store.t -> Store.t -> Prop :=
| step_register id ps w :
    NoDup ps -> vec_len ps <= vec_max_len -> step w (StorageHandle.register_game id ps w).1
| step_lock_player id w : step w (StorageHandle.lock_player_state id w).1
| step_lock_game id w : step w (StorageHandle.lock_game_state id w).1
| step_join g gid w : player_current g w -> step w (LockedPlayerState.join_game g gid w)
| step_leave g w : player_current g w -> step w (LockedPlayerState.leave_game g w)
| step_add g p w :
    game_current g w -> vec_len (LockedGameState.players g w) < vec_max_len ->
    step w (LockedGameState.add_player g p w)
| step_remove g p w :
    game_current g w -> LockedGameState.has_player g p w = true ->
    step w (LockedGameState.remove_player g p w)
| step_close g w : game_current g w -> step w (LockedGameState.close g w).

Lemma step_wf w w' : step w w' -> store_wf w -> store_wf w'.
Proof.
  destruct 1; intros Hw;
    eauto using register_game_wf, lock_player_state_wf, lock_game_state_wf, join_game_wf,
      leave_game_wf, add_player_wf, remove_player_wf, close_wf.
Qed.

Lemma reachable_wf w w' : store_wf w -> rtc step w w' -> store_wf w'.
Proof. intros Hw Hr. induction Hr; eauto using step_wf. Qed.

(** The store built by a successful start-up load is well formed. *)
Lemma init_store_wf {E E'} (from : E -> E') data w :
  Forall (fun it => NoDup (GameStateFromDb.players it) /\
                    vec_len (GameStateFromDb.players it) <= vec_max_len) data ->
  Storage.init from (Ok data) = Ok w -> store_wf w.
Proof.
  intros Hnd. unfold Storage.init, StorageState.new.
  pose proof (new_loop_wf data _ _ Hnd (wf_empty _ heap_ok_empty)) as Hw.
  destruct (StorageState.new_loop _ _ _). intros [= <-]. exact Hw.
Qed.

(** C1: count-cache consistency.  In every state reached from a
    successful start-up load by callers that keep the contract, the cached
    count of every indexed game equals the length of its member list. *)
Theorem count_cache_consistent {E E'} (from : E -> E') data w w' gid l gs :
  Forall (fun it => NoDup (GameStateFromDb.players it) /\
                    vec_len (GameStateFromDb.players it) <= vec_max_len) data ->
  Storage.init from (Ok data) = Ok w -> rtc step w w' ->
  StorageState.games (Store.index w') !! gid = Some l ->
  Heap.gcells (Store.heap w') !! l = Some gs ->
  StorageState.game_num_players (Store.index w') !! gid = Some (vec_len (GameState.players gs)).
Proof.
  intros Hnd Hinit Hr. apply (wf_count _ _ (reachable_wf w w' (init_store_wf from data w Hnd Hinit) Hr)).
Qed.

(** ** Reading a cell after a write through its guard *)

Lemma players_modify_game g f s h :
  LockedGameState.players g (Store.mk s (Heap.modify_game f (LockedGameState.guard g) h)) =
  from_option (fun gs => GameState.players (f gs)) [] (Heap.gcells h !! LockedGameState.guard g).
Proof.
  unfold LockedGameState.players. simpl. rewrite lookup_alter_eq.
  by destruct (Heap.gcells h !! _).
Qed.

Lemma players_of_cell g w gs :
  Heap.gcells (Store.heap w) !! LockedGameState.guard g = Some gs ->
  LockedGameState.players g w = GameState.players gs.
Proof. intros Hgs. unfold LockedGameState.players. by rewrite Hgs. Qed.

Lemma counts_alter_current g w c :
  store_wf w -> game_current g w ->
  alter c (LockedGameState.id g) (StorageState.game_num_players (Store.index w)) !! LockedGameState.id g =
  Some (c (vec_len (LockedGameState.players g w))).
Proof.
  intros Hw Hc. destruct (game_current_cell g w Hw Hc) as (gs & Hgs & ->).
  by rewrite lookup_alter_eq, (wf_count _ _ Hw _ _ _ Hc Hgs).
Qed.

(** ** Witnesses *)

Lemma count_cache_consistent_witness :
  Storage.init (fun e : unit => e) (Ok seed_data) = Ok seed_store /\
  StorageState.game_num_players
    (Store.index (LockedGameState.add_player (LockedGameState.mk 7 3) 5 seed_store)) !! 7 = Some 3.
Proof.
  split; [reflexivity|].
  apply (count_cache_consistent (fun e : unit => e) seed_data seed_store _ 7 3 (GameState.mk [1; 2; 5] false)).
  - seed_data_ok.
  - reflexivity.
  - apply rtc_once, step_add; [reflexivity | vm_compute; reflexivity].
  - reflexivity.
  - reflexivity.
Defined.

(** ** Leasing a game *)

(** C5: a lease on a game is only ever handed out for a record that is not
    closed: when [lock_game_state] returns a guard, the store is unchanged,
    the guard carries the requested id, it is current, and the cell it
    holds is not closed. *)
Theorem lock_game_state_active id w w' g :
  StorageHandle.lock_game_state id w = (w', Some g) ->
  w' = w /\ LockedGameState.id g = id /\ game_current g w /\
  exists gs, Heap.gcells (Store.heap w) !! LockedGameState.guard g = Some gs /\
             GameState.closed gs = false.
Proof.
  unfold StorageHandle.lock_game_state, game_current.
  destruct (StorageState.games _ !! id) as [l|] eqn:Hl; [|done].
  destruct (Heap.gcells _ !! l) as [gs|] eqn:Hgs; [|done].
  destruct (GameState.closed gs) eqn:Hcl; intros [= <- <-]; simpl.
  split_and!; eauto.
Qed.

(** C18: [lock_game_state] reports "not found" exactly when the id is not
    indexed or its game is closed. *)
Theorem lock_game_state_none id w :
  store_wf w ->
  (StorageHandle.lock_game_state id w).2 = None <->
  StorageState.games (Store.index w) !! id = None \/
  exists l gs, StorageState.games (Store.index w) !! id = Some l /\
               Heap.gcells (Store.heap w) !! l = Some gs /\ GameState.closed gs = true.
Proof.
  intros Hw. unfold StorageHandle.lock_game_state.
  destruct (StorageState.games _ !! id) as [l|] eqn:Hl; [|naive_solver].
  destruct (wf_games _ _ Hw _ _ Hl) as [gs Hgs]. rewrite Hgs.
  destruct (GameState.closed gs) eqn:Hcl; simpl; [naive_solver|].
  split; [done|]. intros [|(l' & gs' & [= <-] & Hgs' & Hcl')]; congruence.
Qed.

(** C6: lazy closure.  After [close] through a current guard, the next
    [lock_game_state] on the id reports "not found" and removes the id
    from [games], every later one reports "not found" without change, and
    the cached count of the closed game stays in [game_num_players]. *)
Theorem close_then_lock_none g w :
  store_wf w -> game_current g w ->
  let w1 := LockedGameState.close g w in
  let w2 := (StorageHandle.lock_game_state (LockedGameState.id g) w1).1 in
  (StorageHandle.lock_game_state (LockedGameState.id g) w1).2 = None /\
  StorageState.games (Store.index w2) !! LockedGameState.id g = None /\
  StorageState.game_num_players (Store.index w2) !! LockedGameState.id g =
    Some (vec_len (LockedGameState.players g w)) /\
  StorageHandle.lock_game_state (LockedGameState.id g) w2 = (w2, None).
Proof.
  intros Hw Hc. destruct (game_current_cell g w Hw Hc) as (gs & Hgs & Hps).
  pose proof (wf_count _ _ Hw _ _ _ Hc Hgs) as Hcount.
  unfold StorageHandle.lock_game_state, LockedGameState.close. simpl.
  unfold game_current in Hc. rewrite Hc, lookup_alter_eq, Hgs. simpl.
  rewrite lookup_delete_eq, Hps. by split_and!.
Qed.

(** ** Membership through a game guard *)

(** C9: [add_player] appends a player that is not yet a member and leaves
    the member list alone otherwise, and on either branch the cached count
    of the guard's game is the length of the resulting list. *)
Theorem add_player_spec g p w :
  store_wf w -> game_current g w -> vec_len (LockedGameState.players g w) < vec_max_len ->
  LockedGameState.players g (LockedGameState.add_player g p w) =
    (if LockedGameState.has_player g p w then LockedGameState.players g w
     else vec_push (LockedGameState.players g w) p) /\
  StorageState.game_num_players (Store.index (LockedGameState.add_player g p w))
    !! LockedGameState.id g =
    Some (vec_len (LockedGameState.players g (LockedGameState.add_player g p w))).
Proof.
  intros Hw Hc Hlen. destruct (game_current_cell g w Hw Hc) as (gs & Hgs & Hps).
  pose proof (counts_alter_current g w (fun v => (v +ᵤ 1)%flo) Hw Hc) as Hcnt.
  unfold LockedGameState.has_player, LockedGameState.add_player.
  destruct (vec_contains _ p) eqn:Hin; simpl.
  - split; [done|]. rewrite Hps. exact (wf_count _ _ Hw _ _ _ Hc Hgs).
  - rewrite players_modify_game, Hgs. simpl. rewrite <- Hps. split; [done|].
    rewrite Hcnt, vec_len_succ_usize by done. unfold vec_len. rewrite length_vec_push. f_equal. lia.
Qed.

(** C17: [add_player] is idempotent: adding the same player a second time
    changes nothing, neither the member list nor the cached count. *)
Theorem add_player_idempotent g p w :
  is_Some (Heap.gcells (Store.heap w) !! LockedGameState.guard g) ->
  LockedGameState.add_player g p (LockedGameState.add_player g p w) =
  LockedGameState.add_player g p w.
Proof.
  intros [gs Hgs].
  assert (Hmem : forall w', vec_contains (LockedGameState.players g w') p = true ->
                            LockedGameState.add_player g p w' = w').
  { intros w' Hw'. unfold LockedGameState.add_player. by rewrite Hw'. }
  apply Hmem. destruct (vec_contains (LockedGameState.players g w) p) eqn:Hin.
  - by rewrite Hmem.
  - unfold LockedGameState.add_player. rewrite Hin. simpl.
    rewrite players_modify_game, Hgs. simpl.
    apply vec_contains_true, elem_of_vec_push. by right.
Qed.

(** C10: [remove_player] of a member removes it, shortens the list by one
    and keeps the cached count equal to the new length. *)
Theorem remove_player_member g p w :
  store_wf w -> game_current g w -> LockedGameState.has_player g p w = true ->
  LockedGameState.players g (LockedGameState.remove_player g p w) =
    vec_retain_ne (LockedGameState.players g w) p /\
  (p ∉ LockedGameState.players g (LockedGameState.remove_player g p w)) /\
  S (length (LockedGameState.players g (LockedGameState.remove_player g p w))) =
    length (LockedGameState.players g w) /\
  StorageState.game_num_players (Store.index (LockedGameState.remove_player g p w))
    !! LockedGameState.id g =
    Some (vec_len (LockedGameState.players g (LockedGameState.remove_player g p w))).
Proof.
  intros Hw Hc Hin. destruct (game_current_cell g w Hw Hc) as (gs & Hgs & Hps).
  pose proof (counts_alter_current g w (fun v => (v -ᵤ 1)%flo) Hw Hc) as Hcnt.
  unfold LockedGameState.has_player in Hin. rewrite Hps in Hin. flo_bool.
  pose proof (length_vec_retain_ne_present _ _ (wf_nodup _ _ Hw _ _ _ Hc Hgs) Hin) as Hl.
  unfold LockedGameState.remove_player. rewrite players_modify_game, Hgs. simpl.
  rewrite <- Hps. split_and!; [done | rewrite elem_of_vec_retain_ne; tauto | by rewrite Hps |].
  rewrite Hcnt, Hps, vec_len_pred_usize; [| lia | exact (wf_len _ _ Hw _ _ _ Hc Hgs)].
  unfold vec_len. f_equal. lia.
Qed.

(** C14: [remove_player] of a player that is not a member leaves the member
    list unchanged but still decrements the cached count, which then no
    longer equals the length of the list. *)
Theorem remove_player_absent_drifts g p w :
  store_wf w -> game_current g w -> LockedGameState.has_player g p w = false ->
  LockedGameState.players g (LockedGameState.remove_player g p w) = LockedGameState.players g w /\
  StorageState.game_num_players (Store.index (LockedGameState.remove_player g p w))
    !! LockedGameState.id g = Some (vec_len (LockedGameState.players g w) -ᵤ 1)%flo /\
  StorageState.game_num_players (Store.index (LockedGameState.remove_player g p w))
    !! LockedGameState.id g <>
    Some (vec_len (LockedGameState.players g (LockedGameState.remove_player g p w))).
Proof.
  intros Hw Hc Hin. destruct (game_current_cell g w Hw Hc) as (gs & Hgs & Hps).
  pose proof (counts_alter_current g w (fun v => (v -ᵤ 1)%flo) Hw Hc) as Hcnt.
  pose proof (wf_len _ _ Hw _ _ _ Hc Hgs) as Hlen.
  unfold LockedGameState.has_player in Hin. rewrite Hps in Hin. flo_bool.
  unfold LockedGameState.remove_player. rewrite players_modify_game, Hgs. simpl.
  rewrite vec_retain_ne_absent, <- Hps by done. split_and!; [done | exact Hcnt |].
  rewrite Hcnt. intros [= Heq]. revert Heq. apply usize_sub_1_ne.
  pose proof vec_max_len_bound. rewrite Hps. unfold in_usize, vec_len in *. lia.
Qed.

(** C20: the drift of [remove_player_absent_drifts] at an empty game wraps the [usize] count around
    to 2^64 - 1, which [fetch_num_players] then reports as [-1]. *)
Theorem remove_from_empty_wraps g p w n :
  store_wf w -> game_current g w -> LockedGameState.players g w = [] ->
  StorageState.game_num_players (Store.index (LockedGameState.remove_player g p w))
    !! LockedGameState.id g = Some (usize_modulus - 1) /\
  StorageHandle.fetch_num_players [GameEntry.mk (LockedGameState.id g) n]
    (LockedGameState.remove_player g p w) = [GameEntry.mk (LockedGameState.id g) (-1)].
Proof.
  intros Hw Hc Hnil.
  pose proof (counts_alter_current g w (fun v => (v -ᵤ 1)%flo) Hw Hc) as Hcnt.
  rewrite Hnil in Hcnt. simpl in Hcnt.
  unfold StorageHandle.fetch_num_players, StorageHandle.fetch_one. simpl.
  rewrite Hcnt. by split.
Qed.

(** ** Registration *)

(** C19: [register_game] warns exactly when the id was indexed, sets the
    cached count to the length of the new list, makes the id lease a fresh
    record holding that list, and leaves the players and every other game
    id as they were. *)
Theorem register_game_spec id ps w :
  store_wf w ->
  let r := StorageHandle.register_game id ps w in
  r.2 = bool_decide (is_Some (StorageState.games (Store.index w) !! id)) /\
  StorageState.game_num_players (Store.index r.1) !! id = Some (vec_len ps) /\
  (exists g, StorageHandle.lock_game_state id r.1 = (r.1, Some g) /\
             LockedGameState.players g r.1 = ps /\
             Heap.gcells (Store.heap w) !! LockedGameState.guard g = None) /\
  (forall id', id' <> id ->
     StorageState.games (Store.index r.1) !! id' = StorageState.games (Store.index w) !! id' /\
     StorageState.game_num_players (Store.index r.1) !! id' =
       StorageState.game_num_players (Store.index w) !! id') /\
  StorageState.players (Store.index r.1) = StorageState.players (Store.index w).
Proof.
  intros Hw. simpl. split_and!; [done | by rewrite lookup_insert_eq | | |done].
  - exists (LockedGameState.mk id (Heap.next (Store.heap w))).
    unfold StorageHandle.lock_game_state, LockedGameState.players. simpl.
    rewrite !lookup_insert_eq. split_and!; [done | done | by apply heap_ok_next_gcell, Hw].
  - intros id' Hne. by rewrite !lookup_insert_ne by congruence.
Qed.

(** C11: registration orphans a held guard.  After [register_game] on the
    id of a current guard, the guard is no longer current, yet its
    [add_player] still increments [game_num_players] of that id, which now
    counts the new game: the count exceeds the new member list and the
    store is no longer well formed. *)
Theorem register_orphans_guard g ps p w :
  store_wf w -> game_current g w -> NoDup ps -> vec_len ps < vec_max_len ->
  LockedGameState.has_player g p w = false ->
  vec_len (LockedGameState.players g w) < vec_max_len ->
  let w1 := (StorageHandle.register_game (LockedGameState.id g) ps w).1 in
  ~ game_current g w1 /\
  StorageState.game_num_players (Store.index (LockedGameState.add_player g p w1))
    !! LockedGameState.id g = Some (vec_len ps + 1) /\
  ~ store_wf (LockedGameState.add_player g p w1).
Proof.
  intros Hw Hc Hnd Hlen Hin Hlg. cbv zeta.
  destruct (game_current_cell g w Hw Hc) as (gs & Hgs & Hps).
  pose proof (heap_ok_gcell_ne _ _ (wf_heap _ _ Hw) (mk_is_Some _ _ Hgs)) as Hne.
  assert (Hps1 : LockedGameState.players g (StorageHandle.register_game (LockedGameState.id g) ps w).1
                 = GameState.players gs).
  { apply players_of_cell. simpl. by rewrite lookup_insert_ne by congruence. }
  unfold LockedGameState.has_player in Hin. rewrite Hps in Hin.
  unfold LockedGameState.add_player. rewrite Hps1, Hin. simpl.
  unfold game_current. simpl. rewrite !lookup_insert_eq, lookup_alter_eq, lookup_insert_eq. simpl.
  rewrite vec_len_succ_usize by done. split_and!; [congruence | done |].
  intros Hw'.
  pose proof (wf_count _ _ Hw' (LockedGameState.id g) (Heap.next (Store.heap w)) (GameState.new ps)) as Hcnt.
  simpl in Hcnt. rewrite lookup_insert_eq, lookup_alter_eq, lookup_alter_ne, lookup_insert_eq,
    lookup_insert_eq in Hcnt by congruence.
  specialize (Hcnt eq_refl eq_refl). simpl in Hcnt. injection Hcnt. rewrite vec_len_succ_usize by done. lia.
Qed.

(** ** Player leases *)

(** C21: [lock_player_state] never fails: it returns a current guard for
    the requested id, on the existing record when there is one (the store
    unchanged) and on a fresh unattached record otherwise; games, counts
    and game records are untouched. *)
Theorem lock_player_state_spec id w :
  let r := StorageHandle.lock_player_state id w in
  LockedPlayerState.id r.2 = id /\ player_current r.2 r.1 /\
  StorageState.games (Store.index r.1) = StorageState.games (Store.index w) /\
  StorageState.game_num_players (Store.index r.1) = StorageState.game_num_players (Store.index w) /\
  Heap.gcells (Store.heap r.1) = Heap.gcells (Store.heap w) /\
  match StorageState.players (Store.index w) !! id with
  | Some l => r.1 = w /\ LockedPlayerState.guard r.2 = l
  | None => LockedPlayerState.joined_game_id r.2 r.1 = None
  end.
Proof.
  unfold StorageHandle.lock_player_state, player_current, LockedPlayerState.joined_game_id.
  destruct (StorageState.players _ !! id) as [l|] eqn:Hl; simpl; [done|].
  by rewrite !lookup_insert_eq.
Qed.

(** C23: [join_game] then [joined_game_id] reads the joined game back, and
    [leave_game] clears it; a player guard writes its own record only,
    never the index or a game record. *)
Theorem join_leave_game g gid w :
  is_Some (Heap.pcells (Store.heap w) !! LockedPlayerState.guard g) ->
  LockedPlayerState.joined_game_id g (LockedPlayerState.join_game g gid w) = Some gid /\
  LockedPlayerState.joined_game_id g
    (LockedPlayerState.leave_game g (LockedPlayerState.join_game g gid w)) = None /\
  Store.index (LockedPlayerState.join_game g gid w) = Store.index w /\
  Heap.gcells (Store.heap (LockedPlayerState.join_game g gid w)) = Heap.gcells (Store.heap w).
Proof.
  intros [ps Hps]. unfold LockedPlayerState.joined_game_id. simpl.
  by rewrite !lookup_alter_eq, Hps.
Qed.

(** ** Listing *)

(** C22: [fetch_num_players] keeps every entry's id, leaves an entry whose
    id has no cached count alone, and in a well-formed store reports the
    member count of every indexed game that fits in an [i32]. *)
Theorem fetch_num_players_spec games w :
  store_wf w ->
  Forall2 (fun e e' =>
    GameEntry.id e' = GameEntry.id e /\
    (StorageState.game_num_players (Store.index w) !! GameEntry.id e = None -> e' = e) /\
    (forall l gs, StorageState.games (Store.index w) !! GameEntry.id e = Some l ->
       Heap.gcells (Store.heap w) !! l = Some gs -> vec_len (GameState.players gs) < 2 ^ 31 ->
       GameEntry.num_players e' = vec_len (GameState.players gs)))
    games (StorageHandle.fetch_num_players games w).
Proof.
  intros Hw. unfold StorageHandle.fetch_num_players.
  induction games as [|e es IH]; constructor; [|done].
  unfold StorageHandle.fetch_one.
  destruct (StorageState.game_num_players _ !! GameEntry.id e) as [num|] eqn:Hn;
    split_and!; try done.
  all: intros l gs Hl Hgs Hsmall; rewrite (wf_count _ _ Hw _ _ _ Hl Hgs) in Hn; simplify_eq.
  apply as_i32_small. unfold vec_len in *. lia.
Qed.

(** ** Witnesses on the specification's example store *)

Lemma seed_store_wf : store_wf seed_store.
Proof. apply (init_store_wf (fun e : unit => e) seed_data); [seed_data_ok | reflexivity]. Qed.

(** The guard on game 7 of [seed_store] (its cell is at location 3). *)
Definition seed_guard : LockedGameState.t := LockedGameState.mk 7 3.

Lemma seed_guard_current : game_current seed_guard seed_store.
Proof. reflexivity. Qed.

(** A machine-integer bound on a concrete list, by evaluation. *)
Ltac vec_bound := vm_compute; first [reflexivity | intros ?; discriminate].

Lemma lock_game_state_active_witness :
  StorageHandle.lock_game_state 7 seed_store = (seed_store, Some seed_guard) /\
  LockedGameState.id seed_guard = 7 /\ game_current seed_guard seed_store.
Proof.
  assert (H : StorageHandle.lock_game_state 7 seed_store = (seed_store, Some seed_guard))
    by reflexivity.
  destruct (lock_game_state_active 7 seed_store seed_store seed_guard H) as (_ & Hid & Hc & _).
  split_and!; [exact H | exact Hid | exact Hc].
Defined.

Lemma lock_game_state_none_witness :
  store_wf (LockedGameState.close seed_guard seed_store) /\
  exists l gs, StorageState.games (Store.index (LockedGameState.close seed_guard seed_store)) !! 7 = Some l /\
    Heap.gcells (Store.heap (LockedGameState.close seed_guard seed_store)) !! l = Some gs /\
    GameState.closed gs = true.
Proof.
  assert (Hw : store_wf (LockedGameState.close seed_guard seed_store))
    by exact (close_wf _ _ seed_store_wf seed_guard_current).
  split; [exact Hw|].
  destruct (proj1 (lock_game_state_none 7 _ Hw) eq_refl) as [H|H]; [discriminate H | exact H].
Defined.

Lemma close_then_lock_none_witness :
  store_wf seed_store /\ game_current seed_guard seed_store /\
  StorageState.game_num_players
    (Store.index (StorageHandle.lock_game_state 7 (LockedGameState.close seed_guard seed_store)).1)
    !! 7 = Some 2.
Proof.
  split_and!; [exact seed_store_wf | exact seed_guard_current |].
  exact (proj1 (proj2 (proj2 (close_then_lock_none seed_guard seed_store seed_store_wf
                                 seed_guard_current)))).
Defined.

Lemma add_player_spec_witness :
  LockedGameState.players seed_guard (LockedGameState.add_player seed_guard 5 seed_store) = [1; 2; 5] /\
  StorageState.game_num_players
    (Store.index (LockedGameState.add_player seed_guard 5 seed_store)) !! 7 = Some 3.
Proof.
  destruct (add_player_spec seed_guard 5 seed_store seed_store_wf seed_guard_current
              ltac:(vec_bound)) as [H1 H2].
  split; [exact H1 | exact (eq_trans H2 (f_equal (fun l => Some (vec_len l)) H1))].
Defined.

Lemma add_player_idempotent_witness :
  LockedGameState.add_player seed_guard 5 (LockedGameState.add_player seed_guard 5 seed_store) =
  LockedGameState.add_player seed_guard 5 seed_store.
Proof. apply add_player_idempotent. exists (GameState.mk [1; 2] false). reflexivity. Defined.

Lemma remove_player_member_witness :
  LockedGameState.players seed_guard (LockedGameState.remove_player seed_guard 1 seed_store) = [2] /\
  StorageState.game_num_players
    (Store.index (LockedGameState.remove_player seed_guard 1 seed_store)) !! 7 = Some 1.
Proof.
  destruct (remove_player_member seed_guard 1 seed_store seed_store_wf seed_guard_current
              eq_refl) as (H1 & _ & _ & H2).
  split; [exact H1 | exact (eq_trans H2 (f_equal (fun l => Some (vec_len l)) H1))].
Defined.

Lemma remove_player_absent_drifts_witness :
  LockedGameState.has_player seed_guard 9 seed_store = false /\
  StorageState.game_num_players
    (Store.index (LockedGameState.remove_player seed_guard 9 seed_store)) !! 7 = Some 1.
Proof.
  destruct (remove_player_absent_drifts seed_guard 9 seed_store seed_store_wf seed_guard_current
              eq_refl) as (_ & H & _).
  split; [reflexivity | exact H].
Defined.

(** Game 8 registered with no member in [seed_store], its cell at 4. *)
Definition empty_game_store : Store.t := (StorageHandle.register_game 8 [] seed_store).1.

Lemma remove_from_empty_wraps_witness :
  StorageHandle.fetch_num_players [GameEntry.mk 8 0]
    (LockedGameState.remove_player (LockedGameState.mk 8 4) 1 empty_game_store) =
  [GameEntry.mk 8 (-1)].
Proof.
  apply (remove_from_empty_wraps (LockedGameState.mk 8 4) 1 empty_game_store 0);
    [apply register_game_wf; [apply NoDup_nil_2 | vec_bound | exact seed_store_wf] | reflexivity..].
Defined.

(** The specification's registration overwrite: [register_game(7, [1,2])]
    then [register_game(7, [3])] leaves a count of 1 and a game without
    player 1. *)
Lemma register_game_spec_witness :
  let w1 := (StorageHandle.register_game 7 [1; 2] seed_store).1 in
  store_wf w1 /\
  StorageState.game_num_players (Store.index (StorageHandle.register_game 7 [3] w1).1) !! 7 = Some 1 /\
  exists g, StorageHandle.lock_game_state 7 (StorageHandle.register_game 7 [3] w1).1 =
              ((StorageHandle.register_game 7 [3] w1).1, Some g) /\
            LockedGameState.has_player g 1 (StorageHandle.register_game 7 [3] w1).1 = false.
Proof.
  intros w1.
  assert (Hw : store_wf w1)
    by (apply register_game_wf; [seed_data_ok | vec_bound | exact seed_store_wf]).
  destruct (register_game_spec 7 [3] w1 Hw) as (_ & Hc & (g & Hl & Hps & _) & _).
  split_and!; [exact Hw | exact Hc |]. exists g. split; [exact Hl|].
  unfold LockedGameState.has_player. rewrite Hps. reflexivity.
Defined.

Lemma register_orphans_guard_witness :
  ~ store_wf (LockedGameState.add_player seed_guard 5
                (StorageHandle.register_game 7 [3] seed_store).1).
Proof.
  apply (register_orphans_guard seed_guard [3] 5 seed_store seed_store_wf seed_guard_current);
    [seed_data_ok | vec_bound | reflexivity | vec_bound].
Defined.

Lemma join_leave_game_witness :
  LockedPlayerState.joined_game_id (StorageHandle.lock_player_state 1 seed_store).2 seed_store = Some 7 /\
  LockedPlayerState.joined_game_id (LockedPlayerState.mk 1 1)
    (LockedPlayerState.join_game (LockedPlayerState.mk 1 1) 9 seed_store) = Some 9.
Proof.
  split; [reflexivity|].
  apply (join_leave_game (LockedPlayerState.mk 1 1) 9 seed_store).
  exists (PlayerState.mk (Some 7) None). reflexivity.
Defined.

Lemma fetch_num_players_spec_witness :
  Forall2 (fun e e' => GameEntry.id e' = GameEntry.id e)
    [GameEntry.mk 7 0; GameEntry.mk 8 42]
    (StorageHandle.fetch_num_players [GameEntry.mk 7 0; GameEntry.mk 8 42] seed_store).
Proof.
  eapply Forall2_impl; [exact (fetch_num_players_spec _ _ seed_store_wf) |].
  intros e e' [H _]. exact H.
Defined.
