(* ===== verification/Concurrency.v ===== *)
(** Interleavings of the store's callers: the two-phase locking protocol
    of [StorageHandle] (crates/lobby/src/state.rs, lines 112-149 and
    205-225).

    Every caller is a task running one request on its handle.  A request
    that leases an entity runs in the phases of the source: the coarse
    index is read (and, for a player, written) in one critical section and
    released; the task then awaits the entity's mutex; once it holds it, a
    game lease checks [closed] and either purges the id in a second
    critical section or runs the caller's guard operations.  A guard
    operation that changes the member list updates the count cache in a
    separate critical section, taken while the entity mutex is still
    held (the nesting entity lock, then index lock, of §5 of the
    specification).  Every critical section of the coarse index is one
    atomic step: none of them awaits, so no other step can observe one half
    done.  The Tokio mutexes are the [owner] map of the configuration; a
    task awaiting a mutex may be abandoned (its future dropped) and new
    tasks may arrive at any time. *)

From S2P Require Import Prelude Records Index Handle.

Local Open Scope Z_scope.

Abbreviation task_id := nat.

(** What a caller does with a player guard before dropping it. *)
Inductive PlayerOp :=
| JoinGame (game_id : Z)
| LeaveGame.

(** What a caller does with a game guard before dropping it. *)
Inductive GameOp :=
| AddPlayer (player_id : Z)
| RemovePlayer (player_id : Z)
| Close.

(** A request on a [StorageHandle]. *)
Inductive Req :=
| RegisterGame (id : Z) (ps : list Z)
| LeasePlayer (id : Z) (ops : list PlayerOp)
| LeaseGame (id : Z) (ops : list GameOp)
| FetchNumPlayers (games : list GameEntry.t).

(** The count-cache update a member-list write leaves pending. *)
Inductive Delta := Incr | Decr.

(** Where a task is in its request. *)
Inductive Pc :=
| Start (r : Req)
| AwaitPlayer (id : Z) (l : loc) (ops : list PlayerOp)
| HoldPlayer (id : Z) (l : loc) (ops : list PlayerOp)
| AwaitGame (id : Z) (l : loc) (ops : list GameOp)
| Purge (id : Z) (l : loc)
| HoldGame (id : Z) (l : loc) (ops : list GameOp)
| CountGame (id : Z) (l : loc) (d : Delta) (ops : list GameOp)
| Fetching (fetched todo : list GameEntry.t)
| Done.

#[export] Instance PlayerOp_eq_dec : EqDecision PlayerOp.
Proof. solve_decision. Defined.
#[export] Instance GameOp_eq_dec : EqDecision GameOp.
Proof. solve_decision. Defined.
#[export] Instance Req_eq_dec : EqDecision Req.
Proof. solve_decision. Defined.
#[export] Instance Delta_eq_dec : EqDecision Delta.
Proof. solve_decision. Defined.
#[export] Instance Pc_eq_dec : EqDecision Pc.
Proof. solve_decision. Defined.

Record Config := mkConfig {
  store : Store.t;
  owner : gmap loc task_id;
  tasks : gmap task_id Pc
}.

(** The entity mutex a task holds at [pc], if any. *)
Definition holds (pc : Pc) : option loc :=
  match pc with
  | HoldPlayer _ l _ | Purge _ l | HoldGame _ l _ | CountGame _ l _ _ => Some l
  | _ => None
  end.

Definition set_pc (t : task_id) (pc : Pc) (c : Config) : Config :=
  mkConfig (store c) (owner c) (<[t := pc]> (tasks c)).

Definition set_store (w : Store.t) (c : Config) : Config :=
  mkConfig w (owner c) (tasks c).

(** [lock_owned().await] completes: the mutex [l] now belongs to [t]. *)
Definition acquire (l : loc) (t : task_id) (c : Config) : Config :=
  mkConfig (store c) (<[l := t]> (owner c)) (tasks c).

(** The guard is dropped: the mutex [l] is free again. *)
Definition release (l : loc) (c : Config) : Config :=
  mkConfig (store c) (delete l (owner c)) (tasks c).

(** The count-cache write of [add_player] and [remove_player]. *)
Definition apply_delta (d : Delta) (id : Z) (w : Store.t) : Store.t :=
  let s := Store.index w in
  let f := match d with Incr => fun v => (v +ᵤ 1)%flo | Decr => fun v => (v -ᵤ 1)%flo end in
  Store.mk (StorageState.mk (StorageState.players s) (StorageState.games s)
              (alter f id (StorageState.game_num_players s))) (Store.heap w).

(** The member-list write of [add_player]: [None] when the player is
    already a member (nothing is written, no count update follows). *)
Definition push_member (id : Z) (l : loc) (p : Z) (w : Store.t) : option Store.t :=
  if vec_contains (LockedGameState.players (LockedGameState.mk id l) w) p then None
  else Some (Store.mk (Store.index w)
               (Heap.modify_game
                  (fun gs => GameState.set_players (vec_push (GameState.players gs) p) gs)
                  l (Store.heap w))).

(** The member-list write of [remove_player]. *)
Definition retain_member (l : loc) (p : Z) (w : Store.t) : Store.t :=
  Store.mk (Store.index w)
    (Heap.modify_game
       (fun gs => GameState.set_players (vec_retain_ne (GameState.players gs) p) gs)
       l (Store.heap w)).

(** One step of task [t] at [pc]: [None] when the task is blocked on a
    mutex another task holds, or finished. *)
Definition run_task (t : task_id) (pc : Pc) (c : Config) : option Config :=
  let w := store c in
  match pc with
  | Start (RegisterGame id ps) =>
      Some (set_pc t Done (set_store (StorageHandle.register_game id ps w).1 c))
  | Start (LeasePlayer id ops) =>
      (* phase 1: find or create under the write lock, then release it *)
      let '(w', g) := StorageHandle.lock_player_state id w in
      Some (set_pc t (AwaitPlayer id (LockedPlayerState.guard g) ops) (set_store w' c))
  | Start (LeaseGame id ops) =>
      (* phase 1: [self.0.read().games.get(&id).cloned()] *)
      match StorageState.games (Store.index w) !! id with
      | Some l => Some (set_pc t (AwaitGame id l ops) c)
      | None => Some (set_pc t Done c)
      end
  | Start (FetchNumPlayers gs) => Some (set_pc t (Fetching [] gs) c)
  | AwaitPlayer id l ops =>
      match owner c !! l with
      | Some _ => None
      | None => Some (set_pc t (HoldPlayer id l ops) (acquire l t c))
      end
  | HoldPlayer id l [] => Some (set_pc t Done (release l c))
  | HoldPlayer id l (JoinGame gid :: ops) =>
      Some (set_pc t (HoldPlayer id l ops)
              (set_store (LockedPlayerState.join_game (LockedPlayerState.mk id l) gid w) c))
  | HoldPlayer id l (LeaveGame :: ops) =>
      Some (set_pc t (HoldPlayer id l ops)
              (set_store (LockedPlayerState.leave_game (LockedPlayerState.mk id l) w) c))
  | AwaitGame id l ops =>
      (* phase 2: [state.lock_owned().await], then the test of [guard.closed] *)
      match owner c !! l with
      | Some _ => None
      | None =>
          match Heap.gcells (Store.heap w) !! l with
          | Some gs =>
              if GameState.closed gs then Some (set_pc t (Purge id l) (acquire l t c))
              else Some (set_pc t (HoldGame id l ops) (acquire l t c))
          | None => Some (set_pc t Done c)
          end
      end
  | Purge id l =>
      (* [self.0.write().games.remove(&id)], then the guard is dropped *)
      let s := Store.index w in
      Some (set_pc t Done
              (release l (set_store (Store.mk (StorageState.mk (StorageState.players s)
                                                 (delete id (StorageState.games s))
                                                 (StorageState.game_num_players s))
                                        (Store.heap w)) c)))
  | HoldGame id l [] => Some (set_pc t Done (release l c))
  | HoldGame id l (AddPlayer p :: ops) =>
      match push_member id l p w with
      | None => Some (set_pc t (HoldGame id l ops) c)
      | Some w' => Some (set_pc t (CountGame id l Incr ops) (set_store w' c))
      end
  | HoldGame id l (RemovePlayer p :: ops) =>
      Some (set_pc t (CountGame id l Decr ops) (set_store (retain_member l p w) c))
  | HoldGame id l (Close :: ops) =>
      Some (set_pc t (HoldGame id l ops)
              (set_store (LockedGameState.close (LockedGameState.mk id l) w) c))
  | CountGame id l d ops =>
      (* [self.storage_state.write()] while the game mutex is held *)
      Some (set_pc t (HoldGame id l ops) (set_store (apply_delta d id w) c))
  | Fetching fetched (e :: rest) =>
      (* one iteration of [fetch_num_players], under its own read lock *)
      Some (set_pc t (Fetching (fetched ++ [StorageHandle.fetch_one w e]) rest) c)
  | Fetching _ [] => Some (set_pc t Done c)
  | Done => None
  end.

(** A task whose future is suspended on an entity mutex. *)
Definition awaiting (pc : Pc) : bool :=
  match pc with
  | AwaitPlayer _ _ _ | AwaitGame _ _ _ => true
  | _ => false
  end.

(** The interleaving semantics: some task runs one step, a new caller
    arrives, or a suspended lease acquisition is abandoned. *)
Inductive cstep : Config -> Config -> Prop :=
| cstep_run t pc c c' :
    tasks c !! t = Some pc -> run_task t pc c = Some c' -> cstep c c'
| cstep_spawn t r c :
    tasks c !! t = None -> cstep c (set_pc t (Start r) c)
| cstep_abandon t pc c :
    tasks c !! t = Some pc -> awaiting pc = true -> cstep c (set_pc t Done c).

(** A run step only, for the scheduler-level properties. *)
Definition run_step (c c' : Config) : Prop :=
  exists t pc, tasks c !! t = Some pc /\ run_task t pc c = Some c'.

Definition init_config (w : Store.t) : Config := mkConfig w ∅ ∅.

(** A schedule, as an executable list of events. *)
Inductive Event :=
| Run (t : task_id)
| Spawn (t : task_id) (r : Req)
| Abandon (t : task_id).

Definition event_step (e : Event) (c : Config) : option Config :=
  match e with
  | Run t => tasks c !! t ≫= fun pc => run_task t pc c
  | Spawn t r => match tasks c !! t with None => Some (set_pc t (Start r) c) | Some _ => None end
  | Abandon t =>
      match tasks c !! t with
      | Some pc => if awaiting pc then Some (set_pc t Done c) else None
      | None => None
      end
  end.

Fixpoint run_schedule (es : list Event) (c : Config) : option Config :=
  match es with
  | [] => Some c
  | e :: es => event_step e c ≫= run_schedule es
  end.

(** The steps a task has left: it bounds how long the task can run. *)
Definition work (pc : Pc) : nat :=
  match pc with
  | Start (RegisterGame _ _) => 1
  | Start (LeasePlayer _ ops) => 3 + length ops
  | AwaitPlayer _ _ ops => 2 + length ops
  | HoldPlayer _ _ ops => 1 + length ops
  | Start (LeaseGame _ ops) => 4 + 2 * length ops
  | AwaitGame _ _ ops => 3 + 2 * length ops
  | Purge _ _ => 1
  | HoldGame _ _ ops => 1 + 2 * length ops
  | CountGame _ _ _ ops => 2 + 2 * length ops
  | Start (FetchNumPlayers gs) => 2 + length gs
  | Fetching _ todo => 1 + length todo
  | Done => 0
  end.

Definition total_work (c : Config) : nat :=
  map_fold (fun _ pc acc => (work pc + acc)%nat) 0%nat (tasks c).

(** The mutex a task at [pc] is suspended on, if any. *)
Definition waits_on (pc : Pc) : option loc :=
  match pc with
  | AwaitPlayer _ l _ | AwaitGame _ l _ => Some l
  | _ => None
  end.

(** ** Schedules are executions *)

Lemma event_step_cstep e c c' : event_step e c = Some c' -> cstep c c'.
Proof.
  destruct e as [t|t r|t]; simpl.
  - destruct (tasks c !! t) as [pc|] eqn:Ht; simpl; [|done]. eauto using cstep.
  - destruct (tasks c !! t) eqn:Ht; [done|]. intros [= <-]. by constructor.
  - destruct (tasks c !! t) as [pc|] eqn:Ht; [|done].
    destruct (awaiting pc) eqn:Ha; [|done]. intros [= <-]. eauto using cstep.
Qed.

Lemma run_schedule_rtc es c c' : run_schedule es c = Some c' -> rtc cstep c c'.
Proof.
  revert c. induction es as [|e es IH]; simpl; intros c H; [by simplify_eq|].
  destruct (event_step e c) as [c1|] eqn:He; [|done].
  eapply rtc_l; [exact (event_step_cstep e c c1 He) | by apply IH].
Qed.

(** ** What one step does to the mutexes *)

(** A step of task [t] changes its own program counter only, shortens
    the work it has left, and either
    leaves the mutexes alone (holding what it held), acquires a free one,
    or releases the one it held. *)
Lemma run_task_shape t pc c c' :
  run_task t pc c = Some c' ->
  exists pc', tasks c' = <[t := pc']> (tasks c) /\ (work pc' < work pc)%nat /\
    ((owner c' = owner c /\ holds pc' = holds pc) \/
     (exists l, holds pc = None /\ holds pc' = Some l /\ owner c !! l = None /\
                owner c' = <[l := t]> (owner c)) \/
     (exists l, holds pc = Some l /\ holds pc' = None /\ owner c' = delete l (owner c))).
Proof.
  intros H. destruct pc as [[]| | | | | | | |]; cbn [run_task] in H;
    repeat (case_match; cbv beta iota zeta in H); try discriminate; injection H as <-; eexists;
    (split; [reflexivity|]); (split; [simpl; lia|]);
    cbn [owner tasks set_pc set_store acquire release holds store]; naive_solver.
Qed.

(** ** The mutex invariant *)

(** A task holding an entity is that entity's owner, and every owned
    mutex is held by a live task at a holding program counter. *)
Record lock_inv (c : Config) : Prop := {
  inv_held : forall t pc l, tasks c !! t = Some pc -> holds pc = Some l -> owner c !! l = Some t;
  inv_owner : forall l t, owner c !! l = Some t ->
    exists pc, tasks c !! t = Some pc /\ holds pc = Some l
}.

(** Updating the counter of [t] without touching the mutexes keeps the
    invariant when the new counter holds what the old one did. *)
Lemma lock_inv_set_pc c c' t pc' :
  lock_inv c -> owner c' = owner c -> tasks c' = <[t := pc']> (tasks c) ->
  (forall pc, tasks c !! t = Some pc -> holds pc' = holds pc) ->
  (tasks c !! t = None -> holds pc' = None) ->
  lock_inv c'.
Proof.
  intros [Hh Ho] Hown Htasks Hsame Hnew. split; rewrite Hown, Htasks.
  - intros t' pc l. rewrite lookup_insert_Some. intros [[<- <-]|[Hne Ht']] Hl; [|eauto].
    destruct (tasks c !! t) as [pc0|] eqn:Ht0.
    + rewrite (Hsame pc0 eq_refl) in Hl. eauto.
    + by rewrite Hnew in Hl.
  - intros l t' Hl. destruct (Ho l t' Hl) as (pc0 & Ht' & Hpc0).
    destruct (decide (t = t')) as [<-|Hne].
    + exists pc'. rewrite lookup_insert_eq, (Hsame pc0 Ht'). done.
    + exists pc0. by rewrite lookup_insert_ne.
Qed.

Lemma lock_inv_run t pc c c' :
  lock_inv c -> tasks c !! t = Some pc -> run_task t pc c = Some c' -> lock_inv c'.
Proof.
  intros Hi Ht Hrun.
  destruct (run_task_shape t pc c c' Hrun)
    as (pc' & Htasks & _ & [[Hown Hsame]|[(l & Hn & Hs & Hfree & Hown)|(l & Hs & Hn & Hown)]]).
  - apply (lock_inv_set_pc c c' t pc'); [done | done | done | congruence | congruence].
  - destruct Hi as [Hh Ho]. split; rewrite Hown, Htasks.
    + intros t' pc0 l'. rewrite lookup_insert_Some. intros [[<- <-]|[Hne Ht']] Hl.
      * rewrite Hs in Hl. simplify_eq. by rewrite lookup_insert_eq.
      * rewrite lookup_insert_ne; [eauto|]. intros <-. rewrite (Hh _ _ _ Ht' Hl) in Hfree. done.
    + intros l' t'. rewrite lookup_insert_Some. intros [[<- <-]|[Hne Hl]].
      * exists pc'. by rewrite lookup_insert_eq.
      * destruct (Ho _ _ Hl) as (pc0 & Ht' & Hpc0). exists pc0.
        rewrite lookup_insert_ne; [done|]. intros <-. congruence.
  - destruct Hi as [Hh Ho]. pose proof (Hh _ _ _ Ht Hs) as Hl. split; rewrite Hown, Htasks.
    + intros t' pc0 l'. rewrite lookup_insert_Some. intros [[<- <-]|[Hne Ht']] Hl'; [congruence|].
      rewrite lookup_delete_ne; [eauto|]. intros <-. rewrite (Hh _ _ _ Ht' Hl') in Hl. congruence.
    + intros l' t'. rewrite lookup_delete_Some. intros [Hne Hl'].
      destruct (Ho _ _ Hl') as (pc0 & Ht' & Hpc0). exists pc0.
      rewrite lookup_insert_ne; [done|]. intros <-. congruence.
Qed.

Lemma lock_inv_step c c' : lock_inv c -> cstep c c' -> lock_inv c'.
Proof.
  intros Hi Hs. inversion Hs as [t pc c0 c1 Ht Hrun|t r c0 Ht|t pc c0 Ht Ha]; subst;
    [eauto using lock_inv_run | |].
  - apply (lock_inv_set_pc c _ t (Start r)); [done..| congruence | done].
  - apply (lock_inv_set_pc c _ t Done); [done | done | done | |congruence].
    intros pc0 Hpc0. rewrite Ht in Hpc0. simplify_eq. by destruct pc0.
Qed.

Lemma lock_inv_init w : lock_inv (init_config w).
Proof. split; simpl; [intros ???; by rewrite lookup_empty | intros ??; by rewrite lookup_empty]. Qed.

Lemma rtc_lock_inv c c' : rtc cstep c c' -> lock_inv c -> lock_inv c'.
Proof. induction 1; eauto using lock_inv_step. Qed.

(** ** Progress *)

(** A task can only be stopped by a mutex another task owns. *)
Lemma run_task_blocked t pc c :
  run_task t pc c = None -> pc = Done \/ exists l t', waits_on pc = Some l /\ owner c !! l = Some t'.
Proof.
  destruct pc as [[]| | | | | | | |]; cbn [run_task]; repeat case_match; try discriminate;
    intros _; eauto.
Qed.

(** A task that holds an entity can always take its next step. *)
Lemma run_task_holder t pc c l : holds pc = Some l -> is_Some (run_task t pc c).
Proof.
  destruct pc as [[]| | | | | | | |]; cbn [run_task holds]; intros H; try discriminate;
    repeat case_match; eexists; reflexivity.
Qed.

Lemma holds_not_waiting pc l l' : holds pc = Some l -> waits_on pc = Some l' -> False.
Proof. by destruct pc. Qed.

(** C3: no deadlock.  In every reachable state in which some task has
    not finished, some task can take a step: a task suspended on a mutex
    waits for an owner that is never itself suspended, because no path
    awaits while it holds the coarse index and no task holds two entity
    mutexes. *)
Theorem deadlock_free w c t pc :
  rtc cstep (init_config w) c -> tasks c !! t = Some pc -> pc <> Done ->
  exists t' pc' c', tasks c !! t' = Some pc' /\ run_task t' pc' c = Some c'.
Proof.
  intros Hr Ht Hpc. destruct (rtc_lock_inv _ _ Hr (lock_inv_init w)) as [_ Ho].
  destruct (run_task t pc c) as [c'|] eqn:Hrun; [eauto|].
  destruct (run_task_blocked t pc c Hrun) as [->|(l & t' & _ & Hl)]; [done|].
  destruct (Ho _ _ Hl) as (pc' & Ht' & Hh).
  destruct (run_task_holder t' pc' c l Hh) as [c' Hc']. eauto.
Qed.

(** ** Termination *)

Lemma total_work_insert (m : gmap task_id Pc) t pc pc' :
  m !! t = Some pc ->
  (map_fold (fun _ pc acc => (work pc + acc)%nat) 0%nat (<[t := pc']> m) + work pc =
   map_fold (fun _ pc acc => (work pc + acc)%nat) 0%nat m + work pc')%nat.
Proof.
  intros Ht. rewrite <- (insert_delete_id m t pc Ht) at 2. rewrite <- insert_delete_eq.
  rewrite !map_fold_insert_L; [lia | intros; lia | apply lookup_delete_eq | intros; lia
                              | apply lookup_delete_eq].
Qed.

(** Every step of a task shortens the work left in the configuration, so
    every schedule made of task steps is finite. *)
Lemma run_step_total_work c c' : run_step c c' -> (total_work c' < total_work c)%nat.
Proof.
  intros (t & pc & Ht & Hrun). destruct (run_task_shape t pc c c' Hrun) as (pc' & Htasks & Hlt & _).
  unfold total_work. rewrite Htasks. pose proof (total_work_insert (tasks c) t pc pc' Ht). lia.
Qed.

Lemma run_step_cstep c c' : run_step c c' -> cstep c c'.
Proof. intros (t & pc & Ht & Hrun). eauto using cstep. Qed.

(** A scheduler: run the first task, in the order of the map, that can
    take a step. *)
Fixpoint first_step (l : list (task_id * Pc)) (c : Config) : option Config :=
  match l with
  | [] => None
  | (t, pc) :: l' =>
      match run_task t pc c with
      | Some c' => Some c'
      | None => first_step l' c
      end
  end.

Definition scheduler_step (c : Config) : option Config := first_step (map_to_list (tasks c)) c.

Lemma first_step_spec l c :
  match first_step l c with
  | Some c' => exists t pc, (t, pc) ∈ l /\ run_task t pc c = Some c'
  | None => forall t pc, (t, pc) ∈ l -> run_task t pc c = None
  end.
Proof.
  induction l as [|[t pc] l IH]; simpl; [intros ??; by rewrite elem_of_nil|].
  destruct (run_task t pc c) as [c'|] eqn:Hrun; [exists t, pc; split; [left|]; done|].
  destruct (first_step l c) as [c'|].
  - destruct IH as (t' & pc' & Hin & Hr). exists t', pc'. split; [by right | done].
  - intros t' pc' [[= -> ->]|Hin]%elem_of_cons; eauto.
Qed.

Lemma scheduler_step_spec c :
  match scheduler_step c with
  | Some c' => run_step c c'
  | None => forall c', ~ run_step c c'
  end.
Proof.
  unfold scheduler_step. pose proof (first_step_spec (map_to_list (tasks c)) c) as H.
  destruct (first_step _ c) as [c'|].
  - destruct H as (t & pc & Hin%elem_of_map_to_list & Hr). by exists t, pc.
  - intros c' (t & pc & Ht & Hr). rewrite (H t pc) in Hr; [done | by apply elem_of_map_to_list].
Qed.

(** C16: liveness.  From every reachable state, running the tasks that can
    run (in any order a scheduler picks) ends in finitely many steps, and
    it ends only when every task has finished. *)
Theorem all_tasks_complete w c :
  rtc cstep (init_config w) c ->
  exists c', rtc run_step c c' /\ (forall c'', ~ run_step c' c'') /\
             forall t pc, tasks c' !! t = Some pc -> pc = Done.
Proof.
  remember (total_work c) as n eqn:En. revert c En.
  induction n as [n IH] using lt_wf_ind. intros c -> Hr.
  pose proof (scheduler_step_spec c) as Hsched.
  destruct (scheduler_step c) as [c'|]; [rename Hsched into Hs | rename Hsched into Hno].
  - destruct (IH (total_work c') (run_step_total_work _ _ Hs) c' eq_refl
                (rtc_r _ _ _ Hr (run_step_cstep _ _ Hs))) as (c'' & Hr' & Hstop & Hdone).
    exists c''. split_and!; [by eapply rtc_l | done | done].
  - exists c. split_and!; [done | naive_solver |].
    intros t pc Ht. destruct (decide (pc = Done)) as [|Hpc]; [done|].
    destruct (deadlock_free w c t pc Hr Ht Hpc) as (t' & pc' & c' & Ht' & Hrun).
    exfalso. apply (Hno c'). exists t', pc'. done.
Qed.

(** ** The purge race *)

(** Task 0 closes game 7; task 1 looks game 7 up while it is closed and
    waits for its mutex; task 2 registers a new game 7 in the meantime;
    task 1 then finds the old record closed and removes id 7, which by now
    names the new game; task 3 asks for game 7 and gets nothing. *)
Definition purge_race_schedule : list Event :=
  [Spawn 0 (LeaseGame 7 [Close]); Run 0; Run 0; Run 0;
   Spawn 1 (LeaseGame 7 []); Run 1; Run 0;
   Spawn 2 (RegisterGame 7 [1; 2]); Run 2;
   Run 1; Run 1;
   Spawn 3 (LeaseGame 7 [AddPlayer 5]); Run 3].

(** C7: the purge of a closed game removes the id without checking that
    it still names the closed record.  Some interleaving from the example
    store ends with a game registered after the close, never closed, with
    its count cached, whose id is no longer indexed: every later
    [lock_game_state] reports it "not found", and every task has
    finished. *)
Theorem purge_race_loses_registration :
  exists c, rtc cstep (init_config seed_store) c /\
    Heap.gcells (Store.heap (store c)) !! 4%positive = Some (GameState.new [1; 2]) /\
    StorageState.game_num_players (Store.index (store c)) !! 7 = Some 2 /\
    StorageState.games (Store.index (store c)) !! 7 = None /\
    StorageHandle.lock_game_state 7 (store c) = (store c, None) /\
    (forall t pc, tasks c !! t = Some pc -> pc = Done).
Proof.
  destruct (run_schedule purge_race_schedule (init_config seed_store)) as [c|] eqn:E;
    [|vm_compute in E; discriminate].
  exists c. split; [exact (run_schedule_rtc _ _ _ E)|].
  vm_compute in E. injection E as <-. split_and!; [reflexivity.. |].
  intros t pc. rewrite <- elem_of_map_to_list. vm_compute.
  intros Hin. repeat (apply elem_of_cons in Hin as [[= _ <-]|Hin]; [done|]).
  by apply elem_of_nil in Hin.
Qed.

(** ** Refinement of the atomic semantics *)

(** The guard operations of a lease, run one after the other on the
    atomic semantics of [Handle]. *)
Fixpoint seq_game_ops (g : LockedGameState.t) (ops : list GameOp) (w : Store.t) : Store.t :=
  match ops with
  | [] => w
  | AddPlayer p :: ops => seq_game_ops g ops (LockedGameState.add_player g p w)
  | RemovePlayer p :: ops => seq_game_ops g ops (LockedGameState.remove_player g p w)
  | Close :: ops => seq_game_ops g ops (LockedGameState.close g w)
  end.

(** A whole game lease on the atomic semantics: [lock_game_state], then
    the operations on the guard if there is one. *)
Definition seq_lease_game (id : Z) (ops : list GameOp) (w : Store.t) : Store.t :=
  match StorageHandle.lock_game_state id w with
  | (w', Some g) => seq_game_ops g ops w'
  | (w', None) => w'
  end.

(** [add_player] is its member-list write followed by its count write. *)
Lemma add_player_split id l p w :
  LockedGameState.add_player (LockedGameState.mk id l) p w =
  match push_member id l p w with
  | None => w
  | Some w' => apply_delta Incr id w'
  end.
Proof. unfold LockedGameState.add_player, push_member. by destruct (vec_contains _ p). Qed.

Lemma remove_player_split id l p w :
  LockedGameState.remove_player (LockedGameState.mk id l) p w = apply_delta Decr id (retain_member l p w).
Proof. reflexivity. Qed.

Lemma set_pc_set_pc t a b c : set_pc t a (set_pc t b c) = set_pc t a c.
Proof. unfold set_pc. simpl. by rewrite insert_insert_eq. Qed.

(** One step of [t] that the relation [run_step] can take. *)
Lemma run_step_of t pc c c' : tasks c !! t = Some pc -> run_task t pc c = Some c' -> run_step c c'.
Proof. intros. by exists t, pc. Qed.

(** A task holding the game cell [l] runs its operations to the end and
    drops the guard, with the effect of the atomic operations. *)
Lemma hold_game_refines ops c t id l :
  tasks c !! t = Some (HoldGame id l ops) ->
  rtc run_step c (mkConfig (seq_game_ops (LockedGameState.mk id l) ops (store c))
                    (delete l (owner c)) (<[t := Done]> (tasks c))).
Proof.
  revert c. induction ops as [|[p|p|] ops IH]; intros c Ht; simpl.
  - apply rtc_once. by eapply run_step_of; [exact Ht|].
  - rewrite add_player_split. destruct (push_member id l p (store c)) as [w'|] eqn:Hp.
    + eapply rtc_l; [eapply run_step_of; [exact Ht | simpl; by rewrite Hp]|].
      eapply rtc_l; [eapply run_step_of; [simpl; apply lookup_insert_eq | reflexivity]|].
      etrans; [apply IH; simpl; apply lookup_insert_eq|]. simpl. by rewrite !insert_insert_eq.
    + eapply rtc_l; [eapply run_step_of; [exact Ht | simpl; by rewrite Hp]|].
      etrans; [apply IH; simpl; apply lookup_insert_eq|]. simpl. by rewrite insert_insert_eq.
  - rewrite remove_player_split.
    eapply rtc_l; [eapply run_step_of; [exact Ht | reflexivity]|].
    eapply rtc_l; [eapply run_step_of; [simpl; apply lookup_insert_eq | reflexivity]|].
    etrans; [apply IH; simpl; apply lookup_insert_eq|]. simpl. by rewrite !insert_insert_eq.
  - eapply rtc_l; [eapply run_step_of; [exact Ht | reflexivity]|].
    etrans; [apply IH; simpl; apply lookup_insert_eq|]. simpl. by rewrite insert_insert_eq.
Qed.

(** C2: refinement.  A game lease that runs without interference (the
    mutex of the cell it looks up is free and no other task steps) ends
    with the store that the atomic [lock_game_state] and guard operations
    of [Handle] produce, every mutex as it was, and the task finished. *)
Theorem lease_game_refines c t id ops :
  tasks c !! t = Some (Start (LeaseGame id ops)) ->
  (forall l, StorageState.games (Store.index (store c)) !! id = Some l -> owner c !! l = None) ->
  rtc run_step c (mkConfig (seq_lease_game id ops (store c)) (owner c) (<[t := Done]> (tasks c))).
Proof.
  intros Ht Hfree. unfold seq_lease_game, StorageHandle.lock_game_state.
  destruct (StorageState.games _ !! id) as [l|] eqn:Hl.
  2: { apply rtc_once. eapply run_step_of; [exact Ht | simpl; by rewrite Hl]. }
  pose proof (Hfree l eq_refl) as Hown.
  eapply rtc_l; [eapply run_step_of; [exact Ht | simpl; by rewrite Hl]|].
  destruct (Heap.gcells _ !! l) as [gs|] eqn:Hgs.
  2: { apply rtc_once. eapply run_step_of; [apply lookup_insert_eq | simpl; rewrite Hown, Hgs].
       f_equal. unfold set_pc. simpl. by rewrite insert_insert_eq. }
  destruct (GameState.closed gs) eqn:Hcl.
  - eapply rtc_l; [eapply run_step_of; [apply lookup_insert_eq | simpl; by rewrite Hown, Hgs, Hcl]|].
    apply rtc_once. eapply run_step_of; [apply lookup_insert_eq | simpl].
    unfold set_pc, release, set_store, acquire. cbn [owner tasks store].
    rewrite delete_insert_id, !insert_insert_eq by done. reflexivity.
  - eapply rtc_l; [eapply run_step_of; [apply lookup_insert_eq | simpl; by rewrite Hown, Hgs, Hcl]|].
    etrans; [apply hold_game_refines; apply lookup_insert_eq|]. simpl.
    by rewrite delete_insert_id, !insert_insert_eq.
Qed.

(** The guard operations of a player lease on the atomic semantics. *)
Fixpoint seq_player_ops (g : LockedPlayerState.t) (ops : list PlayerOp) (w : Store.t) : Store.t :=
  match ops with
  | [] => w
  | JoinGame gid :: ops => seq_player_ops g ops (LockedPlayerState.join_game g gid w)
  | LeaveGame :: ops => seq_player_ops g ops (LockedPlayerState.leave_game g w)
  end.

(** A whole player lease on the atomic semantics. *)
Definition seq_lease_player (id : Z) (ops : list PlayerOp) (w : Store.t) : Store.t :=
  let '(w', g) := StorageHandle.lock_player_state id w in seq_player_ops g ops w'.

(** A task holding the player cell [l] runs its operations to the end
    and drops the guard. *)
Lemma hold_player_refines ops c t id l :
  tasks c !! t = Some (HoldPlayer id l ops) ->
  rtc run_step c (mkConfig (seq_player_ops (LockedPlayerState.mk id l) ops (store c))
                    (delete l (owner c)) (<[t := Done]> (tasks c))).
Proof.
  revert c. induction ops as [|[gid|] ops IH]; intros c Ht; simpl.
  - apply rtc_once. by eapply run_step_of; [exact Ht|].
  - eapply rtc_l; [eapply run_step_of; [exact Ht | reflexivity]|].
    etrans; [apply IH; simpl; apply lookup_insert_eq|]. simpl. by rewrite insert_insert_eq.
  - eapply rtc_l; [eapply run_step_of; [exact Ht | reflexivity]|].
    etrans; [apply IH; simpl; apply lookup_insert_eq|]. simpl. by rewrite insert_insert_eq.
Qed.

(** C26: refinement of player leases.  A player lease that runs without
    interference (the mutex of the cell [lock_player_state] finds or
    creates is free and no other task steps) ends with the store of the
    atomic [lock_player_state] followed by the guard's [join_game] and
    [leave_game] calls, every mutex as it was, and the task finished. *)
Theorem lease_player_refines c t id ops :
  tasks c !! t = Some (Start (LeasePlayer id ops)) ->
  owner c !! LockedPlayerState.guard (StorageHandle.lock_player_state id (store c)).2 = None ->
  rtc run_step c (mkConfig (seq_lease_player id ops (store c)) (owner c) (<[t := Done]> (tasks c))).
Proof.
  intros Ht Hfree. unfold seq_lease_player.
  destruct (StorageHandle.lock_player_state id (store c)) as [w' [id' l]] eqn:Hlock.
  assert (id' = id) as ->.
  { unfold StorageHandle.lock_player_state in Hlock. repeat case_match; simplify_eq; done. }
  cbn [snd LockedPlayerState.guard] in Hfree.
  eapply rtc_l; [eapply run_step_of; [exact Ht | cbn [run_task]; rewrite Hlock; reflexivity]|].
  eapply rtc_l; [eapply run_step_of; [apply lookup_insert_eq | cbn [run_task owner set_pc set_store LockedPlayerState.guard]; by rewrite Hfree]|].
  etrans; [apply hold_player_refines; apply lookup_insert_eq|]. cbn [store owner tasks set_pc set_store acquire].
  by rewrite delete_insert_id, !insert_insert_eq.
Qed.

(** The listing of example [fetch_race]: task 0 fills two entries for
    game 7 while task 1 adds player 5 to game 7 between the two reads. *)
Definition fetch_race_schedule : list Event :=
  [Spawn 0 (FetchNumPlayers [GameEntry.mk 7 0; GameEntry.mk 7 0]); Run 0; Run 0;
   Spawn 1 (LeaseGame 7 [AddPlayer 5]); Run 1; Run 1; Run 1; Run 1; Run 1; Run 0].

(** C27: [fetch_num_players] is not the snapshot the specification calls
    it ([snapshot_counts], §3): it takes the read lock once per entry, so
    a lease that adds a member between two entries is seen by the second
    and not by the first.  From the example store, one call that is given
    game 7 twice reports it with 2 players and then with 3. *)
Theorem fetch_not_snapshot :
  exists c, rtc cstep (init_config seed_store) c /\
    tasks c !! 0%nat = Some (Fetching [GameEntry.mk 7 2; GameEntry.mk 7 3] []).
Proof.
  destruct (run_schedule fetch_race_schedule (init_config seed_store)) as [c|] eqn:E;
    [|vm_compute in E; discriminate].
  exists c. split; [exact (run_schedule_rtc _ _ _ E)|].
  vm_compute in E. injection E as <-. reflexivity.
Qed.

(** ** Witnesses *)

(** Task 0 holds game 7 of the example store, about to close it; task 1
    has looked game 7 up and waits for its mutex. *)
Definition contention_schedule : list Event :=
  [Spawn 0 (LeaseGame 7 [Close]); Run 0; Run 0; Spawn 1 (LeaseGame 7 []); Run 1].

Definition contention_config : Config :=
  from_option (fun c => c) (init_config seed_store)
    (run_schedule contention_schedule (init_config seed_store)).

Lemma contention_reachable : rtc cstep (init_config seed_store) contention_config.
Proof. apply (run_schedule_rtc contention_schedule). vm_compute. reflexivity. Qed.

Lemma deadlock_free_witness :
  exists t' pc' c', tasks contention_config !! t' = Some pc' /\
                    run_task t' pc' contention_config = Some c'.
Proof.
  apply (deadlock_free seed_store contention_config 1 (AwaitGame 7 3 []) contention_reachable);
    [vm_compute; reflexivity | discriminate].
Defined.

Lemma all_tasks_complete_witness :
  exists c', rtc run_step contention_config c' /\ (forall c'', ~ run_step c' c'') /\
             forall t pc, tasks c' !! t = Some pc -> pc = Done.
Proof. exact (all_tasks_complete seed_store contention_config contention_reachable). Defined.

Lemma lease_game_refines_witness :
  rtc run_step (set_pc 0 (Start (LeaseGame 7 [AddPlayer 5])) (init_config seed_store))
    (mkConfig (seq_lease_game 7 [AddPlayer 5] seed_store) ∅ {[0%nat := Done]}).
Proof.
  apply (lease_game_refines (set_pc 0 (Start (LeaseGame 7 [AddPlayer 5])) (init_config seed_store))
           0 7 [AddPlayer 5]); [vm_compute; reflexivity | intros l _; vm_compute; reflexivity].
Defined.

Lemma lease_player_refines_witness :
  rtc run_step (set_pc 0 (Start (LeasePlayer 9 [JoinGame 7])) (init_config seed_store))
    (mkConfig (seq_lease_player 9 [JoinGame 7] seed_store) ∅ {[0%nat := Done]}).
Proof.
  apply (lease_player_refines (set_pc 0 (Start (LeasePlayer 9 [JoinGame 7])) (init_config seed_store))
           0 9 [JoinGame 7]); vm_compute; reflexivity.
Defined.
