(* ===== verification/Abstract.v ===== *)
(** An abstract specification of the lobby store and the refinement of
    [Handle] against it.

    [Lobby] is what the store promises its callers (§3 and §4 of the
    specification), with no cells, locations or caches: every game id maps
    to its member list and its [closed] flag, every known player id to the
    game it has joined.  [Lobby.exec] runs one call of the specification
    and returns what the caller observes (the warning of a registration,
    the game a leased player has joined, the members a game lease sees).
    [abs] reads a store as such a lobby.  A call of the store is a
    labelled step [lstep], labelled with the call and the result the caller
    reads; each one acts on [abs] exactly as [Lobby.exec] of the same call
    and returns the same observation, so that every run of the store under
    the callers' contract is, call for call and result for result, a run
    of the specification. *)

From S2P Require Import Prelude Records Index Handle.

Local Open Scope Z_scope.

Module Lobby.
Record t := mk {
  games : gmap Z (list Z * bool);
  joined : gmap Z (option Z)
}.

(** [register_game(id, members)]: a new open session, replacing any other. *)
Definition register (id : Z) (ps : list Z) (a : t) : t :=
  mk (<[id := (ps, false)]> (games a)) (joined a).

(** [lease_game(id)]: a closed session is purged and reported absent. *)
Definition lease_game (id : Z) (a : t) : t * option (list Z) :=
  match games a !! id with
  | Some (ms, true) => (mk (delete id (games a)) (joined a), None)
  | Some (ms, false) => (a, Some ms)
  | None => (a, None)
  end.

(** [add_member]: idempotent append. *)
Definition add_member (id p : Z) (a : t) : t :=
  mk (alter (fun '(ms, cl) => (if bool_decide (p ∈ ms) then ms else ms ++ [p], cl)) id (games a))
     (joined a).

(** [remove_member]: every occurrence of the player goes. *)
Definition remove_member (id p : Z) (a : t) : t :=
  mk (alter (fun '(ms, cl) => (filter (fun q => q <> p) ms, cl)) id (games a)) (joined a).

(** [mark_closed]. *)
Definition close (id : Z) (a : t) : t :=
  mk (alter (fun '(ms, _) => (ms, true)) id (games a)) (joined a).

(** [lease_player(id)]: find or create an unattached player. *)
Definition lease_player (id : Z) (a : t) : t * option Z :=
  match joined a !! id with
  | Some g => (a, g)
  | None => (mk (games a) (<[id := None]> (joined a)), None)
  end.

(** [join(game_id)] and [leave()] of a player guard. *)
Definition set_joined (pid : Z) (g : option Z) (a : t) : t :=
  mk (games a) (alter (fun _ => g) pid (joined a)).

(** The member count a listing should show. *)
Definition member_count (id : Z) (a : t) : option Z :=
  (fun '(ms, _) => vec_len ms) <$> games a !! id.

(** The calls of the specification, by the id they name. *)
Inductive op :=
| ORegister (id : Z) (ps : list Z)
| OLeasePlayer (id : Z)
| OLeaseGame (id : Z)
| OJoin (pid gid : Z)
| OLeave (pid : Z)
| OAdd (id p : Z)
| ORemove (id p : Z)
| OClose (id : Z).

(** What a caller reads back from a call. *)
Inductive obs :=
| ONone
| OWarned (replaced : bool)
| OJoined (game_id : option Z)
| OMembers (members : option (list Z)).

Definition exec (o : op) (a : t) : t * obs :=
  match o with
  | ORegister id ps => (register id ps a, OWarned (bool_decide (is_Some (games a !! id))))
  | OLeasePlayer id => let '(a', g) := lease_player id a in (a', OJoined g)
  | OLeaseGame id => let '(a', ms) := lease_game id a in (a', OMembers ms)
  | OJoin pid gid => (set_joined pid (Some gid) a, ONone)
  | OLeave pid => (set_joined pid None a, ONone)
  | OAdd id p => (add_member id p a, ONone)
  | ORemove id p => (remove_member id p a, ONone)
  | OClose id => (close id a, ONone)
  end.

(** A sequence of calls, and what each one returned. *)
Fixpoint run (os : list op) (a : t) : t * list obs :=
  match os with
  | [] => (a, [])
  | o :: os => let '(a1, r) := exec o a in let '(a2, rs) := run os a1 in (a2, r :: rs)
  end.
End Lobby.

(** ** Abstraction of a store *)

Definition game_view (gs : GameState.t) : list Z * bool := (GameState.players gs, GameState.closed gs).

Definition abs (w : Store.t) : Lobby.t :=
  Lobby.mk
    (omap (fun l => game_view <$> Heap.gcells (Store.heap w) !! l) (StorageState.games (Store.index w)))
    (omap (fun l => PlayerState.game_id <$> Heap.pcells (Store.heap w) !! l)
          (StorageState.players (Store.index w))).

Lemma abs_games w id :
  Lobby.games (abs w) !! id =
  StorageState.games (Store.index w) !! id ≫= fun l => game_view <$> Heap.gcells (Store.heap w) !! l.
Proof. apply lookup_omap. Qed.

Lemma abs_joined w id :
  Lobby.joined (abs w) !! id =
  StorageState.players (Store.index w) !! id ≫= fun l => PlayerState.game_id <$> Heap.pcells (Store.heap w) !! l.
Proof. apply lookup_omap. Qed.

(** Two lobbies are equal when their lookups agree. *)
Lemma lobby_eq a b :
  (forall id, Lobby.games a !! id = Lobby.games b !! id) ->
  (forall id, Lobby.joined a !! id = Lobby.joined b !! id) -> a = b.
Proof. destruct a, b; simpl. intros Hg Hj. f_equal; by apply map_eq. Qed.

(** ** Each operation of [Handle] refines its [Lobby] operation *)

(** Reduce the record projections of a store built by an operation,
    without unfolding the maps. *)
Ltac store_simpl :=
  cbn [Store.index Store.heap StorageState.players StorageState.games StorageState.game_num_players
       Heap.pcells Heap.gcells Heap.next fst snd Heap.alloc_game Heap.alloc_player Heap.modify_game
       Heap.modify_player Lobby.games Lobby.joined Lobby.register Lobby.add_member
       Lobby.remove_member Lobby.close Lobby.set_joined Lobby.lease_player Lobby.lease_game].

Section Refinement.
Context (w : Store.t) (Hw : store_wf w).

(** A cell the index points to is not the next allocation. *)
Lemma indexed_game_not_next id l :
  StorageState.games (Store.index w) !! id = Some l -> l <> Heap.next (Store.heap w).
Proof. intros Hl. apply (heap_ok_gcell_ne _ _ (wf_heap _ _ Hw)). exact (wf_games _ _ Hw _ _ Hl). Qed.

Lemma indexed_player_not_next id l :
  StorageState.players (Store.index w) !! id = Some l -> l <> Heap.next (Store.heap w).
Proof. intros Hl. apply (heap_ok_pcell_ne _ _ (wf_heap _ _ Hw)). exact (wf_players _ _ Hw _ _ Hl). Qed.

Lemma abs_register_game id ps :
  abs (StorageHandle.register_game id ps w).1 = Lobby.register id ps (abs w).
Proof.
  apply lobby_eq; intros id'; rewrite ?abs_games, ?abs_joined; unfold StorageHandle.register_game;
    store_simpl.
  - destruct (decide (id' = id)) as [->|Hne].
    { rewrite !lookup_insert_eq. cbn [mbind option_bind]. by rewrite lookup_insert_eq. }
    rewrite !lookup_insert_ne, abs_games by congruence.
    destruct (StorageState.games _ !! id') as [l|] eqn:Hl; cbn [mbind option_bind]; [|done].
    rewrite lookup_insert_ne; [done|]. by apply not_eq_sym, (indexed_game_not_next id').
  - by rewrite abs_joined.
Qed.
(** The warning of [register_game] is raised exactly when the lobby
    already has a session under the id. *)
Lemma abs_register_warned id ps :
  (StorageHandle.register_game id ps w).2 = bool_decide (is_Some (Lobby.games (abs w) !! id)).
Proof.
  unfold StorageHandle.register_game. cbn [fst snd Heap.alloc_game]. apply bool_decide_ext.
  rewrite abs_games. destruct (StorageState.games _ !! id) as [l|] eqn:Hl; cbn [mbind option_bind].
  - destruct (wf_games _ _ Hw _ _ Hl) as [gs Hgs]. rewrite Hgs. split; intros _; by eexists.
  - split; by intros [].
Qed.

(** A write through a current game guard acts on the abstract lobby as
    [alter] at the guard's id, whatever it does to the count cache. *)
Lemma abs_modify_game g f (F : list Z * bool -> list Z * bool) s' :
  game_current g w ->
  StorageState.players s' = StorageState.players (Store.index w) ->
  StorageState.games s' = StorageState.games (Store.index w) ->
  (forall gs, Heap.gcells (Store.heap w) !! LockedGameState.guard g = Some gs ->
              game_view (f gs) = F (game_view gs)) ->
  abs (Store.mk s' (Heap.modify_game f (LockedGameState.guard g) (Store.heap w))) =
  Lobby.mk (alter F (LockedGameState.id g) (Lobby.games (abs w))) (Lobby.joined (abs w)).
Proof.
  intros Hc Hp Hg HF. apply lobby_eq; intros id'; rewrite ?abs_games, ?abs_joined; store_simpl.
  - rewrite Hg. destruct (decide (id' = LockedGameState.id g)) as [->|Hne].
    + rewrite lookup_alter_eq, abs_games, Hc. cbn [mbind option_bind].
      rewrite lookup_alter_eq.
      destruct (Heap.gcells _ !! _) as [gs|] eqn:Hgs; [|done]. simpl. by rewrite HF.
    + rewrite lookup_alter_ne, abs_games by congruence.
      destruct (StorageState.games _ !! id') as [l|] eqn:Hl; cbn [mbind option_bind]; [|done].
      rewrite lookup_alter_ne; [done|]. intros Heq. apply Hne. subst l.
      exact (wf_games_inj _ _ Hw _ _ _ Hl Hc).
  - by rewrite Hp, abs_joined.
Qed.

Lemma abs_add_player g p :
  game_current g w ->
  abs (LockedGameState.add_player g p w) = Lobby.add_member (LockedGameState.id g) p (abs w).
Proof.
  intros Hc. destruct (game_current_cell g w Hw Hc) as (gs & Hgs & Hps).
  unfold LockedGameState.add_player, Lobby.add_member.
  destruct (vec_contains _ p) eqn:Hin; cbn [negb].
  - rewrite alter_id; [by destruct (abs w)|]. intros [ms cl].
    rewrite abs_games, Hc. cbn [mbind option_bind]. rewrite Hgs. intros [= <- <-].
    rewrite bool_decide_eq_true_2; [done|]. rewrite <- Hps. by apply vec_contains_true.
  - apply abs_modify_game; [done..|]. intros gs' Hgs'. rewrite Hgs in Hgs'. simplify_eq.
    unfold game_view. simpl. rewrite bool_decide_eq_false_2; [done|].
    rewrite <- Hps. by apply vec_contains_false.
Qed.

Lemma abs_remove_player g p :
  game_current g w ->
  abs (LockedGameState.remove_player g p w) = Lobby.remove_member (LockedGameState.id g) p (abs w).
Proof. intros Hc. by apply abs_modify_game. Qed.

Lemma abs_close g :
  game_current g w -> abs (LockedGameState.close g w) = Lobby.close (LockedGameState.id g) (abs w).
Proof. intros Hc. by apply abs_modify_game. Qed.

Lemma abs_lock_game_state id :
  abs (StorageHandle.lock_game_state id w).1 = (Lobby.lease_game id (abs w)).1 /\
  (fun g => LockedGameState.players g (StorageHandle.lock_game_state id w).1) <$>
    (StorageHandle.lock_game_state id w).2 = (Lobby.lease_game id (abs w)).2.
Proof.
  unfold StorageHandle.lock_game_state, Lobby.lease_game. rewrite abs_games.
  destruct (StorageState.games _ !! id) as [l|] eqn:Hl; cbn [mbind option_bind]; [|done].
  destruct (wf_games _ _ Hw _ _ Hl) as [gs Hgs]. rewrite Hgs. cbn [fmap option_fmap option_map].
  unfold game_view. destruct (GameState.closed gs) eqn:Hcl; cbn [fst snd].
  - split; [|done]. apply lobby_eq; intros id'; store_simpl.
    + destruct (decide (id' = id)) as [->|Hne].
      * rewrite abs_games; store_simpl. by rewrite !lookup_delete_eq.
      * rewrite abs_games; store_simpl. by rewrite !lookup_delete_ne, abs_games by congruence.
    + by rewrite !abs_joined.
  - split; [done|]. cbn [fmap option_fmap option_map]. unfold LockedGameState.players.
    cbn [LockedGameState.guard]. by rewrite Hgs.
Qed.

Lemma abs_lock_player_state id :
  abs (StorageHandle.lock_player_state id w).1 = (Lobby.lease_player id (abs w)).1 /\
  LockedPlayerState.joined_game_id (StorageHandle.lock_player_state id w).2
    (StorageHandle.lock_player_state id w).1 = (Lobby.lease_player id (abs w)).2.
Proof.
  unfold StorageHandle.lock_player_state, Lobby.lease_player, LockedPlayerState.joined_game_id.
  rewrite abs_joined. destruct (StorageState.players _ !! id) as [l|] eqn:Hl; cbn [mbind option_bind].
  - destruct (wf_players _ _ Hw _ _ Hl) as [ps Hps]. rewrite Hps. cbn [fmap option_fmap option_map].
    cbn [fst snd LockedPlayerState.guard]. by rewrite Hps.
  - cbn [fst snd LockedPlayerState.guard]. split; [|by store_simpl; rewrite lookup_insert_eq].
    apply lobby_eq; intros id'; store_simpl; [by rewrite !abs_games|].
    destruct (decide (id' = id)) as [->|Hne].
    + rewrite abs_joined; store_simpl. rewrite !lookup_insert_eq. cbn [mbind option_bind].
      by rewrite lookup_insert_eq.
    + rewrite abs_joined; store_simpl. rewrite !lookup_insert_ne, abs_joined by congruence.
      destruct (StorageState.players _ !! id') as [l|] eqn:Hl'; cbn [mbind option_bind]; [|done].
      rewrite lookup_insert_ne; [done|]. by apply not_eq_sym, (indexed_player_not_next id').
Qed.

(** A write through a current player guard acts as [alter] at its id. *)
Lemma abs_modify_player g f (F : option Z -> option Z) :
  player_current g w ->
  (forall ps, Heap.pcells (Store.heap w) !! LockedPlayerState.guard g = Some ps ->
              PlayerState.game_id (f ps) = F (PlayerState.game_id ps)) ->
  abs (Store.mk (Store.index w) (Heap.modify_player f (LockedPlayerState.guard g) (Store.heap w))) =
  Lobby.mk (Lobby.games (abs w)) (alter F (LockedPlayerState.id g) (Lobby.joined (abs w))).
Proof.
  intros Hc HF. apply lobby_eq; intros id'; store_simpl; [by rewrite !abs_games|].
  destruct (decide (id' = LockedPlayerState.id g)) as [->|Hne].
  - rewrite abs_joined; store_simpl. rewrite lookup_alter_eq, abs_joined, Hc. cbn [mbind option_bind].
    rewrite lookup_alter_eq. destruct (Heap.pcells _ !! _) as [ps|] eqn:Hps; [|done].
    simpl. by rewrite HF.
  - rewrite abs_joined; store_simpl. rewrite lookup_alter_ne, abs_joined by congruence.
    destruct (StorageState.players _ !! id') as [l|] eqn:Hl; cbn [mbind option_bind]; [|done].
    rewrite lookup_alter_ne; [done|]. intros Heq. apply Hne. subst l.
    exact (wf_players_inj _ _ Hw _ _ _ Hl Hc).
Qed.

Lemma abs_join_game g gid :
  player_current g w ->
  abs (LockedPlayerState.join_game g gid w) = Lobby.set_joined (LockedPlayerState.id g) (Some gid) (abs w).
Proof. intros Hc. by apply abs_modify_player. Qed.

Lemma abs_leave_game g :
  player_current g w ->
  abs (LockedPlayerState.leave_game g w) = Lobby.set_joined (LockedPlayerState.id g) None (abs w).
Proof. intros Hc. by apply abs_modify_player. Qed.

(** The count cache holds the member count of every indexed game. *)
Lemma counts_member_count id :
  is_Some (Lobby.games (abs w) !! id) ->
  StorageState.game_num_players (Store.index w) !! id = Lobby.member_count id (abs w).
Proof.
  unfold Lobby.member_count. rewrite abs_games. intros Hs.
  destruct (StorageState.games _ !! id) as [l|] eqn:Hl; cbn [mbind option_bind] in *; [|by destruct Hs].
  destruct (Heap.gcells _ !! l) as [gs|] eqn:Hgs; [|by destruct Hs].
  by rewrite (wf_count _ _ Hw _ _ _ Hl Hgs).
Qed.

(** A current guard names an indexed session (resp. player) of [abs]. *)
Lemma abs_game_current g :
  game_current g w ->
  exists gs, Lobby.games (abs w) !! LockedGameState.id g = Some (game_view gs) /\
             LockedGameState.players g w = GameState.players gs.
Proof.
  intros Hc. destruct (game_current_cell g w Hw Hc) as (gs & Hgs & Hps).
  exists gs. split; [|done]. by rewrite abs_games, Hc; cbn [mbind option_bind]; rewrite Hgs.
Qed.

Lemma abs_player_current g :
  player_current g w -> is_Some (Lobby.joined (abs w) !! LockedPlayerState.id g).
Proof.
  intros Hc. rewrite abs_joined, Hc. cbn [mbind option_bind].
  destruct (wf_players _ _ Hw _ _ Hc) as [ps Hps]. rewrite Hps. by eexists.
Qed.

End Refinement.

(** ** The store as a labelled transition system *)

(** A call of the store under the callers' contract, labelled with the
    call (guards named by their id) and the result the caller reads: the
    warning of [register_game], the game of the player [lock_player_state]
    returns, the members of the game [lock_game_state] returns. *)
Inductive lstep : Lobby.op -> Lobby.obs -> Store.t -> Store.t -> Prop :=
| lstep_register id ps w :
    NoDup ps -> vec_len ps <= vec_max_len ->
    lstep (Lobby.ORegister id ps) (Lobby.OWarned (StorageHandle.register_game id ps w).2)
      w (StorageHandle.register_game id ps w).1
| lstep_lease_player id w :
    lstep (Lobby.OLeasePlayer id)
      (Lobby.OJoined (LockedPlayerState.joined_game_id (StorageHandle.lock_player_state id w).2
                        (StorageHandle.lock_player_state id w).1))
      w (StorageHandle.lock_player_state id w).1
| lstep_lease_game id w :
    lstep (Lobby.OLeaseGame id)
      (Lobby.OMembers ((fun g => LockedGameState.players g (StorageHandle.lock_game_state id w).1) <$>
                         (StorageHandle.lock_game_state id w).2))
      w (StorageHandle.lock_game_state id w).1
| lstep_join g gid w :
    player_current g w ->
    lstep (Lobby.OJoin (LockedPlayerState.id g) gid) Lobby.ONone w (LockedPlayerState.join_game g gid w)
| lstep_leave g w :
    player_current g w ->
    lstep (Lobby.OLeave (LockedPlayerState.id g)) Lobby.ONone w (LockedPlayerState.leave_game g w)
| lstep_add g p w :
    game_current g w -> vec_len (LockedGameState.players g w) < vec_max_len ->
    lstep (Lobby.OAdd (LockedGameState.id g) p) Lobby.ONone w (LockedGameState.add_player g p w)
| lstep_remove g p w :
    game_current g w -> LockedGameState.has_player g p w = true ->
    lstep (Lobby.ORemove (LockedGameState.id g) p) Lobby.ONone w (LockedGameState.remove_player g p w)
| lstep_close g w :
    game_current g w -> lstep (Lobby.OClose (LockedGameState.id g)) Lobby.ONone w (LockedGameState.close g w).

(** A run: the calls made, in order, and what each returned. *)
Inductive lsteps : list Lobby.op -> list Lobby.obs -> Store.t -> Store.t -> Prop :=
| lsteps_nil w : lsteps [] [] w w
| lsteps_cons o r os rs w1 w2 w3 :
    lstep o r w1 w2 -> lsteps os rs w2 w3 -> lsteps (o :: os) (r :: rs) w1 w3.

(** Forgetting the labels gives the contract steps of [Handle]. *)
Lemma lstep_step o r w w' : lstep o r w w' -> step w w'.
Proof. destruct 1; eauto using step. Qed.

(** One call acts on [abs] as the specification's call and returns what
    the specification returns. *)
Lemma lstep_refines o r w w' : store_wf w -> lstep o r w w' -> Lobby.exec o (abs w) = (abs w', r).
Proof.
  intros Hw Hs. destruct Hs as [id ps w| id w| id w| g gid w Hc| g w Hc| g p w Hc _| g p w Hc _| g w Hc];
    cbn [Lobby.exec].
  - by rewrite abs_register_game, abs_register_warned.
  - destruct (abs_lock_player_state w Hw id) as [H1 H2].
    destruct (Lobby.lease_player id (abs w)) as [a g]. cbn [fst snd] in H1, H2. by rewrite H1, H2.
  - destruct (abs_lock_game_state w Hw id) as [H1 H2].
    destruct (Lobby.lease_game id (abs w)) as [a ms]. cbn [fst snd] in H1, H2. by rewrite H1, H2.
  - by rewrite abs_join_game.
  - by rewrite abs_leave_game.
  - by rewrite abs_add_player.
  - by rewrite abs_remove_player.
  - by rewrite abs_close.
Qed.

(** C12: refinement of the specification.  From a well-formed store,
    every run of the store's calls under the callers' contract is, read
    through [abs], the run of the same calls in the specification
    [Lobby]: the lobby it ends in is the one the specification computes,
    and every call returns what the specification says it returns. *)
Theorem handle_refines_lobby w os rs w' :
  store_wf w -> lsteps os rs w w' -> Lobby.run os (abs w) = (abs w', rs).
Proof.
  intros Hw Hr. induction Hr as [w|o r os rs w1 w2 w3 Hs _ IH]; [done|].
  cbn [Lobby.run]. rewrite (lstep_refines o r w1 w2 Hw Hs).
  rewrite IH; [done|]. exact (step_wf _ _ (lstep_step _ _ _ _ Hs) Hw).
Qed.

(** ** Witness *)

(** Game 8 is registered with member 4 in the example store, leased, given
    member 5 and closed; the next lease finds it closed. *)
Definition demo_ops : list Lobby.op :=
  [Lobby.ORegister 8 [4]; Lobby.OLeaseGame 8; Lobby.OAdd 8 5; Lobby.OClose 8; Lobby.OLeaseGame 8].

Definition demo_obs : list Lobby.obs :=
  [Lobby.OWarned false; Lobby.OMembers (Some [4]); Lobby.ONone; Lobby.ONone; Lobby.OMembers None].

Definition demo_guard : LockedGameState.t := LockedGameState.mk 8 4.

Definition demo_registered : Store.t := (StorageHandle.register_game 8 [4] seed_store).1.

Definition demo_closed : Store.t :=
  LockedGameState.close demo_guard (LockedGameState.add_player demo_guard 5 demo_registered).

Definition demo_end : Store.t := (StorageHandle.lock_game_state 8 demo_closed).1.

(** A labelled step, with its label and target given up to computation. *)
Lemma lstep_conv o r r' w w1 w2 : lstep o r w w1 -> r = r' -> w1 = w2 -> lstep o r' w w2.
Proof. by intros ? -> ->. Qed.

Lemma demo_lsteps : lsteps demo_ops demo_obs seed_store demo_end.
Proof.
  apply (lsteps_cons _ _ _ _ _ demo_registered).
  { eapply lstep_conv; [apply lstep_register; [repeat constructor; set_solver|vec_bound]|reflexivity..]. }
  apply (lsteps_cons _ _ _ _ _ demo_registered).
  { eapply lstep_conv; [apply lstep_lease_game|vm_compute; reflexivity..]. }
  apply (lsteps_cons _ _ _ _ _ (LockedGameState.add_player demo_guard 5 demo_registered)).
  { apply (lstep_add demo_guard); vm_compute; reflexivity. }
  apply (lsteps_cons _ _ _ _ _ demo_closed).
  { apply (lstep_close demo_guard); vm_compute; reflexivity. }
  apply (lsteps_cons _ _ _ _ _ demo_end); [|constructor].
  eapply lstep_conv; [apply lstep_lease_game|vm_compute; reflexivity|reflexivity].
Qed.

Lemma handle_refines_lobby_witness :
  store_wf seed_store /\ lsteps demo_ops demo_obs seed_store demo_end /\
  Lobby.run demo_ops (abs seed_store) = (abs demo_end, demo_obs).
Proof.
  split; [exact seed_store_wf|]. split; [exact demo_lsteps|].
  exact (handle_refines_lobby _ _ _ _ seed_store_wf demo_lsteps).
Defined.
