(* ===== verification/Independence.v ===== *)
(** Independence of tasks that hold different entities.

    The specification's first promise (§1, §5) is that operations on
    different players or different games proceed in parallel: two tasks
    that each hold an entity mutex may both write without coordinating.
    In the interleaving semantics of [Concurrency] this is a diamond: the
    next steps of two such tasks commute, whichever runs first, and end in
    the same configuration.

    The step of a task that holds a mutex is described by [held_step]: the
    next program counter, the one write [Fx] it makes to the store, and
    whether it drops the guard.  [run_task_held] shows that this is what
    [run_task] does; the writes of two tasks on different cells commute
    ([apply_fx_commute]), and neither changes what the other decides
    ([held_step_apply_fx]).  The count-cache writes of two holders commute
    even for the same game id (an orphaned guard and the guard of the game
    that replaced it), because wrapping increments and decrements commute. *)

From S2P Require Import Prelude Records Index Handle Concurrency.

Local Open Scope Z_scope.

(** One write to the store. *)
Inductive Fx :=
| FxNone
| FxPlayer (l : loc) (f : PlayerState.t -> PlayerState.t)
| FxGame (l : loc) (f : GameState.t -> GameState.t)
| FxPurge (id : Z)
| FxCount (id : Z) (d : Delta).

Definition apply_fx (x : Fx) (w : Store.t) : Store.t :=
  match x with
  | FxNone => w
  | FxPlayer l f => Store.mk (Store.index w) (Heap.modify_player f l (Store.heap w))
  | FxGame l f => Store.mk (Store.index w) (Heap.modify_game f l (Store.heap w))
  | FxPurge id =>
      let s := Store.index w in
      Store.mk (StorageState.mk (StorageState.players s) (delete id (StorageState.games s))
                  (StorageState.game_num_players s)) (Store.heap w)
  | FxCount id d => apply_delta d id w
  end.

(** The game cell a write touches. *)
Definition fx_game_cell (x : Fx) : option loc :=
  match x with FxGame l _ => Some l | _ => None end.

(** The player cell a write touches. *)
Definition fx_player_cell (x : Fx) : option loc :=
  match x with FxPlayer l _ => Some l | _ => None end.

(** The step of a task that holds a mutex: the next program counter, the
    write, and whether the guard is dropped. *)
Definition held_step (pc : Pc) (w : Store.t) : option (Pc * Fx * bool) :=
  match pc with
  | HoldPlayer id l [] => Some (Done, FxNone, true)
  | HoldPlayer id l (JoinGame gid :: ops) =>
      Some (HoldPlayer id l ops, FxPlayer l (PlayerState.set_game_id (Some gid)), false)
  | HoldPlayer id l (LeaveGame :: ops) =>
      Some (HoldPlayer id l ops, FxPlayer l (PlayerState.set_game_id None), false)
  | Purge id l => Some (Done, FxPurge id, true)
  | HoldGame id l [] => Some (Done, FxNone, true)
  | HoldGame id l (AddPlayer p :: ops) =>
      if vec_contains (LockedGameState.players (LockedGameState.mk id l) w) p
      then Some (HoldGame id l ops, FxNone, false)
      else Some (CountGame id l Incr ops,
                 FxGame l (fun gs => GameState.set_players (vec_push (GameState.players gs) p) gs), false)
  | HoldGame id l (RemovePlayer p :: ops) =>
      Some (CountGame id l Decr ops,
            FxGame l (fun gs => GameState.set_players (vec_retain_ne (GameState.players gs) p) gs), false)
  | HoldGame id l (Close :: ops) => Some (HoldGame id l ops, FxGame l GameState.set_closed, false)
  | CountGame id l d ops => Some (HoldGame id l ops, FxCount id d, false)
  | _ => None
  end.

Definition drop_if (r : bool) (l : loc) (o : gmap loc task_id) : gmap loc task_id :=
  if r then delete l o else o.

(** ** The step of a holder *)

(** Case analysis on a program counter, down to the first guard operation. *)
Ltac destruct_held pc :=
  destruct pc as [?|? ? ?|? ? [|[?|] ?]|? ? ?|? ?|? ? [|[?|?|] ?]|? ? ? ?|? ?|].

Lemma held_step_holds pc w : is_Some (holds pc) -> is_Some (held_step pc w).
Proof.
  destruct_held pc; cbn; intros [? Hl]; try discriminate;
    repeat case_match; eauto.
Qed.

Lemma held_step_cells pc w pc' x r l :
  holds pc = Some l -> held_step pc w = Some (pc', x, r) ->
  (forall l', fx_game_cell x = Some l' -> l' = l) /\ (forall l', fx_player_cell x = Some l' -> l' = l).
Proof.
  intros Hl Hs. destruct_held pc; cbn in Hl, Hs; simplify_eq;
    repeat case_match; simplify_eq; split; intros ? [=]; congruence.
Qed.

Lemma run_task_held t pc c pc' x r l :
  holds pc = Some l -> held_step pc (store c) = Some (pc', x, r) ->
  run_task t pc c = Some (mkConfig (apply_fx x (store c)) (drop_if r l (owner c)) (<[t := pc']> (tasks c))).
Proof.
  intros Hl Hs. destruct_held pc; cbn in Hl, Hs; simplify_eq; cbn;
    unfold push_member; repeat case_match; simplify_eq; by destruct c.
Qed.

(** ** Writes on different cells commute *)

Lemma apply_delta_commute d1 d2 id1 id2 w :
  apply_delta d1 id1 (apply_delta d2 id2 w) = apply_delta d2 id2 (apply_delta d1 id1 w).
Proof.
  unfold apply_delta. cbn [Store.index Store.heap StorageState.players StorageState.games
                           StorageState.game_num_players].
  do 2 f_equal. destruct (decide (id1 = id2)) as [<-|Hne]; [|by apply alter_alter_ne].
  rewrite !alter_alter_eq. apply alter_ext. intros v _.
  destruct d1, d2; cbn; rewrite ?usize_add_sub_comm; reflexivity.
Qed.

Lemma apply_fx_commute x1 x2 w :
  (forall l, fx_game_cell x1 = Some l -> fx_game_cell x2 <> Some l) ->
  (forall l, fx_player_cell x1 = Some l -> fx_player_cell x2 <> Some l) ->
  apply_fx x1 (apply_fx x2 w) = apply_fx x2 (apply_fx x1 w).
Proof.
  intros Hg Hp. destruct x1 as [|l1 f1|l1 f1|id1|id1 d1], x2 as [|l2 f2|l2 f2|id2|id2 d2];
    cbn [apply_fx]; try reflexivity; try apply apply_delta_commute;
    unfold apply_delta, Heap.modify_player, Heap.modify_game;
    cbn [Store.index Store.heap StorageState.players StorageState.games StorageState.game_num_players
         Heap.pcells Heap.gcells Heap.next]; try reflexivity.
  - rewrite alter_alter_ne; [done|]. intros ->. by apply (Hp l2).
  - rewrite alter_alter_ne; [done|]. intros ->. by apply (Hg l2).
  - by rewrite delete_delete.
Qed.

(** A write that leaves the game cell [l] alone leaves its members alone. *)
Lemma players_apply_fx x id l w :
  fx_game_cell x <> Some l ->
  LockedGameState.players (LockedGameState.mk id l) (apply_fx x w) =
  LockedGameState.players (LockedGameState.mk id l) w.
Proof.
  intros Hx. unfold LockedGameState.players. cbn [LockedGameState.guard].
  destruct x as [|l1 f1|l1 f1|id1|id1 d1]; cbn [apply_fx]; try reflexivity.
  unfold Heap.modify_game. cbn [Store.heap Heap.gcells].
  rewrite lookup_alter_ne; [done|]. intros ->. by apply Hx.
Qed.

Lemma held_step_apply_fx pc w x l :
  holds pc = Some l -> fx_game_cell x <> Some l -> held_step pc (apply_fx x w) = held_step pc w.
Proof.
  intros Hl Hx. destruct_held pc; cbn in Hl |- *; simplify_eq; try reflexivity.
  by rewrite players_apply_fx.
Qed.

Lemma drop_if_commute r1 r2 l1 l2 (o : gmap loc task_id) :
  drop_if r1 l1 (drop_if r2 l2 o) = drop_if r2 l2 (drop_if r1 l1 o).
Proof. destruct r1, r2; cbn; try reflexivity. apply delete_delete. Qed.

(** Two different tasks that hold mutexes in a reachable configuration
    hold different cells. *)
Lemma holders_distinct w c t1 t2 pc1 pc2 l1 l2 :
  rtc cstep (init_config w) c -> t1 <> t2 ->
  tasks c !! t1 = Some pc1 -> tasks c !! t2 = Some pc2 ->
  holds pc1 = Some l1 -> holds pc2 = Some l2 -> l1 <> l2.
Proof.
  intros Hr Ht H1 H2 Hl1 Hl2 ->. pose proof (rtc_lock_inv _ _ Hr (lock_inv_init w)) as Hinv.
  pose proof (inv_held _ Hinv _ _ _ H1 Hl1). pose proof (inv_held _ Hinv _ _ _ H2 Hl2). congruence.
Qed.

(** The step of a holder after another holder's write. *)
Lemma run_task_held_after t pc c x' l pc' x r :
  holds pc = Some l -> fx_game_cell x' <> Some l ->
  held_step pc (store c) = Some (pc', x, r) ->
  forall o T, run_task t pc (mkConfig (apply_fx x' (store c)) o T) =
    Some (mkConfig (apply_fx x (apply_fx x' (store c))) (drop_if r l o) (<[t := pc']> T)).
Proof.
  intros Hl Hx Hs o T. apply (run_task_held t pc (mkConfig (apply_fx x' (store c)) o T) pc' x r l Hl).
  cbn [store].
  by rewrite (held_step_apply_fx pc (store c) x' l Hl Hx).
Qed.

(** C28: independence.  In every configuration reachable from a store,
    two different tasks that each hold an entity mutex can both take
    their next step in either order, and both orders end in the same
    configuration: operations on different entities proceed in parallel
    without coordination.  This holds for every kind of step a holder
    takes (a guard operation, a count-cache write, the purge, the drop),
    including two count-cache writes for the same game id. *)
Theorem holders_commute w c t1 t2 pc1 pc2 :
  rtc cstep (init_config w) c -> t1 <> t2 ->
  tasks c !! t1 = Some pc1 -> tasks c !! t2 = Some pc2 ->
  is_Some (holds pc1) -> is_Some (holds pc2) ->
  exists c1 c2 c',
    run_task t1 pc1 c = Some c1 /\ run_task t2 pc2 c1 = Some c' /\
    run_task t2 pc2 c = Some c2 /\ run_task t1 pc1 c2 = Some c'.
Proof.
  intros Hr Ht H1 H2 [l1 Hl1] [l2 Hl2].
  pose proof (holders_distinct w c t1 t2 pc1 pc2 l1 l2 Hr Ht H1 H2 Hl1 Hl2) as Hne.
  destruct (held_step_holds pc1 (store c)) as [[[p1 x1] r1] Hs1]; [by eexists|].
  destruct (held_step_holds pc2 (store c)) as [[[p2 x2] r2] Hs2]; [by eexists|].
  destruct (held_step_cells _ _ _ _ _ _ Hl1 Hs1) as [Hg1 Hp1].
  destruct (held_step_cells _ _ _ _ _ _ Hl2 Hs2) as [Hg2 Hp2].
  assert (Hx1 : fx_game_cell x1 <> Some l2) by (intros Hc; apply Hne; symmetry; by apply Hg1).
  assert (Hx2 : fx_game_cell x2 <> Some l1) by (intros Hc; apply Hne; by apply Hg2).
  eexists _, _, _. split; [by apply (run_task_held t1 pc1 c p1 x1 r1 l1)|].
  split; [exact (run_task_held_after t2 pc2 c x1 l2 p2 x2 r2 Hl2 Hx1 Hs2 _ _)|].
  split; [by apply (run_task_held t2 pc2 c p2 x2 r2 l2)|].
  rewrite (run_task_held_after t1 pc1 c x2 l1 p1 x1 r1 Hl1 Hx2 Hs1).
  f_equal. f_equal.
  - apply apply_fx_commute; intros l Hl Hl'.
    + apply Hne. by rewrite <- (Hg1 l Hl), <- (Hg2 l Hl').
    + apply Hne. by rewrite <- (Hp1 l Hl), <- (Hp2 l Hl').
  - apply drop_if_commute.
  - by apply insert_insert_ne.
Qed.

(** Witness: in [contention_config], task 0 holds game 7; a third task
    leasing player 1 reaches [HoldPlayer] next to it. *)
Definition independence_schedule : list Event :=
  [Spawn 0 (LeaseGame 7 [Close]); Run 0; Run 0; Spawn 2 (LeasePlayer 1 [LeaveGame]); Run 2; Run 2].

Definition independence_config : Config :=
  from_option (fun c => c) (init_config seed_store)
    (run_schedule independence_schedule (init_config seed_store)).

Lemma holders_commute_witness :
  exists c1 c2 c',
    run_task 0 (HoldGame 7 3 [Close]) independence_config = Some c1 /\
    run_task 2 (HoldPlayer 1 1 [LeaveGame]) c1 = Some c' /\
    run_task 2 (HoldPlayer 1 1 [LeaveGame]) independence_config = Some c2 /\
    run_task 0 (HoldGame 7 3 [Close]) c2 = Some c'.
Proof.
  apply (holders_commute seed_store independence_config 0 2).
  - apply (run_schedule_rtc independence_schedule). vm_compute. reflexivity.
  - discriminate.
  - vm_compute. reflexivity.
  - vm_compute. reflexivity.
  - by eexists.
  - by eexists.
Defined.
