(* ===== verification/PlayerLeases.v ===== *)
(** Player leases serialize.

    [lock_player_state] finds or creates the player's record under the
    write lock of the coarse index ([entry(id).or_insert_with(..)]), and
    no operation ever removes or replaces an entry of [players].  So the
    player index only grows, every task that leases a player waits on or
    holds the cell the index names for that id, and, the cell's mutex
    being exclusive, two tasks never hold leases on the same player at the
    same time, in any interleaving.  The game index has no such property:
    [register_game] replaces cells and the lazy purge removes ids (see
    [register_orphans_guard] and [purge_race_loses_registration]). *)

From S2P Require Import Prelude Records Index Handle Concurrency.

Local Open Scope Z_scope.

Definition players_of (c : Config) : gmap Z loc := StorageState.players (Store.index (store c)).

(** The player a task leases, and the cell it waits on or holds. *)
Definition player_pc (pc : Pc) : option (Z * loc) :=
  match pc with
  | AwaitPlayer id l _ | HoldPlayer id l _ => Some (id, l)
  | _ => None
  end.

(** Every player lease in progress is on the cell the index names. *)
Definition player_leases_indexed (c : Config) : Prop :=
  forall t pc id l, tasks c !! t = Some pc -> player_pc pc = Some (id, l) -> players_of c !! id = Some l.

(** One index only grows into another. *)
Definition grows (m m' : gmap Z loc) : Prop := forall id l, m !! id = Some l -> m' !! id = Some l.

(** ** What one step does to the player index *)

Lemma lock_player_state_players id w :
  StorageState.players (Store.index (StorageHandle.lock_player_state id w).1) !! id =
    Some (LockedPlayerState.guard (StorageHandle.lock_player_state id w).2) /\
  grows (StorageState.players (Store.index w))
        (StorageState.players (Store.index (StorageHandle.lock_player_state id w).1)).
Proof.
  unfold StorageHandle.lock_player_state; cbv zeta. destruct (StorageState.players (Store.index w) !! id) as [l|] eqn:Hl.
  - cbn. split; [done|]. by intros ??.
  - cbn. split; [by rewrite lookup_insert_eq|]. intros id' l' Hid'.
    rewrite lookup_insert_ne; [done|]. congruence.
Qed.

(** A step of [t] leaves the player index as it was, except the first
    step of a player lease, which finds or creates the entry. *)
Lemma run_task_players t pc c c' :
  run_task t pc c = Some c' ->
  (players_of c' = players_of c /\
     forall pc', tasks c' !! t = Some pc' -> forall id l, player_pc pc' = Some (id, l) ->
       player_pc pc = Some (id, l)) \/
  (exists id ops, pc = Start (LeasePlayer id ops) /\ grows (players_of c) (players_of c') /\
     forall pc', tasks c' !! t = Some pc' -> forall id' l, player_pc pc' = Some (id', l) ->
       id' = id /\ players_of c' !! id = Some l).
Proof.
  intros H. destruct pc as [[id ps|id ops|id ops|gs]| | | | | | | |]; cbn [run_task] in H.
  2: { right. exists id, ops. split; [done|].
    destruct (lock_player_state_players id (store c)) as [Hin Hgrow].
    destruct (StorageHandle.lock_player_state id (store c)) as [w' g] eqn:Hlock.
    injection H as <-. unfold players_of. cbn in *. split; [done|].
    intros pc' Hpc' id' l Hp. rewrite lookup_insert_eq in Hpc'. injection Hpc' as <-.
    cbn in Hp. injection Hp as <- <-. done. }
  all: left; unfold push_member in H; repeat (case_match; cbv beta iota zeta in H);
    simplify_eq; unfold players_of; cbn; (split; [reflexivity|]); intros pc' Hpc' id' l' Hp;
    rewrite lookup_insert_eq in Hpc'; injection Hpc' as <-; cbn in Hp |- *; try discriminate; done.
Qed.

(** ** The invariant *)

Lemma player_leases_indexed_run t pc c c' :
  player_leases_indexed c -> tasks c !! t = Some pc -> run_task t pc c = Some c' ->
  player_leases_indexed c'.
Proof.
  intros Hinv Ht Hrun. destruct (run_task_shape t pc c c' Hrun) as (pc0 & Htasks & _).
  intros t' pc' id l Ht' Hp.
  destruct (run_task_players t pc c c' Hrun) as [[Heq Hkeep]|(id0 & ops & -> & Hgrow & Hnew)];
    destruct (decide (t' = t)) as [->|Hne].
  - rewrite Heq. apply (Hinv t pc); [done|]. by apply (Hkeep pc').
  - rewrite Heq. apply (Hinv t' pc'); [|done]. by rewrite Htasks, lookup_insert_ne in Ht'.
  - by destruct (Hnew pc' Ht' id l Hp) as [-> ?].
  - apply Hgrow, (Hinv t' pc'); [|done]. by rewrite Htasks, lookup_insert_ne in Ht'.
Qed.

(** A counter that leases no player keeps the invariant. *)
Lemma player_leases_indexed_set_pc t pc c :
  player_leases_indexed c -> player_pc pc = None -> player_leases_indexed (set_pc t pc c).
Proof.
  intros Hinv Hpc t' pc' id l Ht' Hp. unfold set_pc in Ht'. cbn in Ht'.
  destruct (decide (t' = t)) as [->|Hne].
  - rewrite lookup_insert_eq in Ht'. congruence.
  - rewrite lookup_insert_ne in Ht' by done. exact (Hinv t' pc' id l Ht' Hp).
Qed.

Lemma player_leases_indexed_step c c' : player_leases_indexed c -> cstep c c' -> player_leases_indexed c'.
Proof.
  intros Hinv Hs. inversion Hs as [t pc c0 c1 Ht Hrun|t r c0 Ht|t pc c0 Ht Ha]; subst;
    [eauto using player_leases_indexed_run|by apply player_leases_indexed_set_pc..].
Qed.

Lemma rtc_player_leases_indexed c c' : rtc cstep c c' -> player_leases_indexed c -> player_leases_indexed c'.
Proof. induction 1; eauto using player_leases_indexed_step. Qed.

Lemma player_leases_indexed_init w : player_leases_indexed (init_config w).
Proof. intros t pc id l Ht. unfold init_config in Ht. cbn in Ht. by rewrite lookup_empty in Ht. Qed.

Lemma cstep_players_grow c c' : cstep c c' -> grows (players_of c) (players_of c').
Proof.
  intros Hs. inversion Hs as [t pc c0 c1 Ht Hrun|t r c0 Ht|t pc c0 Ht Ha]; subst; [|by intros ??..].
  destruct (run_task_players t pc c c' Hrun) as [[-> _]|(_ & _ & _ & Hgrow & _)]; [by intros ??|done].
Qed.

(** C29: the player index only grows.  Along every interleaving of the
    store's callers, an entry [players[id] = l] once present stays, with
    the same cell: no operation removes or replaces a player's record,
    and [lock_player_state] only adds the records it creates. *)
Theorem player_index_grows c c' :
  rtc cstep c c' -> grows (players_of c) (players_of c').
Proof.
  induction 1 as [|c1 c2 c3 Hs _ IH]; [by intros ??|].
  intros id l Hl. apply IH, (cstep_players_grow c1 c2 Hs), Hl.
Qed.

(** C30: player leases serialize.  In every configuration reachable from
    a store, two tasks that lease the same player id wait on or hold the
    same cell, and two different tasks never both hold it: every
    operation on one player runs under one mutex. *)
Theorem player_leases_serialize w c t1 t2 pc1 pc2 id l1 l2 :
  rtc cstep (init_config w) c ->
  tasks c !! t1 = Some pc1 -> tasks c !! t2 = Some pc2 ->
  player_pc pc1 = Some (id, l1) -> player_pc pc2 = Some (id, l2) ->
  l1 = l2 /\ (t1 <> t2 -> holds pc1 = None \/ holds pc2 = None).
Proof.
  intros Hr H1 H2 Hp1 Hp2.
  pose proof (rtc_player_leases_indexed _ _ Hr (player_leases_indexed_init w)) as Hinv.
  pose proof (rtc_lock_inv _ _ Hr (lock_inv_init w)) as Hlock.
  assert (l1 = l2) as <- by (pose proof (Hinv _ _ _ _ H1 Hp1); pose proof (Hinv _ _ _ _ H2 Hp2); congruence).
  split; [done|]. intros Hne.
  destruct (holds pc1) as [m1|] eqn:Hh1; [|by left]. destruct (holds pc2) as [m2|] eqn:Hh2; [|by right].
  exfalso. apply Hne.
  assert (m1 = l1) as -> by (destruct pc1; cbn in Hp1, Hh1; congruence).
  assert (m2 = l1) as -> by (destruct pc2; cbn in Hp2, Hh2; congruence).
  pose proof (inv_held _ Hlock _ _ _ H1 Hh1). pose proof (inv_held _ Hlock _ _ _ H2 Hh2). congruence.
Qed.

(** ** Witnesses *)

(** Task 0 holds player 1 of the example store; task 1 waits for it. *)
Definition player_contention_schedule : list Event :=
  [Spawn 0 (LeasePlayer 1 [LeaveGame]); Run 0; Run 0; Spawn 1 (LeasePlayer 1 []); Run 1].

Definition player_contention_config : Config :=
  from_option (fun c => c) (init_config seed_store)
    (run_schedule player_contention_schedule (init_config seed_store)).

Lemma player_contention_reachable : rtc cstep (init_config seed_store) player_contention_config.
Proof. apply (run_schedule_rtc player_contention_schedule). vm_compute. reflexivity. Qed.

Lemma player_index_grows_witness :
  rtc cstep (init_config seed_store) player_contention_config /\
  players_of player_contention_config !! 1 = Some 1%positive.
Proof.
  split; [exact player_contention_reachable|].
  apply (player_index_grows (init_config seed_store) player_contention_config player_contention_reachable).
  vm_compute. reflexivity.
Defined.

Lemma player_leases_serialize_witness :
  (1 = 1)%positive /\ (0%nat <> 1%nat -> holds (HoldPlayer 1 1 [LeaveGame]) = None \/ holds (AwaitPlayer 1 1 []) = None).
Proof.
  apply (player_leases_serialize seed_store player_contention_config 0 1
           (HoldPlayer 1 1 [LeaveGame]) (AwaitPlayer 1 1 []) 1 1 1 player_contention_reachable);
    vm_compute; reflexivity.
Defined.
