(* ===== verification/Contract.v ===== *)
(** The count cache under interleaving, for callers that keep the contract.

    [Handle] proves the count-cache consistency of the specification (§3,
    §8) for sequential callers that keep its contract.  Here the callers
    run concurrently, in the semantics of [Concurrency], and keep the
    contract at the step that performs each operation ([contract_ok]): a
    game is registered only under an id the index does not hold (never
    overwriting, so no guard is orphaned by [register_game]), with a
    member list without duplicates that fits a [Vec]; a member is removed
    only if present; one is added only while the list can grow.

    Two results.  Without closures, every configuration reachable under the
    contract has a well-formed store once the count writes still pending
    (a task between its member-list write and its count write) are done;
    with no write pending, the count of every indexed game is the length
    of its member list.  With closures it fails: the lazy purge of a
    stale lease removes a later registration of the same id, whose lease
    is left orphaned and moves the count of the next registration. *)

From S2P Require Import Prelude Records Index Handle Concurrency Independence.

Local Open Scope Z_scope.

(** The contract, checked when the step runs. *)
Definition contract_ok (pc : Pc) (w : Store.t) : bool :=
  match pc with
  | Start (RegisterGame id ps) =>
      bool_decide (StorageState.games (Store.index w) !! id = None) &&
      bool_decide (NoDup ps) && bool_decide (vec_len ps <= vec_max_len)
  | HoldGame id l (AddPlayer p :: _) =>
      bool_decide (vec_len (LockedGameState.players (LockedGameState.mk id l) w) < vec_max_len)
  | HoldGame id l (RemovePlayer p :: _) =>
      LockedGameState.has_player (LockedGameState.mk id l) p w
  | _ => true
  end.

(** The interleavings of callers that keep the contract. *)
Inductive ccstep : Config -> Config -> Prop :=
| ccstep_run t pc c c' :
    tasks c !! t = Some pc -> contract_ok pc (store c) = true -> run_task t pc c = Some c' ->
    ccstep c c'
| ccstep_spawn t r c : tasks c !! t = None -> ccstep c (set_pc t (Start r) c)
| ccstep_abandon t pc c :
    tasks c !! t = Some pc -> awaiting pc = true -> ccstep c (set_pc t Done c).

(** Schedules under the contract: a step that would break it is refused. *)
Definition cevent_step (e : Event) (c : Config) : option Config :=
  match e with
  | Run t => tasks c !! t ≫= fun pc => if contract_ok pc (store c) then run_task t pc c else None
  | _ => event_step e c
  end.

Fixpoint run_cschedule (es : list Event) (c : Config) : option Config :=
  match es with
  | [] => Some c
  | e :: es => cevent_step e c ≫= run_cschedule es
  end.

Lemma cevent_step_ccstep e c c' : cevent_step e c = Some c' -> ccstep c c'.
Proof.
  destruct e as [t|t r|t]; cbn [cevent_step event_step].
  - destruct (tasks c !! t) as [pc|] eqn:Ht; cbn [mbind option_bind]; [|done].
    destruct (contract_ok pc (store c)) eqn:Hok; [|done]. eauto using ccstep.
  - destruct (tasks c !! t) eqn:Ht; [done|]. intros [= <-]. by constructor.
  - destruct (tasks c !! t) as [pc|] eqn:Ht; [|done].
    destruct (awaiting pc) eqn:Ha; [|done]. intros [= <-]. eauto using ccstep.
Qed.

Lemma run_cschedule_rtc es c c' : run_cschedule es c = Some c' -> rtc ccstep c c'.
Proof.
  revert c. induction es as [|e es IH]; cbn [run_cschedule]; intros c H; [by injection H as <-|].
  destruct (cevent_step e c) as [c1|] eqn:He; [|done].
  eapply rtc_l; [exact (cevent_step_ccstep e c c1 He) | by apply IH].
Qed.

(** Every contract step is a step of the interleaving semantics. *)
Lemma ccstep_cstep c c' : ccstep c c' -> cstep c c'.
Proof. destruct 1; eauto using cstep. Qed.

(** ** With closures, consistency fails *)

(** Task 0 closes game 7; tasks 1 and 2 look it up; task 2 purges it and
    task 3 registers 7 again; task 4 leases the new game 7 and adds
    player 5, and stops before its count write; task 1, whose lookup was
    stale, purges 7 again, removing task 3's registration; task 5
    registers 7 with member 9; task 4 writes its count and drops its
    guard.  Every registration is under an id the index does not hold. *)
Definition stale_purge_schedule : list Event :=
  [Spawn 0 (LeaseGame 7 [Close]); Run 0; Run 0; Run 0; Run 0;
   Spawn 1 (LeaseGame 7 []); Run 1;
   Spawn 2 (LeaseGame 7 []); Run 2; Run 2; Run 2;
   Spawn 3 (RegisterGame 7 [1; 2]); Run 3;
   Spawn 4 (LeaseGame 7 [AddPlayer 5]); Run 4; Run 4; Run 4;
   Run 1; Run 1;
   Spawn 5 (RegisterGame 7 [9]); Run 5;
   Run 4; Run 4].

(** C8: count-cache consistency (§3, §8) fails under interleaving even
    for callers that keep the contract.  From the example store there is
    an execution under the contract in which every task has finished, game
    7 is indexed with the single member 9, and its cached count is 2. *)
Theorem stale_purge_breaks_count :
  exists c, rtc ccstep (init_config seed_store) c /\
    (forall t pc, tasks c !! t = Some pc -> pc = Done) /\
    exists l, StorageState.games (Store.index (store c)) !! 7 = Some l /\
      Heap.gcells (Store.heap (store c)) !! l = Some (GameState.new [9]) /\
      StorageState.game_num_players (Store.index (store c)) !! 7 = Some 2.
Proof.
  destruct (run_cschedule stale_purge_schedule (init_config seed_store)) as [c|] eqn:E;
    [|vm_compute in E; discriminate].
  exists c. split; [exact (run_cschedule_rtc _ _ _ E)|].
  vm_compute in E. injection E as <-. split.
  - intros t pc. rewrite <- elem_of_map_to_list. vm_compute.
    intros Hin. repeat (apply elem_of_cons in Hin as [[= _ <-]|Hin]; [done|]).
    by apply elem_of_nil in Hin.
  - exists 5%positive. split_and!; reflexivity.
Qed.

(** ** Pending count writes *)

(** The count write a task has left to do between the member-list write
    of [add_player] or [remove_player] and the end of that call. *)
Definition pending (pc : Pc) : option (Z * Delta) :=
  match pc with CountGame id _ d _ => Some (id, d) | _ => None end.

Definition flush_one (pc : Pc) (w : Store.t) : Store.t :=
  match pending pc with Some (id, d) => apply_delta d id w | None => w end.

(** The store once every pending count write is done. *)
Definition flush_counts (T : gmap task_id Pc) (w : Store.t) : Store.t :=
  map_fold (fun _ => flush_one) w T.

Lemma flush_one_commute pc1 pc2 w : flush_one pc1 (flush_one pc2 w) = flush_one pc2 (flush_one pc1 w).
Proof.
  unfold flush_one. destruct (pending pc1) as [[]|], (pending pc2) as [[]|]; try reflexivity.
  apply apply_delta_commute.
Qed.

Lemma flush_counts_split T t pc w :
  T !! t = Some pc -> flush_counts T w = flush_one pc (flush_counts (delete t T) w).
Proof.
  intros Ht. unfold flush_counts. apply (map_fold_delete_L (fun _ => flush_one)); [|done].
  intros. apply flush_one_commute.
Qed.

Lemma flush_counts_insert T t pc w :
  flush_counts (<[t := pc]> T) w = flush_one pc (flush_counts (delete t T) w).
Proof.
  rewrite <- insert_delete_eq. unfold flush_counts.
  apply (map_fold_insert_L (fun _ => flush_one)); [|apply lookup_delete_eq].
  intros. apply flush_one_commute.
Qed.

(** A store change that commutes with every pending write commutes with
    the flush. *)
Lemma flush_counts_comm T (F : Store.t -> Store.t) w :
  (forall t pc w', T !! t = Some pc -> flush_one pc (F w') = F (flush_one pc w')) ->
  flush_counts T (F w) = F (flush_counts T w).
Proof. intros HF. unfold flush_counts. apply (map_fold_comm_acc_strong eq); [solve_proper|done]. Qed.

(** A change of the heap alone commutes with a count write. *)
Lemma apply_delta_heap d id (H : Heap.t -> Heap.t) w :
  apply_delta d id (Store.mk (Store.index w) (H (Store.heap w))) =
  Store.mk (Store.index (apply_delta d id w)) (H (Store.heap (apply_delta d id w))).
Proof. reflexivity. Qed.

Lemma flush_one_heap pc (H : Heap.t -> Heap.t) w :
  flush_one pc (Store.mk (Store.index w) (H (Store.heap w))) =
  Store.mk (Store.index (flush_one pc w)) (H (Store.heap (flush_one pc w))).
Proof. unfold flush_one. by destruct (pending pc) as [[]|]. Qed.

Lemma flush_counts_heap T (H : Heap.t -> Heap.t) w :
  flush_counts T (Store.mk (Store.index w) (H (Store.heap w))) =
  Store.mk (Store.index (flush_counts T w)) (H (Store.heap (flush_counts T w))).
Proof.
  apply (flush_counts_comm T (fun w => Store.mk (Store.index w) (H (Store.heap w)))).
  intros. apply flush_one_heap.
Qed.

(** The flush changes the count cache only. *)
Lemma flush_one_index pc w :
  StorageState.players (Store.index (flush_one pc w)) = StorageState.players (Store.index w) /\
  StorageState.games (Store.index (flush_one pc w)) = StorageState.games (Store.index w) /\
  Store.heap (flush_one pc w) = Store.heap w.
Proof. unfold flush_one. by destruct (pending pc) as [[]|]. Qed.

Lemma flush_counts_index T w :
  StorageState.players (Store.index (flush_counts T w)) = StorageState.players (Store.index w) /\
  StorageState.games (Store.index (flush_counts T w)) = StorageState.games (Store.index w) /\
  Store.heap (flush_counts T w) = Store.heap w.
Proof.
  induction T as [|t pc T Hnone IH] using map_ind; [done|].
  rewrite flush_counts_insert, delete_id by done.
  destruct (flush_one_index pc (flush_counts T w)) as (-> & -> & ->). exact IH.
Qed.

Lemma register_apply_delta id ps d i w :
  i <> id ->
  (StorageHandle.register_game id ps (apply_delta d i w)).1 =
  apply_delta d i (StorageHandle.register_game id ps w).1.
Proof.
  intros Hne. unfold StorageHandle.register_game, apply_delta.
  cbn [Store.index Store.heap StorageState.players StorageState.games StorageState.game_num_players].
  destruct (Heap.alloc_game _ _) as [l h]. cbn [fst Store.index StorageState.players
    StorageState.games StorageState.game_num_players Store.heap].
  by rewrite alter_insert_ne by done.
Qed.

Lemma lock_player_state_apply_delta id d i w :
  StorageHandle.lock_player_state id (apply_delta d i w) =
  ((apply_delta d i (StorageHandle.lock_player_state id w).1), (StorageHandle.lock_player_state id w).2).
Proof.
  unfold StorageHandle.lock_player_state, apply_delta.
  cbn [Store.index Store.heap StorageState.players StorageState.games StorageState.game_num_players].
  destruct (StorageState.players (Store.index w) !! id); [done|].
  by destruct (Heap.alloc_player _ _).
Qed.

Lemma flush_one_lock_player pc id w :
  flush_one pc (StorageHandle.lock_player_state id w).1 = (StorageHandle.lock_player_state id (flush_one pc w)).1.
Proof.
  unfold flush_one. destruct (pending pc) as [[i d]|]; [|done].
  by rewrite lock_player_state_apply_delta.
Qed.

Lemma lock_player_state_flush T id w :
  (StorageHandle.lock_player_state id (flush_counts T w)).1 =
  flush_counts T (StorageHandle.lock_player_state id w).1.
Proof.
  symmetry. apply (flush_counts_comm T (fun w => (StorageHandle.lock_player_state id w).1)).
  intros. apply flush_one_lock_player.
Qed.

(** [register_game] commutes with the pending writes of other games. *)
Lemma register_flush T id ps w :
  (forall t pc i d, T !! t = Some pc -> pending pc = Some (i, d) -> i <> id) ->
  (StorageHandle.register_game id ps (flush_counts T w)).1 =
  flush_counts T (StorageHandle.register_game id ps w).1.
Proof.
  intros Hp. symmetry. apply (flush_counts_comm T (fun w => (StorageHandle.register_game id ps w).1)).
  intros t pc w' Ht. unfold flush_one. destruct (pending pc) as [[i d]|] eqn:Hpc; [|done].
  symmetry. apply register_apply_delta. exact (Hp t pc i d Ht Hpc).
Qed.

(** ** Without closures, the store stays well formed *)

Definition ops_no_close (ops : list GameOp) : bool := forallb (fun o => bool_decide (o <> Close)) ops.

Definition req_no_close (r : Req) : bool :=
  match r with LeaseGame _ ops => ops_no_close ops | _ => true end.

(** No task closes a game (and so none purges one). *)
Definition pc_no_close (pc : Pc) : bool :=
  match pc with
  | Start r => req_no_close r
  | AwaitGame _ _ ops | HoldGame _ _ ops | CountGame _ _ _ ops => ops_no_close ops
  | Purge _ _ => false
  | _ => true
  end.

(** The interleavings under the contract of callers that never close a
    game. *)
Inductive ncstep : Config -> Config -> Prop :=
| ncstep_run t pc c c' :
    tasks c !! t = Some pc -> contract_ok pc (store c) = true -> run_task t pc c = Some c' ->
    ncstep c c'
| ncstep_spawn t r c : tasks c !! t = None -> req_no_close r = true -> ncstep c (set_pc t (Start r) c)
| ncstep_abandon t pc c :
    tasks c !! t = Some pc -> awaiting pc = true -> ncstep c (set_pc t Done c).

(** The game a task leases, and the cell it looked up. *)
Definition game_pc (pc : Pc) : option (Z * loc) :=
  match pc with
  | AwaitGame id l _ | HoldGame id l _ | CountGame id l _ _ => Some (id, l)
  | _ => None
  end.

Record ninv (c : Config) : Prop := {
  ni_wf : store_wf (flush_counts (tasks c) (store c));
  ni_games : forall t pc id l, tasks c !! t = Some pc -> game_pc pc = Some (id, l) ->
    StorageState.games (Store.index (store c)) !! id = Some l;
  ni_open : forall l gs, Heap.gcells (Store.heap (store c)) !! l = Some gs -> GameState.closed gs = false;
  ni_noclose : forall t pc, tasks c !! t = Some pc -> pc_no_close pc = true
}.

Lemma pending_game_pc pc i d : pending pc = Some (i, d) -> exists l, game_pc pc = Some (i, l).
Proof. destruct pc; cbn; intros; simplify_eq; eauto. Qed.

Lemma flush_counts_quiet T t pc pc' w :
  T !! t = Some pc -> pending pc = None -> pending pc' = None ->
  flush_counts (<[t := pc']> T) w = flush_counts T w.
Proof.
  intros Ht Hp Hp'. rewrite flush_counts_insert, (flush_counts_split T t pc w Ht).
  unfold flush_one. by rewrite Hp, Hp'.
Qed.

(** A step of [t] that leaves the game index alone and keeps every cell
    open keeps the invariant when the flushed store it leaves is well
    formed and the game the new counter names is indexed. *)
Lemma ninv_same_games c t pc pc' o (w' : Store.t) :
  ninv c -> tasks c !! t = Some pc ->
  StorageState.games (Store.index w') = StorageState.games (Store.index (store c)) ->
  (forall l gs, Heap.gcells (Store.heap w') !! l = Some gs -> GameState.closed gs = false) ->
  store_wf (flush_counts (<[t := pc']> (tasks c)) w') ->
  pc_no_close pc' = true ->
  (forall id l, game_pc pc' = Some (id, l) -> StorageState.games (Store.index (store c)) !! id = Some l) ->
  ninv (mkConfig w' o (<[t := pc']> (tasks c))).
Proof.
  intros [Hwf Hg Ho Hn] Ht Hgames Hopen Hwf' Hnc Hgp. split; cbn [store tasks]; [done| |done|].
  - intros t' pc0 id l Ht' Hpc0. rewrite Hgames. destruct (decide (t' = t)) as [->|Hne].
    + rewrite lookup_insert_eq in Ht'. injection Ht' as <-. by apply Hgp.
    + rewrite lookup_insert_ne in Ht' by done. eauto.
  - intros t' pc0 Ht'. destruct (decide (t' = t)) as [->|Hne].
    + rewrite lookup_insert_eq in Ht'. by injection Ht' as <-.
    + rewrite lookup_insert_ne in Ht' by done. eauto.
Qed.

(** A step that changes only the program counter of [t] and the mutexes,
    with no count write pending before or after. *)
Lemma ninv_quiet c t pc pc' o :
  ninv c -> tasks c !! t = Some pc -> pending pc = None -> pending pc' = None ->
  pc_no_close pc' = true ->
  (forall id l, game_pc pc' = Some (id, l) -> StorageState.games (Store.index (store c)) !! id = Some l) ->
  ninv (mkConfig (store c) o (<[t := pc']> (tasks c))).
Proof.
  intros Hi Ht Hp Hp' Hnc Hgp. apply (ninv_same_games c t pc); try done; [apply (ni_open _ Hi)|].
  rewrite (flush_counts_quiet _ t pc pc') by done. apply (ni_wf _ Hi).
Qed.

Lemma flush_counts_prev T t pc w :
  T !! t = Some pc -> pending pc = None -> flush_counts T w = flush_counts (delete t T) w.
Proof. intros Ht Hp. rewrite (flush_counts_split T t pc w Ht). unfold flush_one. by rewrite Hp. Qed.

Lemma flush_counts_next T t pc' w :
  pending pc' = None -> flush_counts (<[t := pc']> T) w = flush_counts (delete t T) w.
Proof. intros Hp. rewrite flush_counts_insert. unfold flush_one. by rewrite Hp. Qed.

(** The flushed store stays well formed, one operation at a time. *)
Lemma ninv_lease_player_wf T t pc pc' id w :
  T !! t = Some pc -> pending pc = None -> pending pc' = None ->
  store_wf (flush_counts T w) ->
  store_wf (flush_counts (<[t := pc']> T) (StorageHandle.lock_player_state id w).1).
Proof.
  intros Ht Hp Hp' Hwf. rewrite flush_counts_next, <- lock_player_state_flush by done.
  apply lock_player_state_wf. by rewrite <- (flush_counts_prev T t pc).
Qed.

Lemma ninv_heap_wf T t pc pc' (H : Heap.t -> Heap.t) w :
  T !! t = Some pc -> pending pc = None -> pending pc' = None ->
  (forall w0, store_wf w0 -> store_wf (Store.mk (Store.index w0) (H (Store.heap w0)))) ->
  store_wf (flush_counts T w) ->
  store_wf (flush_counts (<[t := pc']> T) (Store.mk (Store.index w) (H (Store.heap w)))).
Proof.
  intros Ht Hp Hp' HH Hwf. rewrite flush_counts_next, flush_counts_heap by done.
  apply HH. by rewrite <- (flush_counts_prev T t pc).
Qed.

(** The member-list write of [add_player] followed by its pending count
    write is [add_player]. *)
Lemma ninv_add_wf T t id l ops ops' p w w' :
  T !! t = Some (HoldGame id l ops) ->
  StorageState.games (Store.index w) !! id = Some l ->
  vec_len (LockedGameState.players (LockedGameState.mk id l) w) < vec_max_len ->
  push_member id l p w = Some w' ->
  store_wf (flush_counts T w) ->
  store_wf (flush_counts (<[t := CountGame id l Incr ops']> T) w').
Proof.
  intros Ht Hg Hlen Hpush Hwf. rewrite (flush_counts_prev T t _ w Ht) in Hwf by done.
  set (fw := flush_counts (delete t T) w) in *.
  destruct (flush_counts_index (delete t T) w) as (Hfp & Hfg & Hfh). fold fw in Hfp, Hfg, Hfh.
  assert (Hpl : LockedGameState.players (LockedGameState.mk id l) fw =
                LockedGameState.players (LockedGameState.mk id l) w)
    by (unfold LockedGameState.players; by rewrite Hfh).
  unfold push_member in Hpush. destruct (vec_contains _ p) eqn:Hin; [done|]. injection Hpush as <-.
  rewrite flush_counts_insert, flush_counts_heap. cbn [flush_one pending]. fold fw.
  replace (apply_delta Incr id _) with (LockedGameState.add_player (LockedGameState.mk id l) p fw).
  - apply add_player_wf; [done| |by rewrite Hpl].
    unfold game_current. cbn [LockedGameState.id LockedGameState.guard]. by rewrite Hfg.
  - rewrite add_player_split. unfold push_member. rewrite Hpl, Hin. reflexivity.
Qed.

Lemma ninv_remove_wf T t id l ops ops' p w :
  T !! t = Some (HoldGame id l ops) ->
  StorageState.games (Store.index w) !! id = Some l ->
  LockedGameState.has_player (LockedGameState.mk id l) p w = true ->
  store_wf (flush_counts T w) ->
  store_wf (flush_counts (<[t := CountGame id l Decr ops']> T) (retain_member l p w)).
Proof.
  intros Ht Hg Hhas Hwf. rewrite (flush_counts_prev T t _ w Ht) in Hwf by done.
  set (fw := flush_counts (delete t T) w) in *.
  destruct (flush_counts_index (delete t T) w) as (Hfp & Hfg & Hfh). fold fw in Hfp, Hfg, Hfh.
  rewrite flush_counts_insert. unfold retain_member. rewrite flush_counts_heap. cbn [flush_one pending].
  fold fw.
  enough (Hr : store_wf (LockedGameState.remove_player (LockedGameState.mk id l) p fw)) by exact Hr.
  apply remove_player_wf; [done| |].
  - unfold game_current. cbn [LockedGameState.id LockedGameState.guard]. by rewrite Hfg.
  - unfold LockedGameState.has_player, LockedGameState.players in *. by rewrite Hfh.
Qed.

Lemma ninv_count_wf T t id l d ops w :
  T !! t = Some (CountGame id l d ops) ->
  store_wf (flush_counts T w) ->
  store_wf (flush_counts (<[t := HoldGame id l ops]> T) (apply_delta d id w)).
Proof.
  intros Ht Hwf. rewrite flush_counts_next by done.
  rewrite (flush_counts_split T t _ w Ht) in Hwf.
  rewrite (flush_counts_comm _ (apply_delta d id)); [exact Hwf|].
  intros t' pc w' _. apply (flush_one_commute pc (CountGame id l d ops)).
Qed.

Lemma ninv_register c t id ps :
  ninv c -> tasks c !! t = Some (Start (RegisterGame id ps)) ->
  contract_ok (Start (RegisterGame id ps)) (store c) = true ->
  ninv (mkConfig (StorageHandle.register_game id ps (store c)).1 (owner c) (<[t := Done]> (tasks c))).
Proof.
  intros [Hwf Hg Ho Hn] Ht Hok. cbn [contract_ok] in Hok.
  apply andb_true_iff in Hok as [Hok Hlen]. apply andb_true_iff in Hok as [Habs Hnd].
  apply bool_decide_eq_true in Habs, Hnd, Hlen.
  assert (Hpend : forall t' pc i d, delete t (tasks c) !! t' = Some pc -> pending pc = Some (i, d) -> i <> id).
  { intros t' pc i d Ht' Hp ->. destruct (pending_game_pc pc id d Hp) as [l Hl].
    apply lookup_delete_Some in Ht' as [_ Ht']. pose proof (Hg _ _ _ _ Ht' Hl). congruence. }
  split; cbn [store tasks].
  - rewrite flush_counts_next, <- register_flush by done.
    apply register_game_wf; [done..|]. by rewrite <- (flush_counts_prev (tasks c) t (Start (RegisterGame id ps))).
  - intros t' pc i l Ht' Hl. destruct (decide (t' = t)) as [->|Hne].
    { rewrite lookup_insert_eq in Ht'. by injection Ht' as <-. }
    rewrite lookup_insert_ne in Ht' by done.
    unfold StorageHandle.register_game. destruct (Heap.alloc_game _ _) as [l' h']. cbn.
    assert (i <> id) by (intros ->; pose proof (Hg _ _ _ _ Ht' Hl); congruence).
    rewrite lookup_insert_ne by done. eauto.
  - unfold StorageHandle.register_game, Heap.alloc_game. cbn. intros l gs.
    rewrite lookup_insert_Some. intros [[_ <-]|[_ Hl]]; [done|eauto].
  - intros t' pc Ht'. destruct (decide (t' = t)) as [->|Hne].
    + rewrite lookup_insert_eq in Ht'. by injection Ht' as <-.
    + rewrite lookup_insert_ne in Ht' by done. eauto.
Qed.

Lemma ops_no_close_tail o ops : ops_no_close (o :: ops) = true -> ops_no_close ops = true.
Proof. cbn. by rewrite andb_true_iff; intros []. Qed.

Lemma lock_player_state_games id w :
  StorageState.games (Store.index (StorageHandle.lock_player_state id w).1) = StorageState.games (Store.index w) /\
  Heap.gcells (Store.heap (StorageHandle.lock_player_state id w).1) = Heap.gcells (Store.heap w).
Proof.
  unfold StorageHandle.lock_player_state. destruct (StorageState.players _ !! id); [done|].
  by destruct (Heap.alloc_player _ _) eqn:E; unfold Heap.alloc_player in E; injection E as <- <-.
Qed.

(** A write to a game cell that keeps its [closed] flag keeps every cell open. *)
Lemma open_modify_game f l w :
  (forall gs, GameState.closed (f gs) = GameState.closed gs) ->
  (forall l gs, Heap.gcells (Store.heap w) !! l = Some gs -> GameState.closed gs = false) ->
  forall l' gs, Heap.gcells (Heap.modify_game f l (Store.heap w)) !! l' = Some gs -> GameState.closed gs = false.
Proof.
  intros Hf Ho l' gs. unfold Heap.modify_game. cbn [Heap.gcells].
  rewrite lookup_alter_Some. intros [(? & gs0 & Hgs0 & ->)|[_ Hl]]; [rewrite Hf|]; eauto.
Qed.

(** Every step a task takes under the contract keeps the invariant. *)
Lemma ninv_run c t pc c' :
  ninv c -> tasks c !! t = Some pc -> contract_ok pc (store c) = true -> run_task t pc c = Some c' ->
  ninv c'.
Proof.
  intros Hi Ht Hok Hrun. pose proof (ni_noclose _ Hi t pc Ht) as Hnc.
  pose proof (fun id l => ni_games _ Hi t pc id l Ht) as Hgt.
  destruct pc as [[id ps|id ops|id ops|gs]|id l ops|id l [|[gid|] ops]|id l ops|id l
                 |id l [|[p|p|] ops]|id l d ops|fe [|e td]|];
    unfold run_task in Hrun; cbv beta iota zeta in Hrun; try discriminate.
  - injection Hrun as <-. exact (ninv_register c t id ps Hi Ht Hok).
  - destruct (lock_player_state_games id (store c)) as [Hg Hgc].
    destruct (StorageHandle.lock_player_state id (store c)) as [w' g] eqn:E. injection Hrun as <-.
    cbn [fst] in Hg, Hgc.
    apply (ninv_same_games c t _ _ _ w' Hi Ht); try done.
    + rewrite Hgc. apply (ni_open _ Hi).
    + replace w' with (StorageHandle.lock_player_state id (store c)).1 by (by rewrite E).
      by apply (ninv_lease_player_wf _ _ (Start (LeasePlayer id ops))); [| | |apply (ni_wf _ Hi)].
  - destruct (StorageState.games _ !! id) as [l|] eqn:Hl; injection Hrun as <-;
      (apply (ninv_quiet c t _ _ _ Hi Ht); [done..| |]); cbn; try done.
    intros ? ? [= <- <-]. done.
  - injection Hrun as <-. by apply (ninv_quiet c t _ _ _ Hi Ht).
  - destruct (owner c !! l); [done|]. injection Hrun as <-.
    by apply (ninv_quiet c t _ _ _ Hi Ht).
  - injection Hrun as <-. by apply (ninv_quiet c t _ _ _ Hi Ht).
  - injection Hrun as <-. apply (ninv_same_games c t _ _ _ _ Hi Ht); try done.
    + apply (ni_open _ Hi).
    + apply (ninv_heap_wf _ t (HoldPlayer id l (JoinGame gid :: ops))); [done..| |apply (ni_wf _ Hi)].
      intros w0. apply (join_game_wf (LockedPlayerState.mk id l) gid w0).
  - injection Hrun as <-. apply (ninv_same_games c t _ _ _ _ Hi Ht); try done.
    + apply (ni_open _ Hi).
    + apply (ninv_heap_wf _ t (HoldPlayer id l (LeaveGame :: ops))); [done..| |apply (ni_wf _ Hi)].
      intros w0. apply (leave_game_wf (LockedPlayerState.mk id l) w0).
  - destruct (owner c !! l); [done|].
    destruct (Heap.gcells _ !! l) as [gs|] eqn:Hgs; [|injection Hrun as <-; by apply (ninv_quiet c t _ _ _ Hi Ht)].
    rewrite (ni_open _ Hi l gs Hgs) in Hrun. injection Hrun as <-.
    by apply (ninv_quiet c t _ _ _ Hi Ht).
  - injection Hrun as <-. by apply (ninv_quiet c t _ _ _ Hi Ht).
  - cbn in Hok. apply bool_decide_eq_true in Hok.
    pose proof (ops_no_close_tail _ _ Hnc) as Hnc'.
    destruct (push_member id l p (store c)) as [w'|] eqn:Hpush; injection Hrun as <-.
    + apply (ninv_same_games c t _ _ _ _ Hi Ht); try done.
      * unfold push_member in Hpush. destruct (vec_contains _ p); [done|]. by injection Hpush as <-.
      * unfold push_member in Hpush. destruct (vec_contains _ p); [done|]. injection Hpush as <-.
        apply open_modify_game; [done|apply (ni_open _ Hi)].
      * apply (ninv_add_wf _ t id l ((AddPlayer p :: ops)) ops p (store c)); try done;
          [by apply (Hgt id l)|apply (ni_wf _ Hi)].
    + by apply (ninv_quiet c t _ _ _ Hi Ht).
  - cbn in Hok. pose proof (ops_no_close_tail _ _ Hnc) as Hnc'. injection Hrun as <-.
    apply (ninv_same_games c t _ _ _ _ Hi Ht); try done.
    + apply open_modify_game; [done|apply (ni_open _ Hi)].
    + apply (ninv_remove_wf _ t id l (RemovePlayer p :: ops) ops p (store c)); try done;
        [by apply (Hgt id l)|apply (ni_wf _ Hi)].
  - injection Hrun as <-. apply (ninv_same_games c t _ _ _ _ Hi Ht); try done.
    + apply (ni_open _ Hi).
    + apply ninv_count_wf; [done|apply (ni_wf _ Hi)].
  - injection Hrun as <-. by apply (ninv_quiet c t _ _ _ Hi Ht).
  - injection Hrun as <-. by apply (ninv_quiet c t _ _ _ Hi Ht).
Qed.

Lemma ninv_step c c' : ninv c -> ncstep c c' -> ninv c'.
Proof.
  intros Hi Hs. inversion Hs as [t pc c0 c1 Ht Hok Hrun|t r c0 Ht Hr|t pc c0 Ht Ha]; subst.
  - by apply (ninv_run c t pc).
  - destruct Hi as [Hwf Hg Ho Hn]. split; cbn [set_pc store tasks].
    + rewrite flush_counts_next, delete_id by done. exact Hwf.
    + intros t' pc id l Ht' Hl. destruct (decide (t' = t)) as [->|Hne].
      * rewrite lookup_insert_eq in Ht'. by injection Ht' as <-.
      * rewrite lookup_insert_ne in Ht' by done. eauto.
    + done.
    + intros t' pc Ht'. destruct (decide (t' = t)) as [->|Hne].
      * rewrite lookup_insert_eq in Ht'. by injection Ht' as <-.
      * rewrite lookup_insert_ne in Ht' by done. eauto.
  - apply (ninv_quiet c t pc Done (owner c) Hi Ht); [|done..].
    by destruct pc.
Qed.

Lemma rtc_ninv c c' : rtc ncstep c c' -> ninv c -> ninv c'.
Proof. induction 1; eauto using ninv_step. Qed.

Lemma flush_counts_quiescent T w :
  (forall t pc, T !! t = Some pc -> pending pc = None) -> flush_counts T w = w.
Proof.
  induction T as [|t pc T Hnone IH] using map_ind; intros Hq; [done|].
  rewrite flush_counts_insert, delete_id by done. unfold flush_one.
  rewrite (Hq t pc) by apply lookup_insert_eq. apply IH.
  intros t' pc' Ht'. apply (Hq t'). rewrite lookup_insert_ne; [done|congruence].
Qed.

(** Schedules of callers that keep the contract and never close a game. *)
Definition ncevent_step (e : Event) (c : Config) : option Config :=
  match e with
  | Spawn t r => if req_no_close r then cevent_step e c else None
  | _ => cevent_step e c
  end.

Fixpoint run_ncschedule (es : list Event) (c : Config) : option Config :=
  match es with
  | [] => Some c
  | e :: es => ncevent_step e c ≫= run_ncschedule es
  end.

Lemma ncevent_step_ncstep e c c' : ncevent_step e c = Some c' -> ncstep c c'.
Proof.
  destruct e as [t|t r|t]; cbn [ncevent_step cevent_step event_step].
  - destruct (tasks c !! t) as [pc|] eqn:Ht; cbn [mbind option_bind]; [|done].
    destruct (contract_ok pc (store c)) eqn:Hok; [|done]. eauto using ncstep.
  - destruct (req_no_close r) eqn:Hr; [|done].
    destruct (tasks c !! t) eqn:Ht; [done|]. intros [= <-]. by constructor.
  - destruct (tasks c !! t) as [pc|] eqn:Ht; [|done].
    destruct (awaiting pc) eqn:Ha; [|done]. intros [= <-]. eauto using ncstep.
Qed.

Lemma run_ncschedule_rtc es c c' : run_ncschedule es c = Some c' -> rtc ncstep c c'.
Proof.
  revert c. induction es as [|e es IH]; cbn [run_ncschedule]; intros c H; [by injection H as <-|].
  destruct (ncevent_step e c) as [c1|] eqn:He; [|done].
  eapply rtc_l; [exact (ncevent_step_ncstep e c c1 He) | by apply IH].
Qed.

Lemma ninv_init w :
  store_wf w -> (forall l gs, Heap.gcells (Store.heap w) !! l = Some gs -> GameState.closed gs = false) ->
  ninv (init_config w).
Proof.
  intros Hw Ho. split; cbn [init_config store tasks]; [done| |done|];
    intros t pc; unfold init_config; cbn; by rewrite lookup_empty.
Qed.

(** C4: count-cache consistency under interleaving, without closures.
    From a well-formed store whose games are all open, in every
    configuration reached by callers that keep the contract and never
    close a game, the store is well formed once the pending count writes
    are done; when no task is between the member-list write and the
    count write of [add_player] or [remove_player], the cached count of
    every indexed game is the length of its member list (§3, §8). *)
Theorem counts_consistent_without_close w c :
  store_wf w -> (forall l gs, Heap.gcells (Store.heap w) !! l = Some gs -> GameState.closed gs = false) ->
  rtc ncstep (init_config w) c ->
  store_wf (flush_counts (tasks c) (store c)) /\
  ((forall t pc, tasks c !! t = Some pc -> pending pc = None) ->
   forall id l gs, StorageState.games (Store.index (store c)) !! id = Some l ->
     Heap.gcells (Store.heap (store c)) !! l = Some gs ->
     StorageState.game_num_players (Store.index (store c)) !! id = Some (vec_len (GameState.players gs))).
Proof.
  intros Hw Ho Hr. pose proof (rtc_ninv _ _ Hr (ninv_init w Hw Ho)) as Hi.
  split; [apply (ni_wf _ Hi)|]. intros Hq id l gs Hl Hgs.
  pose proof (ni_wf _ Hi) as Hwf. rewrite flush_counts_quiescent in Hwf by done.
  exact (wf_count _ _ Hwf _ _ _ Hl Hgs).
Qed.

(** Witness: tasks 0 and 1 add player 5 to game 7 and remove player 1
    from it, the second waiting for the first. *)
Definition add_remove_schedule : list Event :=
  [Spawn 0 (LeaseGame 7 [AddPlayer 5]); Spawn 1 (LeaseGame 7 [RemovePlayer 1]);
   Run 0; Run 1; Run 0; Run 0; Run 0; Run 0; Run 1; Run 1; Run 1; Run 1].

Definition add_remove_config : Config :=
  from_option (fun c => c) (init_config seed_store)
    (run_ncschedule add_remove_schedule (init_config seed_store)).

Lemma counts_consistent_without_close_witness :
  store_wf seed_store /\ rtc ncstep (init_config seed_store) add_remove_config /\
  StorageState.game_num_players (Store.index (store add_remove_config)) !! 7 = Some 2.
Proof.
  assert (Hw : store_wf seed_store) by apply seed_store_wf.
  assert (Ho : forall l gs, Heap.gcells (Store.heap seed_store) !! l = Some gs -> GameState.closed gs = false).
  { assert (Hc : Heap.gcells (Store.heap seed_store) = {[3%positive := GameState.mk [1; 2] false]})
      by reflexivity.
    intros l gs. rewrite Hc, lookup_singleton_Some. by intros [_ <-]. }
  assert (Hr : rtc ncstep (init_config seed_store) add_remove_config).
  { apply (run_ncschedule_rtc add_remove_schedule). vm_compute. reflexivity. }
  split; [done|]. split; [done|].
  destruct (counts_consistent_without_close seed_store add_remove_config Hw Ho Hr) as [_ Hq].
  assert (Hdone : forall t pc, tasks add_remove_config !! t = Some pc -> pending pc = None).
  { assert (E : map_to_list (tasks add_remove_config) = [(1%nat, Done); (0%nat, Done)])
      by (vm_compute; reflexivity).
    intros t pc. rewrite <- elem_of_map_to_list, E.
    intros Hin. repeat (apply elem_of_cons in Hin as [[= _ ->]|Hin]; [done|]).
    by apply elem_of_nil in Hin. }
  apply (Hq Hdone 7 3%positive (GameState.mk [2; 5] false)); vm_compute; reflexivity.
Defined.
