(* ===== verification/Cli.v ===== *)
(** The command-line entry point [binaries/flo-cli/src/main.rs].

    [main] loads [.env] and discards the result ([dotenv().ok()]),
    initialises logging, parses the command line into the enum [Opt]
    ([Opt::from_args], derived by [structopt] on clap 2), and runs the
    selected subcommand, propagating its error with [?].  The six
    subcommand modules ([mod client; mod server; ...]) are not under
    src/: what [main] needs of them (a parser for their own arguments and
    an asynchronous [run]) is the class [Subcommands], and what it needs
    of the process (the environment file, the logger, the argument list)
    is the class [Runtime].

    The file holds, in order: the decimal parser [i32_from_str] that the
    derive applies to [player_id: i32] and the printer [i32_to_string] the
    statements write player ids with (both models of Rust's standard
    library, [<i32 as FromStr>::from_str] and [impl Display for i32], not
    of code of the repository); the argument grammar [from_args_list] of
    [Opt]; the effect monad [IO] and [main]. *)

From Stdlib Require Import String Ascii.
From S2P Require Import Prelude.

Local Open Scope string_scope.
Local Open Scope Z_scope.

(** ** [<i32 as FromStr>::from_str] *)

(** [core::num::IntErrorKind]. *)
Inductive IntErrorKind := Empty | InvalidDigit | PosOverflow | NegOverflow.

#[export] Instance IntErrorKind_eq_dec : EqDecision IntErrorKind.
Proof. solve_decision. Defined.

Definition in_i32b (z : Z) : bool := (- 2 ^ 31 <=? z) && (z <? 2 ^ 31).

(** [i32::checked_mul], [checked_add], [checked_sub] on the exact result. *)
Definition checked_i32 (z : Z) : option Z := if in_i32b z then Some z else None.

(** [(c as char).to_digit(10)]. *)
Definition to_digit (c : ascii) : option Z :=
  let n := Z.of_nat (nat_of_ascii c) in
  if (48 <=? n) && (n <=? 57) then Some (n - 48) else None.

(** The overflow error of a sign. *)
Definition overflow (is_positive : bool) : IntErrorKind :=
  if is_positive then PosOverflow else NegOverflow.

(** The digit loop of [from_str_radix]: for each byte, [checked_mul] by
    the radix, then [to_digit] (an error before the overflow of that step
    is reported), then the unwrapping of the product and [checked_add]
    (or [checked_sub] for a negative number). *)
Fixpoint from_digits (is_positive : bool) (result : Z) (digits : string)
    : Prelude.result Z IntErrorKind :=
  match digits with
  | EmptyString => Ok result
  | String c rest =>
      let mul := checked_i32 (result * 10) in
      match to_digit c with
      | None => Err InvalidDigit
      | Some x =>
          match mul with
          | None => Err (overflow is_positive)
          | Some r =>
              match checked_i32 (if is_positive then r + x else r - x) with
              | None => Err (overflow is_positive)
              | Some r' => from_digits is_positive r' rest
              end
          end
      end
  end.

(** [i32::from_str_radix(src, 10)]: an empty string, a lone sign, a
    leading [+] or [-] (an [i32] is signed), then the digit loop. *)
Definition i32_from_str (src : string) : Prelude.result Z IntErrorKind :=
  match src with
  | EmptyString => Err Empty
  | String c rest =>
      if (Ascii.eqb c "+" || Ascii.eqb c "-")%char && String.eqb rest "" then Err InvalidDigit
      else if Ascii.eqb c "+" then from_digits true 0 rest
      else if Ascii.eqb c "-" then from_digits false 0 rest
      else from_digits true 0 src
  end.

(** The reading of a string of digits the proofs go through: the signed
    value of the longest prefix of digits, and whether the digits run to
    the end, with no range test. *)
Fixpoint scan (is_positive : bool) (acc : Z) (s : string) : Z * bool :=
  match s with
  | EmptyString => (acc, true)
  | String c rest =>
      match to_digit c with
      | None => (acc, false)
      | Some x => scan is_positive (if is_positive then acc * 10 + x else acc * 10 - x) rest
      end
  end.

(** [impl Display for i32]: the decimal digits of the absolute value,
    after a [-] for a negative number.  [show_digits] prepends the digits
    of [n] to [acc]; its fuel is a bound on the number of digits. *)
Definition digit_char (d : Z) : ascii := ascii_of_nat (Z.to_nat (48 + d)).

Fixpoint show_digits (fuel : nat) (n : Z) (acc : string) : string :=
  match fuel with
  | O => acc
  | S f =>
      let acc' := String (digit_char (n mod 10)) acc in
      if n <? 10 then acc' else show_digits f (n / 10) acc'
  end.

Definition digits_fuel (n : Z) : nat := S (Z.to_nat (Z.log2 n)).

Definition i32_to_string (z : Z) : string :=
  let ds := show_digits (digits_fuel (Z.abs z)) (Z.abs z) "" in
  if z <? 0 then String "-" ds else ds.

(** ** Lemmas on the decimal parser *)

Lemma in_i32b_spec z : in_i32b z = true <-> in_i32 z.
Proof. unfold in_i32b, in_i32. rewrite andb_true_iff, Z.leb_le, Z.ltb_lt. done. Qed.

Lemma in_i32b_false z : in_i32b z = false <-> ~ in_i32 z.
Proof. rewrite <- in_i32b_spec. destruct (in_i32b z); intuition congruence. Qed.

(** The side of zero a partial result of the given sign lies on, and the
    direction in which the digit loop moves it. *)
Definition signed (is_positive : bool) (a : Z) : Prop := if is_positive then 0 <= a else a <= 0.
Definition ahead (is_positive : bool) (a v : Z) : Prop := if is_positive then a <= v else v <= a.

Lemma to_digit_range c x : to_digit c = Some x -> 0 <= x <= 9.
Proof.
  unfold to_digit. destruct (_ && _) eqn:E; [|done]. intros [= <-].
  apply andb_true_iff in E as [E1 E2]. apply Z.leb_le in E1, E2. lia.
Qed.

Lemma scan_step_signed pos a x : signed pos a -> 0 <= x <= 9 ->
  signed pos (if pos then a * 10 + x else a * 10 - x) /\ ahead pos a (if pos then a * 10 + x else a * 10 - x).
Proof. unfold signed, ahead. destruct pos; lia. Qed.

Lemma scan_ahead pos s : forall a, signed pos a -> ahead pos a (scan pos a s).1.
Proof.
  induction s as [|c s IH]; intros a Ha; cbn [scan fst]; [unfold ahead; destruct pos; lia|].
  destruct (to_digit c) as [x|] eqn:Hx; cbn [fst]; [|unfold ahead; destruct pos; lia].
  destruct (scan_step_signed pos a x Ha (to_digit_range _ _ Hx)) as [Hs Ha'].
  specialize (IH _ Hs). unfold ahead in *. destruct pos; lia.
Qed.

(** Once out of range, a partial result stays out of range. *)
Lemma ahead_out pos a v : signed pos a -> ahead pos a v -> ~ in_i32 a -> ~ in_i32 v.
Proof. unfold signed, ahead, in_i32. destruct pos; lia. Qed.

Lemma from_digits_scan pos s : forall a, signed pos a -> in_i32 a ->
  from_digits pos a s =
    let '(v, all_digits) := scan pos a s in
    if negb (in_i32b v) then Err (overflow pos) else if all_digits then Ok v else Err InvalidDigit.
Proof.
  induction s as [|c s IH]; intros a Hs Ha; cbn [from_digits scan].
  { by rewrite (proj2 (in_i32b_spec a) Ha). }
  destruct (to_digit c) as [x|] eqn:Hx; [|by rewrite (proj2 (in_i32b_spec a) Ha)].
  pose proof (to_digit_range _ _ Hx) as Hxr.
  destruct (scan_step_signed pos a x Hs Hxr) as [Hs' _].
  set (a' := if pos then a * 10 + x else a * 10 - x) in *.
  assert (Hout : ~ in_i32 a' -> in_i32b (scan pos a' s).1 = false).
  { intros Hn. apply in_i32b_false. eapply ahead_out; [exact Hs'| |exact Hn]. by apply scan_ahead. }
  unfold checked_i32. destruct (in_i32b (a * 10)) eqn:Hm.
  - fold a'. destruct (in_i32b a') eqn:Ha'.
    + apply IH; [done|]. by apply in_i32b_spec.
    + destruct (scan pos a' s) as [v b] eqn:Hsc. cbn [fst] in Hout.
      rewrite Hout; [done|]. by apply in_i32b_false.
  - destruct (scan pos a' s) as [v b] eqn:Hsc. cbn [fst] in Hout.
    rewrite Hout; [done|]. apply in_i32b_false in Hm.
    unfold a', in_i32, signed in *. destruct pos; lia.
Qed.

Lemma to_digit_char d : 0 <= d <= 9 -> to_digit (digit_char d) = Some d.
Proof.
  intros Hd. unfold to_digit, digit_char.
  rewrite nat_ascii_embedding by lia. rewrite Z2Nat.id by lia.
  replace ((48 <=? 48 + d) && (48 + d <=? 57)) with true by (symmetry; apply andb_true_iff; lia).
  f_equal. lia.
Qed.

Lemma show_digits_head f n acc :
  exists d rest, show_digits (S f) n acc = String (digit_char d) rest /\ 0 <= d <= 9.
Proof.
  revert n acc. induction f as [|f IH]; intros n acc.
  - exists (n mod 10), acc. pose proof (Z.mod_pos_bound n 10).
    cbn [show_digits]. split; [by destruct (n <? 10)|lia].
  - change (show_digits (S (S f)) n acc) with
      (let acc' := String (digit_char (n mod 10)) acc in
       if n <? 10 then acc' else show_digits (S f) (n / 10) acc').
    cbv zeta. destruct (n <? 10); [|apply IH].
    exists (n mod 10), acc. pose proof (Z.mod_pos_bound n 10). split; [done|lia].
Qed.

(** The digits [show_digits] writes are read back by [scan] as [n], with
    the sign of the scan. *)
Lemma scan_show_digits pos f : forall n acc, 0 <= n < 10 ^ Z.of_nat f ->
  scan pos 0 (show_digits f n acc) = scan pos (if pos then n else - n) acc.
Proof.
  induction f as [|f IH]; intros n acc Hn; cbn [show_digits].
  { replace n with 0 by lia. by destruct pos. }
  rewrite Nat2Z.inj_succ, Z.pow_succ_r in Hn by lia.
  assert (Hm : 0 <= n mod 10 <= 9) by (pose proof (Z.mod_pos_bound n 10); lia).
  destruct (n <? 10) eqn:Hlt.
  - cbn [scan]. rewrite to_digit_char by done. rewrite Z.mod_small by (apply Z.ltb_lt in Hlt; lia).
    destruct pos; f_equal; lia.
  - rewrite IH by (split; [apply Z.div_pos|apply Z.div_lt_upper_bound]; lia).
    cbn [scan]. rewrite to_digit_char by done.
    pose proof (Z.div_mod n 10). destruct pos; f_equal; lia.
Qed.

Lemma digits_fuel_enough n : 0 <= n -> n < 10 ^ Z.of_nat (digits_fuel n).
Proof.
  intros Hn. unfold digits_fuel. rewrite Nat2Z.inj_succ, Z2Nat.id by apply Z.log2_nonneg.
  destruct (Z.eq_dec n 0) as [->|Hne]; [done|].
  destruct (Z.log2_spec n) as [_ Hlt]; [lia|].
  eapply Z.lt_le_trans; [exact Hlt|]. rewrite <- Z.add_1_r.
  apply Z.pow_le_mono_l. lia.
Qed.

Lemma show_digits_nonempty f n acc : show_digits (S f) n acc <> EmptyString.
Proof. by destruct (show_digits_head f n acc) as (d & rest & -> & _). Qed.

Lemma from_digits_show pos n :
  0 <= n ->
  from_digits pos 0 (show_digits (digits_fuel n) n "") =
    let v := if pos then n else - n in
    if in_i32b v then Ok v else Err (overflow pos).
Proof.
  intros Hn. rewrite from_digits_scan by (unfold signed, in_i32; destruct pos; lia).
  rewrite scan_show_digits by (split; [done|by apply digits_fuel_enough]). cbn [scan].
  by destruct (in_i32b _).
Qed.

Lemma digit_char_ne d c : 0 <= d <= 9 -> to_digit c = None -> Ascii.eqb (digit_char d) c = false.
Proof.
  intros Hd Hc. apply Ascii.eqb_neq. intros Heq. rewrite <- Heq, to_digit_char in Hc by done.
  discriminate.
Qed.

(** The decimal digits of a natural number begin with a digit. *)
Lemma show_digits_fuel_head n :
  exists d rest, show_digits (digits_fuel n) n "" = String (digit_char d) rest /\ 0 <= d <= 9.
Proof. apply show_digits_head. Qed.

Lemma i32_from_str_digits n : 0 <= n ->
  i32_from_str (show_digits (digits_fuel n) n "") = if in_i32b n then Ok n else Err PosOverflow.
Proof.
  intros Hn. destruct (show_digits_fuel_head n) as (d & rest & Hds & Hd).
  rewrite Hds. cbn [i32_from_str].
  rewrite (digit_char_ne d "+"), (digit_char_ne d "-") by done. cbn [orb andb].
  by rewrite <- Hds, from_digits_show by lia.
Qed.

(** ** The subcommand modules, as [main] sees them *)

(** The six modules declared by [mod client; mod kinesis; mod lan;
    mod observer; mod replay; mod server;], each with a [Command]. *)
Inductive SubKind := KClient | KServer | KLan | KObserver | KKinesis | KReplay.

#[export] Instance SubKind_eq_dec : EqDecision SubKind.
Proof. solve_decision. Defined.

(** The argument of [Command::run]: [client] takes the player id. *)
Definition run_arg (k : SubKind) : Type := match k with KClient => Z | _ => unit end.

(** [clap::ErrorKind], the outcomes of parsing that end the process. *)
Inductive ClapError :=
| HelpDisplayed | VersionDisplayed | MissingArgumentOrSubcommand | UnknownArgument
| UnrecognizedSubcommand | MissingRequiredArgument | ValueValidation.

(** [clap::Error::exit]: help and version are printed to stdout and end
    the process with status 0, every other error with status 1. *)
Definition clap_exit_code (e : ClapError) : Z :=
  match e with HelpDisplayed | VersionDisplayed => 0 | _ => 1 end.

(** What [main] needs of a subcommand module: the type [Command], the
    parser that [#[structopt(subcommand)]] calls on the rest of the line,
    and (for the statements) the arguments that denote a command. *)
Class CommandSet := {
  Command : SubKind -> Type;
  command_from_args : forall k, list string -> Prelude.result (Command k) ClapError;
  command_args : forall k, Command k -> list string
}.

(** The contract of those parsers: the arguments of a command parse back
    to it. *)
Class CommandSetLaws `{CommandSet} :=
  command_from_args_args : forall k c, command_from_args k (command_args k c) = Ok c.

(** ** [enum Opt] and [Opt::from_args] *)

Section Opt.
Context `{CommandSet}.

Inductive Opt :=
| Client (player_id : Z) (cmd : Command KClient)
| Server (cmd : Command KServer)
| Lan (cmd : Command KLan)
| Observer (cmd : Command KObserver)
| Kinesis (cmd : Command KKinesis)
| Replay (cmd : Command KReplay).

(** The subcommand names: structopt's kebab-case of the variants. *)
Definition sub_of_name (a : string) : option SubKind :=
  if String.eqb a "client" then Some KClient
  else if String.eqb a "server" then Some KServer
  else if String.eqb a "lan" then Some KLan
  else if String.eqb a "observer" then Some KObserver
  else if String.eqb a "kinesis" then Some KKinesis
  else if String.eqb a "replay" then Some KReplay
  else None.

Definition sub_name (k : SubKind) : string :=
  match k with
  | KClient => "client" | KServer => "server" | KLan => "lan"
  | KObserver => "observer" | KKinesis => "kinesis" | KReplay => "replay"
  end.

(** A token clap reads as a flag: a [-] followed by at least one byte. *)
Definition is_flag (a : string) : bool :=
  match a with String c (String _ _) => Ascii.eqb c "-" | _ => false end.

Definition flag_error (a : string) : ClapError :=
  if String.eqb a "-h" || String.eqb a "--help" then HelpDisplayed
  else if String.eqb a "-V" || String.eqb a "--version" then VersionDisplayed
  else UnknownArgument.

(** The variant of a subcommand that takes no positional argument. *)
Definition opt_of (k : SubKind) : Command k -> option Opt :=
  match k with
  | KClient => fun _ => None
  | KServer => fun c => Some (Server c)
  | KLan => fun c => Some (Lan c)
  | KObserver => fun c => Some (Observer c)
  | KKinesis => fun c => Some (Kinesis c)
  | KReplay => fun c => Some (Replay c)
  end.

(** [Opt::from_args()] on the arguments after the program name: the
    enum is an app whose subcommand is required ([SubcommandRequiredElseHelp]);
    [client] takes the positional [player_id: i32], parsed by
    [i32_from_str], before its own subcommand; the rest of the line goes
    to the module's parser. *)
Definition from_args_list (args : list string) : Prelude.result Opt ClapError :=
  match args with
  | [] => Err MissingArgumentOrSubcommand
  | a :: rest =>
      if is_flag a then Err (flag_error a)
      else
        match sub_of_name a with
        | None => if String.eqb a "help" then Err HelpDisplayed else Err UnrecognizedSubcommand
        | Some KClient =>
            match rest with
            | [] => Err MissingRequiredArgument
            | p :: rest' =>
                if is_flag p then Err (flag_error p)
                else
                  match i32_from_str p with
                  | Err _ => Err ValueValidation
                  | Ok player_id =>
                      match command_from_args KClient rest' with
                      | Ok cmd => Ok (Client player_id cmd)
                      | Err e => Err e
                      end
                  end
            end
        | Some k =>
            match command_from_args k rest with
            | Ok cmd => from_option Ok (Err UnrecognizedSubcommand) (opt_of k cmd)
            | Err e => Err e
            end
        end
  end.

(** The command line that denotes an [Opt]. *)
Definition to_args (o : Opt) : list string :=
  match o with
  | Client player_id cmd => "client" :: i32_to_string player_id :: command_args KClient cmd
  | Server cmd => "server" :: command_args KServer cmd
  | Lan cmd => "lan" :: command_args KLan cmd
  | Observer cmd => "observer" :: command_args KObserver cmd
  | Kinesis cmd => "kinesis" :: command_args KKinesis cmd
  | Replay cmd => "replay" :: command_args KReplay cmd
  end.

End Opt.


(** ** The effects of [main] *)

(** How an action of the process ends: with a value, with an error
    returned through [?] ([anyhow::Error]), or by [std::process::exit]. *)
Inductive outcome (E A : Type) := Returned (a : A) | Raised (e : E) | Exited (code : Z).
Arguments Returned {E A} a.
Arguments Raised {E A} e.
Arguments Exited {E A} code.

(** An asynchronous action run to completion by the Tokio runtime, on the
    state [W] of the process. *)
Definition IO (W E A : Type) : Type := W -> W * outcome E A.

Definition io_ret {W E A} (a : A) : IO W E A := fun w => (w, Returned a).

(** [?] and [.await]: the next action runs only on a returned value. *)
Definition io_bind {W E A B} (m : IO W E A) (k : A -> IO W E B) : IO W E B :=
  fun w =>
    match m w with
    | (w', Returned a) => k a w'
    | (w', Raised e) => (w', Raised e)
    | (w', Exited c) => (w', Exited c)
    end.

Declare Scope io_scope.
Delimit Scope io_scope with io.
Notation "'do' x <- m ; k" := (io_bind m (fun x => k))
  (at level 60, m at next level, right associativity) : io_scope.
Local Open Scope io_scope.

(** What [main] needs of the process: [dotenv::dotenv()], which loads
    [.env] into the environment and reports whether it could;
    [flo_log_subscriber::init()]; the arguments after the program name. *)
Class Runtime (W : Type) := {
  dotenv : W -> W * bool;
  log_init : W -> W;
  args : W -> list string
}.

(** Loading [.env] and installing the logger leave the command line alone. *)
Class RuntimeLaws W `{Runtime W} := {
  args_dotenv : forall w, args (dotenv w).1 = args w;
  args_log_init : forall w, args (log_init w) = args w
}.

(** What [main] needs of a subcommand module to run it:
    [cmd.run(player_id).await] and [cmd.run().await]. *)
Class CommandRun `{CommandSet} (W E : Type) :=
  command_run : forall k, Command k -> run_arg k -> IO W E unit.

Section Main.
Context `{CommandSet} {W E : Type} `{Runtime W} `{!CommandRun W E}.

(** [Opt::from_args()]: a parse error prints its message and exits. *)
Definition from_args : IO W E Opt :=
  fun w =>
    match from_args_list (args w) with
    | Ok o => (w, Returned o)
    | Err e => (w, Exited (clap_exit_code e))
    end.

(** The [match opt] of [main]. *)
Definition dispatch (opt : Opt) : IO W E unit :=
  match opt with
  | Client player_id cmd => command_run KClient cmd player_id
  | Server cmd => command_run KServer cmd tt
  | Lan cmd => command_run KLan cmd tt
  | Observer cmd => command_run KObserver cmd tt
  | Kinesis cmd => command_run KKinesis cmd tt
  | Replay cmd => command_run KReplay cmd tt
  end.

(** [async fn main() -> Result<()>]: [dotenv::dotenv().ok()] drops the
    result of loading [.env]; then the logger, the parse, the dispatch
    with [?], and [Ok(())]. *)
Definition main : IO W E unit :=
  do _ <- (fun w => let '(w', loaded) := dotenv w in (w', Returned loaded)) ;
  do _ <- (fun w => (log_init w, Returned tt)) ;
  do opt <- from_args ;
  do _ <- dispatch opt ;
  io_ret tt.

(** The status of the process when [main] ends: [Ok(())] is 0, an [Err]
    is printed and gives 1 ([impl Termination for Result]), an exit
    gives its code. *)
Definition process_status (r : outcome E unit) : Z :=
  match r with Returned _ => 0 | Raised _ => 1 | Exited c => c end.

End Main.

(** ** Theorems on the command line and [main] *)

Section MainTheorems.
Context `{CommandSet} {W E : Type} `{Runtime W} `{!CommandRun W E}.

(** The player ids the statements write on a command line: those of an
    [i32] that clap can take as a positional argument. *)
Definition cli_player_ok (o : Opt) : Prop :=
  match o with Client player_id _ => 0 <= player_id < 2 ^ 31 | _ => True end.

Lemma is_flag_digits n : is_flag (show_digits (digits_fuel n) n "") = false.
Proof.
  destruct (show_digits_fuel_head n) as (d & rest & -> & Hd). cbn [is_flag].
  destruct rest; [done|]. by apply digit_char_ne.
Qed.

Lemma from_args_list_to_args `{!CommandSetLaws} o :
  cli_player_ok o -> from_args_list (to_args o) = Ok o.
Proof.
  intros Ho. destruct o as [pid cmd|cmd|cmd|cmd|cmd|cmd]; cbn [to_args];
    unfold from_args_list; cbn [is_flag Ascii.eqb]; cbn -[command_from_args i32_to_string];
    rewrite ?command_from_args_args; [|done..].
  cbn in Ho. unfold i32_to_string. replace (pid <? 0) with false by (symmetry; apply Z.ltb_ge; lia).
  replace (Z.abs pid) with pid by lia.
  rewrite is_flag_digits, i32_from_str_digits by lia.
  by replace (in_i32b pid) with true by (symmetry; apply in_i32b_spec; unfold in_i32; lia).
Qed.

(** [main] with its first two actions done. *)
Lemma main_unfold w :
  main w =
    let w2 := log_init (dotenv w).1 in
    match from_args_list (args w2) with
    | Err e => (w2, Exited (clap_exit_code e))
    | Ok o =>
        match dispatch o w2 with
        | (w3, Returned _) => (w3, Returned tt)
        | (w3, Raised e) => (w3, Raised e)
        | (w3, Exited c) => (w3, Exited c)
        end
    end.
Proof.
  unfold main, io_bind, from_args, io_ret. destruct (dotenv w) as [w1 b]. cbn [fst].
  destruct (from_args_list _); [|done]. by destruct (dispatch _ _) as [? []].
Qed.

(** The tokens of the positional argument of a variant: [client]'s player
    id in decimal, nothing for the others. *)
Definition arg_tokens (k : SubKind) : run_arg k -> list string :=
  match k with KClient => fun p => [i32_to_string p] | _ => fun _ => [] end.

(** The player ids clap can take as a positional argument. *)
Definition arg_ok (k : SubKind) : run_arg k -> Prop :=
  match k with KClient => fun p => 0 <= p < 2 ^ 31 | _ => fun _ => True end.

(** C13: [main] runs the command written on the line.  For a line
    [<subcommand> [player_id] <command arguments>] ([client] with a player
    id clap can take), [main] loads [.env], installs the logger, and then
    runs exactly that module's [Command::run] on the command its parser
    reads, with the player id written for [client] and no argument for the
    others: the state it ends in and its outcome (value, [Err] or exit)
    are those of that [run]. *)
Theorem main_runs_command `{!CommandSetLaws} `{!RuntimeLaws W} k (cmd : Command k) (a : run_arg k) w :
  arg_ok k a -> args w = sub_name k :: arg_tokens k a ++ command_args k cmd ->
  main w = command_run k cmd a (log_init (dotenv w).1).
Proof.
  intros Ha Hargs. rewrite main_unfold. cbn zeta. rewrite args_log_init, args_dotenv, Hargs.
  destruct k; cbn [arg_tokens app sub_name] in *;
    [ pose proof (from_args_list_to_args (Client a cmd) Ha) as Hp
    | pose proof (from_args_list_to_args (Server cmd) I) as Hp
    | pose proof (from_args_list_to_args (Lan cmd) I) as Hp
    | pose proof (from_args_list_to_args (Observer cmd) I) as Hp
    | pose proof (from_args_list_to_args (Kinesis cmd) I) as Hp
    | pose proof (from_args_list_to_args (Replay cmd) I) as Hp ];
    cbn [to_args] in Hp; rewrite Hp; cbn [dispatch] in *; cbn [run_arg] in a;
    lazymatch type of a with unit => destruct a | _ => idtac end;
    by destruct (command_run _ _ _ _) as [? [[]| |]].
Qed.

(** C24: a negative player id cannot be given to [client]: clap reads the
    token [-5] as an unknown flag, so [main] ends with status 1 after
    loading [.env] and the logger, and no command runs. *)
Theorem main_rejects_negative_player `{!RuntimeLaws W} player_id rest w :
  player_id < 0 -> args w = "client" :: i32_to_string player_id :: rest ->
  main w = (log_init (dotenv w).1, Exited 1).
Proof.
  intros Hneg Hargs. rewrite main_unfold. cbn zeta.
  rewrite args_log_init, args_dotenv, Hargs. unfold from_args_list.
  cbn -[i32_to_string]. unfold i32_to_string.
  replace (player_id <? 0) with true by (symmetry; apply Z.ltb_lt; lia).
  destruct (show_digits_fuel_head (Z.abs player_id)) as (d & ds & -> & Hd).
  cbn [is_flag Ascii.eqb]. unfold flag_error. cbn [String.eqb Ascii.eqb].
  by rewrite !(digit_char_ne d) by (done || reflexivity).
Qed.

(** C25: the status the process ends with.  A command line clap rejects
    ends it with clap's status (0 for help and version, 1 otherwise)
    before any command runs; a parsed one gives the status of the
    command's [run], an [Err] from it becoming status 1 through [?] and
    [Result]'s [Termination]; whether [.env] could be loaded plays no
    part. *)
Theorem main_status `{!RuntimeLaws W} w :
  process_status (main w).2 =
    match from_args_list (args w) with
    | Err e => clap_exit_code e
    | Ok o => process_status (dispatch o (log_init (dotenv w).1)).2
    end.
Proof.
  rewrite main_unfold. cbn zeta. rewrite args_log_init, args_dotenv.
  destruct (from_args_list (args w)) as [o|e]; [|done].
  by destruct (dispatch _ _) as [? [| |]].
Qed.

End MainTheorems.

(** ** A concrete process for the examples

    Every module has the one command [run]; the process records its argument
    list and a log of what it did, and the [lan] command fails. *)
Module Demo.

#[export] Instance commands : CommandSet := {
  Command _ := unit;
  command_from_args _ a :=
    match a with
    | [] => Err MissingArgumentOrSubcommand
    | [x] => if String.eqb x "run" then Ok tt else Err UnrecognizedSubcommand
    | _ => Err UnknownArgument
    end;
  command_args _ _ := ["run"]
}.

#[export] Instance commands_laws : CommandSetLaws.
Proof. by intros k []. Qed.

Record World := mk { argv : list string; log : list string }.

Definition note (s : string) (w : World) : World := mk (argv w) (s :: log w).

#[export] Instance runtime : Runtime World := {
  dotenv w := (note "dotenv" w, false);
  log_init w := note "log" w;
  args := argv
}.

#[export] Instance runtime_laws : RuntimeLaws World.
Proof. by split. Qed.

#[export] Instance run : CommandRun World string :=
  fun k _ _ w => (note (sub_name k) w, if decide (k = KLan) then Raised "lan failed" else Returned tt).

End Demo.

(** Witnesses. *)

Import Demo.

Lemma main_runs_command_witness :
  arg_ok KClient 5 /\
  Demo.argv (Demo.mk ["client"; "5"; "run"] []) = sub_name KClient :: arg_tokens KClient 5 ++ ["run"] /\
  main (Demo.mk ["client"; "5"; "run"] []) =
    command_run (E := string) KClient tt 5 (log_init (dotenv (Demo.mk ["client"; "5"; "run"] [])).1).
Proof.
  assert (Ho : arg_ok KClient 5) by (cbn; lia).
  assert (Ha : Demo.argv (Demo.mk ["client"; "5"; "run"] []) = sub_name KClient :: arg_tokens KClient 5 ++ ["run"])
    by reflexivity.
  split; [exact Ho|]. split; [exact Ha|]. exact (main_runs_command KClient tt 5 _ Ho Ha).
Defined.

Lemma main_rejects_negative_player_witness :
  -5 < 0 /\ Demo.argv (Demo.mk ["client"; "-5"; "run"] []) = "client" :: i32_to_string (-5) :: ["run"] /\
  main (E := string) (Demo.mk ["client"; "-5"; "run"] []) =
    (log_init (dotenv (Demo.mk ["client"; "-5"; "run"] [])).1, Exited 1).
Proof.
  assert (Hn : -5 < 0) by lia.
  assert (Ha : Demo.argv (Demo.mk ["client"; "-5"; "run"] []) = "client" :: i32_to_string (-5) :: ["run"])
    by reflexivity.
  split; [exact Hn|]. split; [exact Ha|]. exact (main_rejects_negative_player _ _ _ Hn Ha).
Defined.

Lemma main_status_witness :
  process_status (main (E := string) (Demo.mk ["lan"; "run"] [])).2 = 1.
Proof.
  rewrite (main_status (Demo.mk ["lan"; "run"] [])). reflexivity.
Defined.
